(** * The explicit free-list allocator of [malloclab/handout/mm.c]

    A shallow embedding of the allocator: the arena is a byte-addressed
    memory, every macro of the C file is a function on that memory, and every
    C function is a state transformer over the allocator's globals
    ([heap_listp], [free_list_tail]) and the arena break.

    Integer model.  The file stores block pointers in [unsigned int] fields,
    so it is written for the ILP32 target: [int], [unsigned int] and [size_t]
    are 32 bits wide.  Addresses are kept as mathematical integers, so that
    the narrowing cast [(unsigned int)(addr)] can be stated for any address. *)

From Stdlib Require Import ZArith List Lia Bool Permutation.
Import ListNotations.
Local Open Scope Z_scope.

(** ** Machine integers *)

(** Conversion to [unsigned int] / [size_t]: reduction modulo 2^32. *)
Definition uint (x : Z) : Z := x mod 2 ^ 32.

(** Conversion to [int]: two's complement reading of the low 32 bits. *)
Definition sint (x : Z) : Z := (x + 2 ^ 31) mod 2 ^ 32 - 2 ^ 31.

(** ** Constant macros *)

Definition ALIGNMENT : Z := 8.
Definition WSIZE : Z := 4.
Definition DSIZE : Z := 8.
Definition CHUNKSIZE : Z := Z.shiftl 1 12.
Definition MINIMUM_BLK_SIZE : Z := 16.
Definition NULL : Z := 0.

(** [PACK(size, alloc)] is [(size) | (alloc)]. *)
Definition PACK (size alloc : Z) : Z := Z.lor size alloc.

(** [ALIGN(size)] is [((size) + (ALIGNMENT-1)) & ~0x7], on a [size_t]. *)
Definition ALIGN (size : Z) : Z :=
  Z.land (uint (size + (ALIGNMENT - 1))) (Z.lnot 7).

(** [MAX(x, y)] and [MIN(x, y)] are the conditional expressions of the file. *)
Definition MAX (x y : Z) : Z := if y <? x then x else y.
Definition MIN (x y : Z) : Z := if x <? y then x else y.

(** ** Memory *)

(** The arena lives in a byte-addressed memory; a cell holds a byte (only its
    value modulo 256 is ever observed). *)
Definition memory : Type := Z -> Z.

Definition load_byte (m : memory) (a : Z) : Z := m a mod 256.

Definition store_byte (m : memory) (a v : Z) : memory :=
  fun x => if x =? a then v mod 256 else m x.

(** [GET_W(p)]: the little-endian [unsigned int] stored at [p]. *)
Definition GET_W (m : memory) (p : Z) : Z :=
  load_byte m p + 2 ^ 8 * load_byte m (p + 1)
  + 2 ^ 16 * load_byte m (p + 2) + 2 ^ 24 * load_byte m (p + 3).

(** [PUT_W(p, val)]: store the low 32 bits of [val] at [p]. *)
Definition PUT_W (m : memory) (p val : Z) : memory :=
  store_byte
    (store_byte
       (store_byte (store_byte m p val) (p + 1) (val / 2 ^ 8))
       (p + 2) (val / 2 ^ 16))
    (p + 3) (val / 2 ^ 24).

(** The copy [memcpy(dst, src, n)] makes between regions that do not overlap:
    the [n] bytes at [dst] become the bytes that were at [src]. *)
Definition copy_bytes (m : memory) (dst src n : Z) : memory :=
  fun x => if (dst <=? x) && (x <? dst + n) then load_byte m (src + (x - dst)) else m x.

(** ** Block layout macros *)

Definition GET_SIZE (m : memory) (p : Z) : Z := Z.land (GET_W m p) (Z.lnot 7).
Definition GET_ISALLOCATED (m : memory) (p : Z) : Z := Z.land (GET_W m p) 1.

Definition HDRP (bp : Z) : Z := bp - WSIZE.
Definition FTRP (m : memory) (bp : Z) : Z := bp + GET_SIZE m (HDRP bp) - DSIZE.

Definition NEXT_BLKP (m : memory) (bp : Z) : Z := bp + GET_SIZE m (bp - WSIZE).
Definition PREV_BLKP (m : memory) (bp : Z) : Z := bp - GET_SIZE m (bp - DSIZE).

(** Free-list links: two [unsigned int] fields at the start of the payload. *)
Definition GET_PREV_PTR (m : memory) (bp : Z) : Z := GET_W m bp.
Definition GET_NEXT_PTR (m : memory) (bp : Z) : Z := GET_W m (bp + 4).

Definition SET_PREV_PTR (m : memory) (bp addr : Z) : memory := PUT_W m bp (uint addr).
Definition SET_NEXT_PTR (m : memory) (bp addr : Z) : memory := PUT_W m (bp + 4) (uint addr).

(** ** Allocator state *)

Record state : Type := mkState {
  mem : memory;            (* the bytes of the address space *)
  mem_brk : Z;             (* current end of the arena *)
  mem_max_addr : Z;        (* the arena may not grow past this address *)
  heap_listp : Z;          (* static char *heap_listp *)
  free_list_tail : Z       (* static void *free_list_tail *)
}.

Definition with_mem (st : state) (m : memory) : state :=
  mkState m (mem_brk st) (mem_max_addr st) (heap_listp st) (free_list_tail st).
Definition with_brk (st : state) (b : Z) : state :=
  mkState (mem st) b (mem_max_addr st) (heap_listp st) (free_list_tail st).
Definition with_heap_listp (st : state) (p : Z) : state :=
  mkState (mem st) (mem_brk st) (mem_max_addr st) p (free_list_tail st).
Definition with_tail (st : state) (t : Z) : state :=
  mkState (mem st) (mem_brk st) (mem_max_addr st) (heap_listp st) t.

(** One [PUT_W] statement. *)
Definition put (p val : Z) (st : state) : state := with_mem st (PUT_W (mem st) p val).
Definition set_prev (bp addr : Z) (st : state) : state :=
  with_mem st (SET_PREV_PTR (mem st) bp addr).
Definition set_next (bp addr : Z) (st : state) : state :=
  with_mem st (SET_NEXT_PTR (mem st) bp addr).

(** Modelled from the spec: the arena-growth primitive [mem_sbrk] of memlib,
    which is not part of the sources.  It extends the managed region by [incr]
    bytes and returns the old end address, or reports exhaustion ([None], the
    error sentinel) and leaves the arena as it was. *)
Definition mem_sbrk (incr : Z) (st : state) : option Z * state :=
  if (incr <? 0) || (mem_max_addr st <? mem_brk st + incr) then (None, st)
  else (Some (mem_brk st), with_brk st (mem_brk st + incr)).

(** The region of [n] bytes at [p] lies in the arena the allocator manages:
    from the padding word that [mm_init] puts in front of the prologue up to
    the arena end. *)
Definition in_arena (st : state) (p n : Z) : bool :=
  (heap_listp st - DSIZE <=? p) && (p + n <=? mem_brk st).

(** [memcpy(dst, src, n)] of the C library.  C defines the call only when
    neither pointer is null, both regions of [n] bytes are memory of the
    program -- here: bytes of the arena -- and the two regions do not overlap.
    Any other call has no defined result ([None]): the program may fault. *)
Definition memcpy (dst src n : Z) (st : state) : option state :=
  if negb (dst =? NULL) && negb (src =? NULL)
     && in_arena st dst n && in_arena st src n
     && ((dst + n <=? src) || (src + n <=? dst))
  then Some (with_mem st (copy_bytes (mem st) dst src n))
  else None.

(** Sequencing of computations that may have no result ([None]): a loop ran
    out of fuel, or a call was made that C leaves undefined. *)
Definition bind {A B : Type} (c : option A) (k : A -> option B) : option B :=
  match c with Some a => k a | None => None end.

Notation "x <- e ;; k" := (bind e (fun x => k))
  (at level 61, e at next level, right associativity).
Notation "' pat <- e ;; k" := (bind e (fun x => let 'pat := x in k))
  (at level 61, pat pattern, e at next level, right associativity).

(** ** The free-list index *)

(** [remove_node(bp)]. *)
Definition remove_node (bp : Z) (st : state) : state :=
  if negb (GET_PREV_PTR (mem st) bp =? 0) then
    if negb (GET_NEXT_PTR (mem st) bp =? 0) then
      let st := set_next (GET_PREV_PTR (mem st) bp) (GET_NEXT_PTR (mem st) bp) st in
      set_prev (GET_NEXT_PTR (mem st) bp) (GET_PREV_PTR (mem st) bp) st
    else
      let st := set_next (GET_PREV_PTR (mem st) bp) NULL st in
      with_tail st (GET_PREV_PTR (mem st) bp)
  else
    if negb (GET_NEXT_PTR (mem st) bp =? 0) then
      set_prev (GET_NEXT_PTR (mem st) bp) NULL st
    else
      with_tail st NULL.

(** The [while] loop of [insert_node]: returns the final [(prev, next)], or
    [None] when [fuel] iterations did not end the walk. *)
Fixpoint insert_walk (fuel : nat) (m : memory) (blk_size prev next : Z)
  : option (Z * Z) :=
  match fuel with
  | O => None
  | S fuel' =>
      if negb (prev =? 0) && (GET_SIZE m (HDRP prev) <? blk_size)
      then insert_walk fuel' m blk_size (GET_PREV_PTR m prev) prev
      else Some (prev, next)
  end.

(** [insert_node(bp, blk_size)]. *)
Definition insert_node (fuel : nat) (bp blk_size : Z) (st : state) : option state :=
  '(prev, next) <- insert_walk fuel (mem st) blk_size (free_list_tail st) NULL ;;
  Some
    (if negb (prev =? 0) then
       if negb (next =? 0) then
         let st := set_next bp next st in
         let st := set_prev bp prev st in
         let st := set_next prev bp st in
         set_prev next bp st
       else
         let st := set_next bp NULL st in
         let st := set_prev bp prev st in
         let st := set_next prev bp st in
         with_tail st bp
     else
       if negb (next =? 0) then
         let st := set_prev bp NULL st in
         let st := set_next bp next st in
         set_prev next bp st
       else
         let st := with_tail st bp in
         let st := set_next bp NULL st in
         set_prev bp NULL st).

(** ** Helper functions *)

(** The first [if] of [coalesce]: the next block joins [bp] when it is free.
    Returns the new [size_after_coalesce]. *)
Definition coalesce_next (bp next_blkp size_after_coalesce is_next_allocated : Z)
  (st : state) : Z * state :=
  if is_next_allocated =? 0 then
    let size_after_coalesce :=
      uint (size_after_coalesce + GET_SIZE (mem st) (HDRP next_blkp)) in
    let st := remove_node next_blkp st in
    let st := put (HDRP bp) (PACK size_after_coalesce 0) st in
    let st := put (FTRP (mem st) bp) (PACK size_after_coalesce 0) st in
    (size_after_coalesce, st)
  else (size_after_coalesce, st).

(** The second [if] of [coalesce]: [bp] joins the previous block when that
    one is free.  Returns the new [bp]. *)
Definition coalesce_prev (bp prev_blkp size_after_coalesce is_prev_allocated : Z)
  (st : state) : Z * state :=
  if is_prev_allocated =? 0 then
    let size_after_coalesce :=
      uint (size_after_coalesce + GET_SIZE (mem st) (HDRP prev_blkp)) in
    let st := remove_node prev_blkp st in
    let st := put (HDRP prev_blkp) (PACK size_after_coalesce 0) st in
    let st := put (FTRP (mem st) bp) (PACK size_after_coalesce 0) st in
    (prev_blkp, st)
  else (bp, st).

(** [coalesce(bp)]. *)
Definition coalesce (fuel : nat) (bp : Z) (st : state) : option (Z * state) :=
  let next_blkp := NEXT_BLKP (mem st) bp in
  let prev_blkp := PREV_BLKP (mem st) bp in
  let size := GET_SIZE (mem st) (HDRP bp) in
  let size_after_coalesce := size in
  let is_next_allocated := GET_ISALLOCATED (mem st) (HDRP next_blkp) in
  let is_prev_allocated := GET_ISALLOCATED (mem st) (HDRP prev_blkp) in
  let '(size_after_coalesce, st) :=
    coalesce_next bp next_blkp size_after_coalesce is_next_allocated st in
  let '(bp, st) :=
    coalesce_prev bp prev_blkp size_after_coalesce is_prev_allocated st in
  st <- insert_node fuel bp (GET_SIZE (mem st) (HDRP bp)) st ;;
  Some (bp, st).

(** [extend_heap(words)]; the result is [NULL] when the arena cannot grow. *)
Definition extend_heap (fuel : nat) (words : Z) (st : state) : option (Z * state) :=
  let aligned_words := sint (if words mod 2 =? 0 then words else uint (words + 1)) in
  let extend_size := uint (aligned_words * WSIZE) in
  match mem_sbrk extend_size st with
  | (None, st) => Some (NULL, st)
  | (Some bp, st) =>
      let st := put (HDRP bp) (PACK extend_size 0) st in
      let st := put (FTRP (mem st) bp) (PACK extend_size 0) st in
      let st := put (FTRP (mem st) bp + WSIZE) (PACK 0 1) st in
      coalesce fuel bp st
  end.

(** [allocate(bp, blk_size)]. *)
Definition allocate (fuel : nat) (bp blk_size : Z) (st : state) : option (Z * state) :=
  let st := remove_node bp st in
  let curr_blk_size := GET_SIZE (mem st) (HDRP bp) in
  if MINIMUM_BLK_SIZE <=? uint (curr_blk_size - blk_size) then
    let st := put (HDRP bp) (PACK blk_size 1) st in
    let st := put (FTRP (mem st) bp) (PACK blk_size 1) st in
    let next_blkp := NEXT_BLKP (mem st) bp in
    let st := put (HDRP next_blkp) (PACK (uint (curr_blk_size - blk_size)) 0) st in
    let st := put (FTRP (mem st) next_blkp) (PACK (uint (curr_blk_size - blk_size)) 0) st in
    st <- insert_node fuel next_blkp (uint (curr_blk_size - blk_size)) st ;;
    Some (bp, st)
  else
    let st := put (HDRP bp) (PACK curr_blk_size 1) st in
    let st := put (FTRP (mem st) bp) (PACK curr_blk_size 1) st in
    Some (bp, st).

(** The [while] loop of [find_fitting_blk]. *)
Fixpoint find_walk (fuel : nat) (m : memory) (blk_size bp : Z) : option Z :=
  match fuel with
  | O => None
  | S fuel' =>
      if negb (bp =? 0) && (GET_SIZE m (HDRP bp) <? blk_size)
      then find_walk fuel' m blk_size (GET_PREV_PTR m bp)
      else Some bp
  end.

(** [find_fitting_blk(blk_size)]. *)
Definition find_fitting_blk (fuel : nat) (blk_size : Z) (st : state)
  : option (Z * state) :=
  bp <- find_walk fuel (mem st) blk_size (free_list_tail st) ;;
  if bp =? 0 then
    let extend_size := sint (MAX blk_size CHUNKSIZE) in
    extend_heap fuel (uint (Z.quot extend_size WSIZE)) st
  else Some (bp, st).

(** ** The allocator interface *)

(** [mm_init()]: 0 on success, -1 on failure. *)
Definition mm_init (fuel : nat) (st : state) : option (Z * state) :=
  match mem_sbrk (4 * WSIZE) st with
  | (None, st) => Some (-1, with_heap_listp st (-1))
  | (Some p, st) =>
      let st := with_heap_listp st p in
      let st := put (heap_listp st) 0 st in
      let st := put (heap_listp st + WSIZE) (PACK DSIZE 1) st in
      let st := put (heap_listp st + 2 * WSIZE) (PACK DSIZE 1) st in
      let st := put (heap_listp st + 3 * WSIZE) (PACK 0 1) st in
      let st := with_heap_listp st (heap_listp st + DSIZE) in
      let st := with_tail st NULL in
      '(bp, st) <- extend_heap fuel (CHUNKSIZE / WSIZE) st ;;
      if bp =? 0 then Some (-1, st) else Some (0, st)
  end.

(** The [int adjusted_size] of [mm_malloc]. *)
Definition adjusted_size (size : Z) : Z := sint (ALIGN (uint (size + DSIZE))).

(** [mm_malloc(size)]; the result is [NULL] on failure. *)
Definition mm_malloc (fuel : nat) (size : Z) (st : state) : option (Z * state) :=
  if size =? 0 then Some (NULL, st)
  else
    let adjusted_size := adjusted_size size in
    '(bp, st) <- find_fitting_blk fuel (uint adjusted_size) st ;;
    if bp =? 0 then Some (NULL, st)
    else allocate fuel bp (uint adjusted_size) st.

(** [mm_free(ptr)]. *)
Definition mm_free (fuel : nat) (ptr : Z) (st : state) : option state :=
  let hdrp := HDRP ptr in
  let ftrp := FTRP (mem st) ptr in
  let curr_block_size := GET_SIZE (mem st) hdrp in
  let st := put hdrp (PACK curr_block_size 0) st in
  let st := put ftrp (PACK curr_block_size 0) st in
  '(_, st) <- coalesce fuel ptr st ;;
  Some st.

(** The [new_blk_size] of [mm_realloc]. *)
Definition new_blk_size (size : Z) : Z :=
  if size <=? DSIZE then 2 * DSIZE else ALIGN (uint (size + DSIZE)).

(** [mm_realloc(ptr, size)].  [extend_size0] is the indeterminate value the
    local [extend_size] holds before it is assigned. *)
Definition mm_realloc (fuel : nat) (extend_size0 : Z) (ptr size : Z) (st : state)
  : option (Z * state) :=
  let newptr := ptr in
  if size =? 0 then Some (NULL, st)
  else
    let new_blk_size := new_blk_size size in
    if GET_SIZE (mem st) (HDRP ptr) <? new_blk_size then
      let remaining_size :=
        sint (GET_SIZE (mem st) (HDRP ptr)
              + GET_SIZE (mem st) (HDRP (NEXT_BLKP (mem st) ptr)) - new_blk_size) in
      if GET_ISALLOCATED (mem st) (HDRP (NEXT_BLKP (mem st) ptr)) =? 0 then
        if 0 <=? remaining_size then
          let st := remove_node (NEXT_BLKP (mem st) ptr) st in
          let st := put (HDRP ptr) (PACK (uint (new_blk_size + remaining_size)) 1) st in
          let st := put (FTRP (mem st) ptr) (PACK (uint (new_blk_size + remaining_size)) 1) st in
          Some (newptr, st)
        else Some (newptr, st)
      else if GET_SIZE (mem st) (HDRP ptr) =? 0 then
        let grow :=
          if remaining_size <? 0 then
            let extend_size := uint (MAX (sint (- remaining_size)) CHUNKSIZE) in
            '(r, st) <- extend_heap fuel (extend_size / WSIZE) st ;;
            Some (r, extend_size, st)
          else Some (1, extend_size0, st) in
        '(r, extend_size, st) <- grow ;;
        if r =? 0 then Some (NULL, st)
        else
          let remaining_size := sint (remaining_size + extend_size) in
          let st := put (HDRP ptr) (PACK (uint (new_blk_size + remaining_size)) 1) st in
          let st := put (FTRP (mem st) ptr) (PACK (uint (new_blk_size + remaining_size)) 1) st in
          Some (newptr, st)
      else
        '(newptr, st) <- mm_malloc fuel (uint (new_blk_size - DSIZE)) st ;;
        st <- memcpy newptr ptr (MIN size new_blk_size) st ;;
        st <- mm_free fuel ptr st ;;
        Some (newptr, st)
    else Some (newptr, st).

(** ** A concrete arena for the scenarios *)

(** A 4 KiB-aligned arena of [limit] bytes at address [65536], zero filled. *)
Definition arena0 (limit : Z) : state :=
  mkState (fun _ => 0) 65536 (65536 + limit) 0 0.

(** ** Scenarios on the concrete arena *)

(** The adjusted size as the specification words it: the request plus the
    header and footer overhead, rounded up to the alignment unit. *)
Definition round_up (x unit : Z) : Z := unit * ((x + unit - 1) / unit).

(** init; A = acquire(100); B = acquire(50); release(A); C = acquire(90).
    Returns A, B, C and the arena end before and after the last acquire. *)
Definition scenario_reuse (limit : Z) : option (Z * Z * Z * Z * Z) :=
  '(_, st) <- mm_init 8 (arena0 limit) ;;
  '(a, st) <- mm_malloc 8 100 st ;;
  '(b, st) <- mm_malloc 8 50 st ;;
  st <- mm_free 8 a st ;;
  '(c, st') <- mm_malloc 8 90 st ;;
  Some (a, b, c, mem_brk st, mem_brk st').

(** init; A = acquire(100): the state in which A is live. *)
Definition scenario_live : option (Z * state) :=
  '(_, st) <- mm_init 8 (arena0 8192) ;;
  mm_malloc 8 100 st.

(** init; A = acquire(8): A is followed by the free remainder of the first
    chunk, which ends at the arena end. *)
Definition scenario_tail_free : option (Z * state) :=
  '(_, st) <- mm_init 8 (arena0 8192) ;;
  mm_malloc 8 8 st.

(** init; A = acquire(8); B = acquire(nb): A is followed by the live block B.
    [limit] bounds the arena. *)
Definition scenario_two_live (limit nb : Z) : option (Z * Z * state) :=
  '(_, st) <- mm_init 8 (arena0 limit) ;;
  '(a, st) <- mm_malloc 8 8 st ;;
  '(b, st) <- mm_malloc 8 nb st ;;
  Some (a, b, st).

(** With A live: what [mm_realloc(A, 0)] and [mm_free(A)] each leave behind.
    Returns A, then the result, A's allocated bit and the free-list tail after
    [mm_realloc(A, 0)], then A's allocated bit and the tail after [mm_free(A)]. *)
Definition realloc_zero_vs_free : option (Z * (Z * Z * Z) * (Z * Z)) :=
  '(a, st) <- scenario_live ;;
  '(r, st1) <- mm_realloc 8 0 a 0 st ;;
  st2 <- mm_free 8 a st ;;
  Some (a, (r, GET_ISALLOCATED (mem st1) (HDRP a), free_list_tail st1),
        (GET_ISALLOCATED (mem st2) (HDRP a), free_list_tail st2)).

(** With A live and followed by a free block that ends the arena:
    [mm_realloc(A, 5000)].  Returns A, the result, the block size the request
    needs, A's block size before and after, the allocated bit of the block
    after A, and the arena end before and after. *)
Definition realloc_next_free_too_small : option (Z * Z * Z * (Z * Z) * Z * (Z * Z)) :=
  '(a, st) <- scenario_tail_free ;;
  '(r, st') <- mm_realloc 8 0 a 5000 st ;;
  Some (a, r, new_blk_size 5000,
        (GET_SIZE (mem st) (HDRP a), GET_SIZE (mem st') (HDRP a)),
        GET_ISALLOCATED (mem st) (HDRP (NEXT_BLKP (mem st) a)),
        (mem_brk st, mem_brk st')).

(** The bytes at offsets [0 .. n-1] of [p] in [m'] are those of [q] in [m]. *)
Definition same_bytes (m' : memory) (p : Z) (m : memory) (q : Z) (n : nat) : bool :=
  forallb (fun i => load_byte m' (p + Z.of_nat i) =? load_byte m (q + Z.of_nat i)) (seq 0 n).

(** With A (payload of 8 bytes) followed by the live block B = acquire(200):
    [mm_realloc(A, 100)] moves the block past B.  Returns A, the new pointer, A's old
    payload size, the number of bytes the code passes to [memcpy], whether the
    first 100 bytes at the new pointer are the 100 bytes that were at A, and
    the byte at offset 8 of the new payload before and after the call next to
    the byte that was at offset 8 of A (the low byte of A's footer). *)
Definition realloc_moves : option (Z * Z * Z * Z * bool * (Z * Z * Z)) :=
  '(a, _, st) <- scenario_two_live 8192 200 ;;
  '(r, st') <- mm_realloc 8 0 a 100 st ;;
  Some (a, r, GET_SIZE (mem st) (HDRP a) - DSIZE, MIN 100 (new_blk_size 100),
        same_bytes (mem st') r (mem st) a 100,
        (load_byte (mem st) (r + 8), load_byte (mem st') (r + 8), load_byte (mem st) (a + 8))).

(** init; A = acquire(8); B = acquire(8) in an arena that cannot grow past
    its first 4112 bytes: A = 65552 and B = 65568 are live, and the one free
    block, 65584, has 4064 bytes. *)
Definition state_full : state :=
  match scenario_two_live 4112 8 with
  | Some (_, _, st) => st
  | None => arena0 4112
  end.

(** init; A = acquire(8); acquire(4294967288).  Returns A, the second result,
    A's header and footer words before and after the second acquire, and the
    free-list tail after it. *)
Definition acquire_wraps : option (Z * Z * (Z * Z) * (Z * Z) * Z) :=
  '(a, st) <- scenario_tail_free ;;
  '(b, st') <- mm_malloc 8 4294967288 st ;;
  Some (a, b,
        (GET_W (mem st) (HDRP a), GET_W (mem st) (FTRP (mem st) a)),
        (GET_W (mem st') (HDRP a), GET_W (mem st') (FTRP (mem st') a)),
        free_list_tail st').

(** The state a call leaves, [dflt] when it ran out of fuel. *)
Definition state_of {A : Type} (r : option (A * state)) (dflt : state) : state :=
  match r with
  | Some (_, st) => st
  | None => dflt
  end.

(** The states of the run init; acquire(8); acquire(4294967288). *)
Definition state_init : state := state_of (mm_init 8 (arena0 8192)) (arena0 8192).
Definition state_one_live : state := state_of (mm_malloc 8 8 state_init) state_init.
Definition state_wrapped : state :=
  state_of (mm_malloc 8 4294967288 state_one_live) state_one_live.

(** The state after init; A = acquire(100); B = acquire(50); release(A): the
    free list holds A = 65552 (112 bytes) and the block 65728 after B (3920
    bytes). *)
Definition state_two_live : state :=
  state_of (mm_malloc 8 50 (state_of (mm_malloc 8 100 state_init) state_init)) state_init.
Definition state_two_free : state :=
  match mm_free 8 65552 state_two_live with
  | Some st => st
  | None => state_two_live
  end.

(** The states of the run init; A = acquire(8); init; release(A) in an arena
    with room for two heaps: A is released after the heap was started
    afresh. *)
Definition state_first : state := state_of (mm_init 8 (arena0 16384)) (arena0 16384).
Definition state_first_live : state := state_of (mm_malloc 8 8 state_first) state_first.
Definition state_again : state := state_of (mm_init 8 state_first_live) state_first_live.
Definition state_stale : state :=
  match mm_free 8 65552 state_again with
  | Some st => st
  | None => state_again
  end.

(** The states of the run init; init in an arena of 4112 bytes, which the
    first heap fills: the second [mm_init] fails. *)
Definition state_filled : state := state_of (mm_init 8 (arena0 4112)) (arena0 4112).
Definition state_lost : state := state_of (mm_init 8 state_filled) state_filled.

(** * Abstract views of the heap *)

(** ** Reading the free list *)

(** The size a block's header records. *)
Definition blk_size (m : memory) (bp : Z) : Z := GET_SIZE m (HDRP bp).

(** [dll m nxt p L]: walking the backward links from [p] visits exactly the
    blocks of [L], in order, and ends at [NULL]; the forward link of each
    block is the block visited before it ([nxt] for the first). *)
Fixpoint dll (m : memory) (nxt p : Z) (L : list Z) : Prop :=
  match L with
  | [] => p = NULL
  | b :: L' =>
      p = b /\ b <> NULL /\ GET_NEXT_PTR m b = nxt /\ dll m b (GET_PREV_PTR m b) L'
  end.

(** The free-list index of a state: the walk from [free_list_tail]. *)
Definition free_list (st : state) (L : list Z) : Prop :=
  dll (mem st) NULL (free_list_tail st) L.

(** A block whose header marks it free. *)
Definition marked_free (m : memory) (b : Z) : Prop := GET_ISALLOCATED m (HDRP b) = 0.

(** Sizes never decrease along the walk. *)
Fixpoint ascending (m : memory) (L : list Z) : Prop :=
  match L with
  | [] => True
  | b :: L' => (forall b', In b' L' -> blk_size m b <= blk_size m b') /\ ascending m L'
  end.

(** Blocks are at least a minimum block apart. *)
Fixpoint apart (L : list Z) : Prop :=
  match L with
  | [] => True
  | b :: L' =>
      (forall b', In b' L' -> b + MINIMUM_BLK_SIZE <= b' \/ b' + MINIMUM_BLK_SIZE <= b)
      /\ apart L'
  end.

(** Addresses a link field can hold, [NULL] excluded. *)
Definition addr32 (b : Z) : Prop := 0 < b < 2 ^ 32.

(** Where [insert_node]'s walk stops: the pair [(prev, next)]. *)
Fixpoint walk_result (m : memory) (blk_sz nxt : Z) (L : list Z) : Z * Z :=
  match L with
  | [] => (NULL, nxt)
  | b :: L' => if blk_size m b <? blk_sz then walk_result m blk_sz b L' else (b, nxt)
  end.

(** The list with [bp] put before the first block that is not smaller. *)
Fixpoint insert_sorted (m : memory) (bp blk_sz : Z) (L : list Z) : list Z :=
  match L with
  | [] => [bp]
  | b :: L' => if blk_size m b <? blk_sz then b :: insert_sorted m bp blk_sz L' else bp :: L
  end.

(** The first block of the walk that is large enough, [NULL] when none is. *)
Fixpoint first_fit (m : memory) (blk_sz : Z) (L : list Z) : Z :=
  match L with
  | [] => NULL
  | b :: L' => if blk_size m b <? blk_sz then first_fit m blk_sz L' else b
  end.

(** ** The heap as a sequence of blocks *)

(** A block of the heap: its size and whether it is allocated.  The blocks
    of a heap are listed in address order. *)
Definition block : Type := (Z * bool)%type.

Fixpoint total (bs : list block) : Z :=
  match bs with
  | [] => 0
  | (s, _) :: bs' => s + total bs'
  end.

(** The boundary tag of a block: [PACK(s, a)] for a size that is a multiple
    of 8. *)
Definition tag (s : Z) (a : bool) : Z := s + Z.b2z a.

(** [layout m p bs]: the blocks [bs] lie one after the other from the block
    pointer [p] on, each with its header and footer. *)
Fixpoint layout (m : memory) (p : Z) (bs : list block) : Prop :=
  match bs with
  | [] => True
  | (s, a) :: bs' =>
      (MINIMUM_BLK_SIZE <= s /\ s mod ALIGNMENT = 0) /\
      GET_W m (HDRP p) = tag s a /\
      GET_W m (p + s - DSIZE) = tag s a /\
      layout m (p + s) bs'
  end.

(** The block pointers of the blocks selected by [keep]. *)
Fixpoint addrs (keep : bool -> bool) (p : Z) (bs : list block) : list Z :=
  match bs with
  | [] => []
  | (s, a) :: bs' => (if keep a then [p] else []) ++ addrs keep (p + s) bs'
  end.

Definition free_addrs : Z -> list block -> list Z := addrs negb.
Definition alloc_addrs : Z -> list block -> list Z := addrs (fun a => a).
Definition all_addrs : Z -> list block -> list Z := addrs (fun _ => true).

(** The first block, if any, is allocated; the last block, if any, is. *)
Definition starts_alloc (bs : list block) : Prop :=
  match bs with
  | (_, false) :: _ => False
  | _ => True
  end.

Fixpoint ends_alloc (bs : list block) : Prop :=
  match bs with
  | [] => True
  | (_, a) :: bs' =>
      match bs' with
      | [] => a = true
      | _ => ends_alloc bs'
      end
  end.

(** No two neighbours are both free. *)
Fixpoint no_adjacent_free (bs : list block) : Prop :=
  match bs with
  | [] => True
  | (_, a) :: bs' => (a = false -> starts_alloc bs') /\ no_adjacent_free bs'
  end.

(** The first block pointer of the heap: just after the prologue. *)
Definition first_blkp (st : state) : Z := heap_listp st + DSIZE.

(** The parts of the representation that every intermediate state keeps:
    the prologue, the epilogue, the arena bounds and the sorted free list. *)
Record heap_frame (st : state) (L : list Z) : Prop := {
  hf_base : DSIZE <= heap_listp st;
  hf_prologue_hdr : GET_W (mem st) (HDRP (heap_listp st)) = PACK DSIZE 1;
  hf_prologue_ftr : GET_W (mem st) (heap_listp st) = PACK DSIZE 1;
  hf_epilogue : GET_W (mem st) (HDRP (mem_brk st)) = PACK 0 1;
  hf_max : mem_brk st <= mem_max_addr st <= 2 ^ 32;
  hf_list : free_list st L;
  hf_asc : ascending (mem st) L
}.

(** [heap_inv st bs L]: the state [st] represents the heap whose blocks are
    [bs] and whose free list, walked from the tail, is [L]. *)
Record heap_inv (st : state) (bs : list block) (L : list Z) : Prop := {
  hi_frame : heap_frame st L;
  hi_layout : layout (mem st) (first_blkp st) bs;
  hi_brk : first_blkp st + total bs = mem_brk st;
  hi_perm : Permutation L (free_addrs (first_blkp st) bs);
  hi_naf : no_adjacent_free bs
}.

(** [hole_rep st pre post L bp S]: as [heap_inv], except that the [S] bytes
    of the block at [bp] are under construction: the blocks [pre] lie before
    it, the blocks [post] after it, and [L] holds the free blocks of both. *)
Record hole_rep (st : state) (pre post : list block) (L : list Z) (bp S : Z) : Prop := {
  hr_frame : heap_frame st L;
  hr_bp : bp = first_blkp st + total pre;
  hr_pre : layout (mem st) (first_blkp st) pre;
  hr_size : MINIMUM_BLK_SIZE <= S /\ S mod ALIGNMENT = 0;
  hr_post : layout (mem st) (bp + S) post;
  hr_brk : bp + S + total post = mem_brk st;
  hr_perm : Permutation L (free_addrs (first_blkp st) pre ++ free_addrs (bp + S) post)
}.

(** The header and footer of the block under construction. *)
Definition hole_tags (m : memory) (bp S : Z) (a : bool) : Prop :=
  GET_W m (HDRP bp) = tag S a /\ GET_W m (bp + S - DSIZE) = tag S a.

(** ** What a heap checker observes *)

(** The walk over the heap: from [bp], block after block, up to the block of
    size 0 (the epilogue). *)
Inductive heap_walk (m : memory) : Z -> list Z -> Prop :=
| heap_walk_end bp :
    GET_SIZE m (HDRP bp) = 0 -> heap_walk m bp []
| heap_walk_step bp l :
    GET_SIZE m (HDRP bp) <> 0 -> heap_walk m (NEXT_BLKP m bp) l ->
    heap_walk m bp (bp :: l).

(** No block of the walk and its successor are both free. *)
Fixpoint no_two_free (m : memory) (l : list Z) : Prop :=
  match l with
  | [] => True
  | b :: l' =>
      match l' with
      | [] => True
      | b' :: _ =>
          ~ (GET_ISALLOCATED m (HDRP b) = 0 /\ GET_ISALLOCATED m (HDRP b') = 0)
      end /\ no_two_free m l'
  end.

(** The three properties at an observation point: the heap walk from the
    prologue and the free-list walk from the tail both end; (a) every block
    has the same word in its header and in its footer; (b) no two physically
    adjacent blocks are both free; (c) the free-list walk visits exactly the
    blocks whose header marks them free. *)
Definition consistent (st : state) : Prop :=
  exists blocks L,
    heap_walk (mem st) (heap_listp st) blocks /\
    free_list st L /\
    (forall b, In b blocks -> GET_W (mem st) (HDRP b) = GET_W (mem st) (FTRP (mem st) b)) /\
    no_two_free (mem st) blocks /\
    (forall b, In b L <-> In b blocks /\ GET_ISALLOCATED (mem st) (HDRP b) = 0).

(** ** Runs of the allocator *)

(** [reachable ok st live]: [st] is reached by a run that starts with a
    successful [mm_init] in an arena below 2^32, and goes on with [mm_malloc]
    calls whose sizes satisfy [ok], with [mm_free] calls on pointers that
    [mm_malloc] returned and that were not freed since, and with further
    successful [mm_init] calls, which start the heap afresh.  [live] lists the
    pointers returned and not yet freed. *)
Inductive reachable (ok : Z -> Prop) : state -> list Z -> Prop :=
| reach_init fuel st0 st :
    0 <= mem_brk st0 -> mem_max_addr st0 <= 2 ^ 32 ->
    mm_init fuel st0 = Some (0, st) ->
    reachable ok st []
| reach_init_again fuel st live st' :
    reachable ok st live ->
    mm_init fuel st = Some (0, st') ->
    reachable ok st' []
| reach_malloc fuel st live size p st' :
    reachable ok st live -> ok size ->
    mm_malloc fuel size st = Some (p, st') ->
    reachable ok st' (if p =? NULL then live else p :: live)
| reach_free fuel st live p st' :
    reachable ok st live -> In p live ->
    mm_free fuel p st = Some st' ->
    reachable ok st' (remove Z.eq_dec p live).

(** Request sizes whose adjusted size fits the [int] it is kept in. *)
Definition int_sized (size : Z) : Prop := 0 <= size /\ size + 15 < 2 ^ 31.

(** Request sizes whose adjusted size does not wrap around in the 32 bits of a
    [size_t]. *)
Definition word_sized (size : Z) : Prop := 0 <= size /\ size + 15 < 2 ^ 32.

(** Any request size a [size_t] can hold. *)
Definition any_size (size : Z) : Prop := 0 <= size < 2 ^ 32.

(** ** The words of the allocated blocks *)

(** [in_alloc p bs q]: the word at [q] lies inside an allocated block of the
    blocks [bs] laid out from [p]: in its header, its payload or its
    footer. *)
Fixpoint in_alloc (p : Z) (bs : list block) (q : Z) : Prop :=
  match bs with
  | [] => False
  | (s, a) :: bs' =>
      (a = true /\ p - WSIZE <= q /\ q + WSIZE <= p + s - WSIZE) \/ in_alloc (p + s) bs' q
  end.

(** The words of the allocated blocks on either side of the block under
    construction. *)
Definition beside (st : state) (pre post : list block) (bp S q : Z) : Prop :=
  in_alloc (first_blkp st) pre q \/ in_alloc (bp + S) post q.

(** ** What coalescing joins *)

(** The tests of [coalesce] on the neighbours of the block at [bp]. *)
Definition next_free (m : memory) (bp : Z) : bool :=
  GET_ISALLOCATED m (HDRP (NEXT_BLKP m bp)) =? 0.
Definition prev_free (m : memory) (bp : Z) : bool :=
  GET_ISALLOCATED m (HDRP (PREV_BLKP m bp)) =? 0.

(** The block pointer [coalesce] returns and the size it writes: the block
    at [bp] together with each neighbour that is free. *)
Definition merged_addr (m : memory) (bp : Z) : Z :=
  if prev_free m bp then PREV_BLKP m bp else bp.
Definition merged_size (m : memory) (bp : Z) : Z :=
  GET_SIZE m (HDRP bp)
  + (if next_free m bp then GET_SIZE m (HDRP (NEXT_BLKP m bp)) else 0)
  + (if prev_free m bp then GET_SIZE m (HDRP (PREV_BLKP m bp)) else 0).

(** ** Fuel *)

(** A computation is monotone in its fuel when more fuel never changes a
    result it has given. *)
Definition mono {A : Type} (f : nat -> option A) : Prop :=
  forall n n' x, f n = Some x -> (n <= n')%nat -> f n' = Some x.

(** * Properties *)

(** ** Machine arithmetic *)

Lemma uint_range x : 0 <= uint x < 2 ^ 32.
Proof. unfold uint. apply Z.mod_pos_bound. lia. Qed.

Lemma uint_small x : 0 <= x < 2 ^ 32 -> uint x = x.
Proof. intros. unfold uint. apply Z.mod_small. lia. Qed.

Lemma sint_small x : - 2 ^ 31 <= x < 2 ^ 31 -> sint x = x.
Proof. intros. unfold sint. rewrite Z.mod_small; lia. Qed.

Lemma land_lnot7 x : Z.land x (Z.lnot 7) = 8 * (x / 8).
Proof.
  change 7 with (Z.ones 3). rewrite <- Z.ldiff_land, Z.ldiff_ones_r by lia.
  rewrite Z.shiftl_mul_pow2, Z.shiftr_div_pow2 by lia. change (2 ^ 3) with 8. lia.
Qed.

Lemma land_1 x : Z.land x 1 = x mod 2.
Proof. change 1 with (Z.ones 1). rewrite Z.land_ones by lia. reflexivity. Qed.

Lemma PACK_add s a : s mod 8 = 0 -> 0 <= a < 8 -> PACK s a = s + a.
Proof.
  intros Hs Ha. unfold PACK.
  assert (H0 : Z.land s a = 0);
    [|rewrite <- Z.lxor_lor, <- Z.add_nocarry_lxor by exact H0; reflexivity].
  apply Z.bits_inj'. intros n Hn. rewrite Z.land_spec, Z.bits_0.
  destruct (Z.ltb_spec n 3).
  - replace s with (8 * (s / 8)) by (pose proof (Z.div_mod s 8); lia).
    change 8 with (2 ^ 3) at 1. rewrite Z.mul_comm, Z.mul_pow2_bits_low by lia. reflexivity.
  - rewrite (Z.bits_above_log2 a n); [apply andb_false_r|lia|].
    destruct (Z.eq_dec a 0) as [->|]; [simpl; lia|].
    assert (Z.log2 a < 3) by (apply Z.log2_lt_pow2; simpl; lia). lia.
Qed.

Lemma size_of_word s a : s mod 8 = 0 -> 0 <= a < 8 -> Z.land (s + a) (Z.lnot 7) = s.
Proof. intros. rewrite land_lnot7. Z.div_mod_to_equations. lia. Qed.

Lemma alloc_of_word s a : s mod 8 = 0 -> 0 <= a < 2 -> Z.land (s + a) 1 = a.
Proof. intros. rewrite land_1. Z.div_mod_to_equations. lia. Qed.

Lemma ALIGN_round_up x : 0 <= x -> x + 7 < 2 ^ 32 -> ALIGN x = round_up x 8.
Proof.
  intros. unfold ALIGN, round_up, ALIGNMENT. rewrite uint_small by lia.
  rewrite land_lnot7. f_equal. f_equal. lia.
Qed.

(** ** Memory *)

Lemma load_store m a v x :
  load_byte (store_byte m a v) x = if x =? a then v mod 256 else load_byte m x.
Proof.
  unfold load_byte, store_byte. destruct (x =? a); [|reflexivity].
  apply Z.mod_mod. lia.
Qed.

Lemma load_byte_range m a : 0 <= load_byte m a < 256.
Proof. unfold load_byte. apply Z.mod_pos_bound. lia. Qed.

Lemma GET_W_range m p : 0 <= GET_W m p < 2 ^ 32.
Proof.
  unfold GET_W.
  pose proof (load_byte_range m p). pose proof (load_byte_range m (p + 1)).
  pose proof (load_byte_range m (p + 2)). pose proof (load_byte_range m (p + 3)).
  lia.
Qed.

Lemma le_bytes v :
  v mod 256 + 2 ^ 8 * ((v / 2 ^ 8) mod 256) + 2 ^ 16 * ((v / 2 ^ 16) mod 256)
  + 2 ^ 24 * ((v / 2 ^ 24) mod 256) = v mod 2 ^ 32.
Proof.
  change (2 ^ 8) with 256. change (2 ^ 16) with 65536. change (2 ^ 24) with 16777216.
  change (2 ^ 32) with 4294967296.
  Z.div_mod_to_equations. lia.
Qed.

Ltac decide_eqb :=
  repeat match goal with |- context [?a =? ?b] =>
    (replace (a =? b) with true by (symmetry; apply Z.eqb_eq; lia)) ||
    (replace (a =? b) with false by (symmetry; apply Z.eqb_neq; lia)) end.

Lemma GET_W_PUT_W_same m p v : GET_W (PUT_W m p v) p = uint v.
Proof.
  unfold GET_W, PUT_W, uint. rewrite !load_store. decide_eqb. apply le_bytes.
Qed.

Lemma GET_W_PUT_W_other m p v q :
  q + 4 <= p \/ p + 4 <= q -> GET_W (PUT_W m p v) q = GET_W m q.
Proof.
  intros H. unfold GET_W, PUT_W. rewrite !load_store. decide_eqb. reflexivity.
Qed.

(** ** Zero-size requests *)

(** C8: [mm_malloc(0)] returns [NULL] -- no pointer, the zero-size request is
    rejected -- and the allocator state, arena included, is the one it was
    called in. *)
Theorem mm_malloc_zero_fails (fuel : nat) (st : state) :
  mm_malloc fuel 0 st = Some (NULL, st).
Proof. reflexivity. Qed.

(** C2, as the code has it: [mm_realloc(ptr, 0)] returns [NULL] and touches
    nothing: the block at [ptr] is not released, the state is unchanged. *)
Theorem mm_realloc_zero_returns_null_unchanged
  (fuel : nat) (extend_size0 ptr : Z) (st : state) :
  mm_realloc fuel extend_size0 ptr 0 st = Some (NULL, st).
Proof. reflexivity. Qed.

(** C2 fails as stated: with A = acquire(100) live, [mm_realloc(A, 0)] leaves
    A marked allocated and the free-list tail where it was, while
    [mm_free(A)] marks A free and makes it the tail of the free list. *)
Lemma mm_realloc_zero_is_not_mm_free :
  realloc_zero_vs_free = Some (65552, (NULL, 1, 65664), (0, 65552)).
Proof. vm_compute. reflexivity. Qed.

(** ** The adjusted block size *)

(** Where the 32-bit arithmetic does not wrap, the adjusted size is the
    rounded-up sum. *)
Lemma adjusted_size_round_up (size : Z) :
  1 <= size -> size + 15 < 2 ^ 31 ->
  adjusted_size size = round_up (size + DSIZE) ALIGNMENT /\
  adjusted_size size mod ALIGNMENT = 0 /\
  MINIMUM_BLK_SIZE <= adjusted_size size.
Proof.
  intros H1 H2. unfold adjusted_size, DSIZE, MINIMUM_BLK_SIZE.
  rewrite (uint_small (size + 8)) by lia.
  rewrite ALIGN_round_up by lia. unfold round_up, ALIGNMENT.
  assert (E : 0 <= 8 * ((size + 8 + 8 - 1) / 8) < 2 ^ 31)
    by (Z.div_mod_to_equations; lia).
  rewrite sint_small by lia.
  split; [reflexivity|]. split; Z.div_mod_to_equations; lia.
Qed.

(** C9, within the range where the 32-bit arithmetic does not wrap: for
    [1 <= size] and [size + 15 < 2^31] the adjusted size is the request plus
    the 8 bytes of header and footer rounded up to a multiple of 8; it is a
    multiple of 8 and at least the minimum block size, with no explicit floor. *)
Theorem adjusted_size_in_range (size : Z) :
  1 <= size -> size + 15 < 2 ^ 31 ->
  adjusted_size size = round_up (size + DSIZE) ALIGNMENT /\
  adjusted_size size mod ALIGNMENT = 0 /\
  MINIMUM_BLK_SIZE <= adjusted_size size.
Proof. exact (adjusted_size_round_up size). Qed.

Lemma adjusted_size_in_range_witness :
  adjusted_size 100 = round_up (100 + DSIZE) ALIGNMENT /\
  adjusted_size 100 mod ALIGNMENT = 0 /\
  MINIMUM_BLK_SIZE <= adjusted_size 100.
Proof. apply (adjusted_size_in_range 100); vm_compute; congruence. Defined.

(** C9 fails as stated: the request 4294967288 (a [size_t] value, at least 1)
    gets the adjusted size 0, which is neither the rounded-up sum nor at
    least 16. *)
Lemma adjusted_size_wraps :
  ~ (forall size, 1 <= size < 2 ^ 32 ->
       adjusted_size size = round_up (size + DSIZE) ALIGNMENT /\
       adjusted_size size mod ALIGNMENT = 0 /\
       MINIMUM_BLK_SIZE <= adjusted_size size).
Proof.
  intros H. destruct (H 4294967288) as (_ & _ & H3); [lia|].
  vm_compute in H3. apply H3. reflexivity.
Qed.

(** ** Link fields *)

(** C10: a link field is an [unsigned int].  Storing the address [a] as the
    backward or the forward link of [bp] and reading the field back gives
    [a mod 2^32]: the address itself when it fits in 32 bits, and a different
    value for every address of 2^32 or more, 2^32 + 16 among them. *)
Theorem link_roundtrip_mod_2_32 (m : memory) (bp a : Z) :
  GET_PREV_PTR (SET_PREV_PTR m bp a) bp = a mod 2 ^ 32 /\
  GET_NEXT_PTR (SET_NEXT_PTR m bp a) bp = a mod 2 ^ 32 /\
  (0 <= a < 2 ^ 32 ->
     GET_PREV_PTR (SET_PREV_PTR m bp a) bp = a /\
     GET_NEXT_PTR (SET_NEXT_PTR m bp a) bp = a) /\
  (2 ^ 32 <= a ->
     GET_PREV_PTR (SET_PREV_PTR m bp a) bp <> a /\
     GET_NEXT_PTR (SET_NEXT_PTR m bp a) bp <> a) /\
  GET_PREV_PTR (SET_PREV_PTR m bp (2 ^ 32 + 16)) bp = 16 /\
  GET_NEXT_PTR (SET_NEXT_PTR m bp (2 ^ 32 + 16)) bp = 16.
Proof.
  unfold GET_PREV_PTR, SET_PREV_PTR, GET_NEXT_PTR, SET_NEXT_PTR.
  rewrite !GET_W_PUT_W_same.
  assert (U : forall x, uint (uint x) = x mod 2 ^ 32)
    by (intros x; unfold uint; apply Z.mod_mod; lia).
  rewrite !U. pose proof (Z.mod_pos_bound a (2 ^ 32) ltac:(lia)).
  repeat split; try reflexivity; try lia; try (apply Z.mod_small; lia).
Qed.

(** ** Resizing *)

(** C1 at its failing input: A is live, the block after A is free and ends
    the arena, and [mm_realloc(A, 5000)] needs a block of 5008 bytes.  The
    call returns A itself; A's block still has 16 bytes and the arena end has
    not moved. *)
Theorem mm_realloc_next_free_too_small_does_nothing :
  realloc_next_free_too_small
  = Some (65552, 65552, 5008, (16, 16), 0, (69648, 69648)).
Proof. vm_compute. reflexivity. Qed.

(** C5 at its failing input: A has a payload of 8 bytes and
    [mm_realloc(A, 100)] moves it.  The code copies [MIN(size, new_blk_size)],
    that is 100 bytes, not [min(8, 100)]: offset 8 of the new payload, zero
    before the call, holds the low byte of A's footer after it. *)
Theorem mm_realloc_copies_requested_size :
  realloc_moves = Some (65552, 65776, 8, 100, true, (0, 17, 17)).
Proof. vm_compute. reflexivity. Qed.

(** C6 at its failing input: A = 65552 and B are live in an arena that cannot
    grow, and [mm_realloc(A, 4072)] needs a block of 4080 bytes.  A's block
    has 16 bytes and the block after it is allocated, so the call takes the
    fallback path.  The [mm_malloc] there fails -- it returns [NULL] and leaves
    the state as it was -- and the code goes on to [memcpy(NULL, A, 4072)]
    without a test: a copy to the null pointer, for which C defines no
    behaviour.  [mm_realloc] has no result, whatever the fuel: it does not
    return a failure value. *)
Theorem mm_realloc_failure_copies_to_null :
  GET_SIZE (mem state_full) (HDRP 65552) = 16 /\
  new_blk_size 4072 = 4080 /\
  GET_ISALLOCATED (mem state_full) (HDRP (NEXT_BLKP (mem state_full) 65552)) = 1 /\
  (forall fuel, (2 <= fuel)%nat ->
     mm_malloc fuel (uint (new_blk_size 4072 - DSIZE)) state_full
     = Some (NULL, state_full)) /\
  in_arena state_full 65552 (MIN 4072 (new_blk_size 4072)) = true /\
  memcpy NULL 65552 (MIN 4072 (new_blk_size 4072)) state_full = None /\
  (forall fuel extend_size0, mm_realloc fuel extend_size0 65552 4072 state_full = None).
Proof.
  split; [vm_compute; reflexivity|]. split; [vm_compute; reflexivity|].
  split; [vm_compute; reflexivity|]. split.
  - intros [|[|fuel]] Hf; [lia|lia|]. vm_compute. reflexivity.
  - split; [vm_compute; reflexivity|]. split; [vm_compute; reflexivity|].
    intros [|[|fuel]] e; vm_compute; reflexivity.
Qed.

(** ** The doubly linked free list *)

Lemma GET_W_PUT_W_eq m p v q : q = p -> GET_W (PUT_W m p v) q = uint v.
Proof. intros ->. apply GET_W_PUT_W_same. Qed.

Ltac mem_rw :=
  repeat first [ rewrite GET_W_PUT_W_eq by lia | rewrite GET_W_PUT_W_other by lia ].

(** *** Walks *)

Lemma dll_frame m m' L : forall nxt p,
  (forall b, In b L ->
     GET_PREV_PTR m' b = GET_PREV_PTR m b /\ GET_NEXT_PTR m' b = GET_NEXT_PTR m b) ->
  dll m nxt p L -> dll m' nxt p L.
Proof.
  induction L as [|b L IH]; simpl; intros nxt p F H; [exact H|].
  destruct H as (-> & Hb & Hn & Hr).
  destruct (F b (or_introl eq_refl)) as [Fp Fn].
  repeat split; try assumption; [congruence|].
  rewrite Fp. apply IH; [|exact Hr]. intros b' Hb'. apply F. right. exact Hb'.
Qed.

Lemma dll_nonnull m L : forall nxt p, dll m nxt p L -> forall b, In b L -> b <> NULL.
Proof.
  induction L as [|b L IH]; simpl; intros nxt p H b' Hb'; [contradiction|].
  destruct H as (-> & Hb & Hn & Hr). destruct Hb' as [<-|Hb']; [exact Hb|].
  eapply IH; eassumption.
Qed.

Lemma dll_head m L nxt p : dll m nxt p L -> p = hd NULL L.
Proof. destruct L; simpl; intros H; [exact H|apply H]. Qed.

Lemma insert_walk_spec m s L : forall fuel p nxt,
  dll m nxt p L -> (length L < fuel)%nat ->
  insert_walk fuel m s p nxt = Some (walk_result m s nxt L).
Proof.
  induction L as [|b L IH]; simpl; intros fuel p nxt H Hf.
  - destruct fuel as [|fuel]; [lia|]. subst p. reflexivity.
  - destruct fuel as [|fuel]; [lia|]. destruct H as (-> & Hb & Hn & Hr).
    simpl. replace (b =? 0) with false by (symmetry; apply Z.eqb_neq; exact Hb).
    simpl. unfold blk_size. destruct (GET_SIZE m (HDRP b) <? s); [|reflexivity].
    apply IH; [exact Hr|lia].
Qed.

Lemma find_walk_spec m s L : forall fuel p nxt,
  dll m nxt p L -> (length L < fuel)%nat ->
  find_walk fuel m s p = Some (first_fit m s L).
Proof.
  induction L as [|b L IH]; simpl; intros fuel p nxt H Hf.
  - destruct fuel as [|fuel]; [lia|]. subst p. reflexivity.
  - destruct fuel as [|fuel]; [lia|]. destruct H as (-> & Hb & Hn & Hr).
    simpl. replace (b =? 0) with false by (symmetry; apply Z.eqb_neq; exact Hb).
    simpl. unfold blk_size. destruct (GET_SIZE m (HDRP b) <? s); [|reflexivity].
    eapply IH; [exact Hr|lia].
Qed.

(** *** Where the walk of [insert_node] stops *)

Lemma walk_result_cases m s L : forall nxt,
  (fst (walk_result m s nxt L) = NULL \/ In (fst (walk_result m s nxt L)) L) /\
  (snd (walk_result m s nxt L) = nxt \/ In (snd (walk_result m s nxt L)) L).
Proof.
  induction L as [|b L IH]; simpl; intros nxt; [auto|].
  destruct (blk_size m b <? s); simpl; [|auto].
  destruct (IH b) as [[H1|H1] [H2|H2]]; auto.
Qed.

(** *** Splicing a block into the walk *)

Section Splice.
Variables (m m' : memory) (bp s : Z).

Lemma splice_dll L : forall nxt p,
  dll m nxt p L -> NoDup L -> ~ In nxt L -> bp <> NULL ->
  let prev := fst (walk_result m s nxt L) in
  let next := snd (walk_result m s nxt L) in
  GET_NEXT_PTR m' bp = next -> GET_PREV_PTR m' bp = prev ->
  (prev <> NULL -> GET_NEXT_PTR m' prev = bp) ->
  (forall b, In b L ->
     (b <> prev -> GET_NEXT_PTR m' b = GET_NEXT_PTR m b) /\
     (GET_PREV_PTR m' b = if next =? b then bp else GET_PREV_PTR m b)) ->
  dll m' nxt (if next =? nxt then bp else p) (insert_sorted m bp s L).
Proof.
  induction L as [|b L IH]; simpl; intros nxt p H ND Hnxt Hbp Hn Hp Hpn F.
  - rewrite Z.eqb_refl. repeat split; assumption.
  - destruct H as (-> & Hb & Hbn & Hr).
    apply NoDup_cons_iff in ND. destruct ND as [Hnb ND].
    destruct (blk_size m b <? s) eqn:E; simpl in *.
    + destruct (walk_result_cases m s L b) as [C1 C2].
      set (prev := fst (walk_result m s b L)) in *.
      set (next := snd (walk_result m s b L)) in *.
      assert (N1 : next <> nxt) by (destruct C2 as [->|C2]; [tauto|intros ->; tauto]).
      assert (N2 : b <> prev).
      { destruct C1 as [C1|C1]; [congruence|]. intros <-. tauto. }
      replace (next =? nxt) with false by (symmetry; apply Z.eqb_neq; exact N1).
      destruct (F b (or_introl eq_refl)) as [F1 F2].
      repeat split; try assumption; [rewrite F1 by exact N2; exact Hbn|].
      rewrite F2. apply (IH b (GET_PREV_PTR m b)); try assumption. intros b' Hb'. apply F. right. exact Hb'.
    + rewrite Z.eqb_refl. repeat split; try assumption; [apply Hpn; exact Hb|].
      destruct (F b (or_introl eq_refl)) as [F1 F2]. rewrite F2.
      replace (nxt =? b) with false by (symmetry; apply Z.eqb_neq; intros ->; tauto).
      apply (dll_frame m); [|exact Hr].
      intros b' Hb'. destruct (F b' (or_intror Hb')) as [G1 G2].
      assert (b' <> b) by (intros ->; tauto).
      assert (b' <> nxt) by (intros ->; tauto).
      rewrite G2, G1 by assumption.
      replace (nxt =? b') with false by (symmetry; apply Z.eqb_neq; congruence).
      split; reflexivity.
Qed.
End Splice.

Lemma dll_links_in m L : forall nxt p b,
  dll m nxt p L -> In b L ->
  (GET_NEXT_PTR m b = nxt \/ In (GET_NEXT_PTR m b) L) /\
  (GET_PREV_PTR m b = NULL \/ In (GET_PREV_PTR m b) L).
Proof.
  induction L as [|c L IH]; simpl; intros nxt p b H Hb; [contradiction|].
  destruct H as (-> & Hc & Hn & Hr). destruct Hb as [<-|Hb].
  - split; [left; exact Hn|].
    apply dll_head in Hr. destruct L as [|d L]; simpl in Hr; [left; exact Hr|].
    right. right. left. symmetry. exact Hr.
  - destruct (IH _ _ _ Hr Hb) as [[H1|H1] [H2|H2]]; auto.
Qed.

Lemma notin_remove_id (x : Z) L : ~ In x L -> remove Z.eq_dec x L = L.
Proof.
  induction L as [|c L IH]; simpl; intros H; [reflexivity|].
  destruct (Z.eq_dec x c) as [->|]; [tauto|]. rewrite IH by tauto. reflexivity.
Qed.

Lemma dll_renxt m m' n n' P L :
  dll m n P L -> NoDup L ->
  (forall b, In b L ->
     GET_PREV_PTR m' b = GET_PREV_PTR m b /\
     GET_NEXT_PTR m' b = if b =? P then n' else GET_NEXT_PTR m b) ->
  dll m' n' P L.
Proof.
  destruct L as [|c L]; simpl; intros H ND F; [exact H|].
  destruct H as (-> & Hc & Hn & Hr). apply NoDup_cons_iff in ND.
  destruct (F c (or_introl eq_refl)) as [F1 F2]. rewrite Z.eqb_refl in F2.
  repeat split; try assumption. rewrite F1.
  apply (dll_frame m); [|exact Hr]. intros b Hb.
  destruct (F b (or_intror Hb)) as [G1 G2].
  replace (b =? c) with false in G2 by (symmetry; apply Z.eqb_neq; intros ->; tauto).
  split; assumption.
Qed.

(** *** Unlinking a block from the walk *)

Section Unlink.
Variables (m m' : memory) (bp : Z).
Let P := GET_PREV_PTR m bp.
Let N := GET_NEXT_PTR m bp.

Lemma unlink_dll L : forall nxt p,
  dll m nxt p L -> NoDup L -> ~ In nxt L -> In bp L ->
  (forall b, In b L -> b <> bp ->
     GET_NEXT_PTR m' b = (if b =? P then N else GET_NEXT_PTR m b) /\
     GET_PREV_PTR m' b = (if N =? b then P else GET_PREV_PTR m b)) ->
  dll m' nxt (if N =? nxt then P else p) (remove Z.eq_dec bp L).
Proof.
  induction L as [|b L IH]; simpl; intros nxt p H ND Hnxt Hbp F; [contradiction|].
  destruct H as (-> & Hb & Hbn & Hr).
  apply NoDup_cons_iff in ND. destruct ND as [Hnb ND].
  destruct (Z.eq_dec bp b) as [->|Hne].
  - fold N in Hbn. rewrite Hbn, Z.eqb_refl. fold P in Hr.
    rewrite notin_remove_id by exact Hnb.
    apply (dll_renxt m m' b nxt P L Hr ND).
    intros c Hc. assert (c <> b) by (intros ->; tauto).
    destruct (F c (or_intror Hc) H) as [F1 F2].
    rewrite Hbn in F1, F2.
    replace (nxt =? c) with false in F2 by (symmetry; apply Z.eqb_neq; intros ->; tauto).
    split; assumption.
  - destruct Hbp as [Hbp|Hbp]; [congruence|].
    destruct (dll_links_in _ _ _ _ _ Hr Hbp) as [LN LP]. fold N in LN. fold P in LP.
    assert (N1 : N <> nxt) by (destruct LN as [->|LN]; [tauto|intros E; rewrite E in LN; tauto]).
    replace (N =? nxt) with false by (symmetry; apply Z.eqb_neq; exact N1).
    assert (N2 : b <> P) by (destruct LP as [->|LP]; [exact Hb|intros <-; tauto]).
    destruct (F b (or_introl eq_refl) (not_eq_sym Hne)) as [F1 F2].
    replace (b =? P) with false in F1 by (symmetry; apply Z.eqb_neq; exact N2).
    simpl. repeat split; try assumption; [congruence|].
    rewrite F2. apply IH; try assumption.
    intros c Hc. apply F. right. exact Hc.
Qed.
End Unlink.

(** *** Separation *)

Lemma apart_in L : forall a b,
  apart L -> In a L -> In b L ->
  a = b \/ a + MINIMUM_BLK_SIZE <= b \/ b + MINIMUM_BLK_SIZE <= a.
Proof.
  induction L as [|c L IH]; simpl; intros a b HA Ha Hb; [contradiction|].
  destruct HA as [H1 H2]. destruct Ha as [<-|Ha], Hb as [<-|Hb]; auto.
  all: right; first [destruct (H1 _ Hb); auto; fail | destruct (H1 _ Ha); auto].
Qed.

Lemma apart_NoDup L : apart L -> NoDup L.
Proof.
  induction L as [|c L IH]; simpl; intros HA; constructor; destruct HA as [H1 H2]; auto.
  intros Hc. destruct (H1 _ Hc); unfold MINIMUM_BLK_SIZE in *; lia.
Qed.

Lemma dll_prev_neq m L : forall nxt p b,
  dll m nxt p L -> NoDup L -> In b L -> GET_PREV_PTR m b <> b.
Proof.
  induction L as [|c L IH]; simpl; intros nxt p b H ND Hb; [contradiction|].
  destruct H as (-> & Hc & Hn & Hr). apply NoDup_cons_iff in ND. destruct ND as [Hnc ND].
  destruct Hb as [<-|Hb]; [|eapply IH; eassumption].
  apply dll_head in Hr. destruct L as [|d L]; simpl in Hr; [congruence|].
  rewrite Hr. intros ->. apply Hnc. left. reflexivity.
Qed.

Lemma dll_next_neq m L : forall nxt p b,
  dll m nxt p L -> NoDup L -> ~ In nxt L -> In b L -> GET_NEXT_PTR m b <> b.
Proof.
  induction L as [|c L IH]; simpl; intros nxt p b H ND Hnxt Hb; [contradiction|].
  destruct H as (-> & Hc & Hn & Hr). apply NoDup_cons_iff in ND. destruct ND as [Hnc ND].
  destruct Hb as [<-|Hb]; [rewrite Hn; intros ->; tauto|].
  eapply IH; eassumption.
Qed.

Lemma uint_GET_W m p : uint (GET_W m p) = GET_W m p.
Proof. apply uint_small, GET_W_range. Qed.

Ltac links := unfold set_next, set_prev, put, with_mem, with_tail, SET_NEXT_PTR, SET_PREV_PTR,
  GET_NEXT_PTR, GET_PREV_PTR in *; simpl mem in *; simpl free_list_tail in *.

Lemma remove_node_spec st L bp :
  free_list st L -> apart L -> (forall b, In b L -> addr32 b) -> In bp L ->
  let st' := remove_node bp st in
  free_list st' (remove Z.eq_dec bp L) /\
  mem_brk st' = mem_brk st /\ mem_max_addr st' = mem_max_addr st /\
  heap_listp st' = heap_listp st /\
  (forall q, (forall b, In b L -> b <> bp -> q + 4 <= b \/ b + 8 <= q) ->
     GET_W (mem st') q = GET_W (mem st) q).
Proof.
  intros HL HA H32 Hbp st'. unfold free_list in *.
  pose proof (apart_NoDup _ HA) as ND.
  assert (Hn0 : ~ In NULL L) by (intros H0; apply H32 in H0; unfold addr32, NULL in H0; lia).
  destruct (dll_links_in _ _ _ _ _ HL Hbp) as [LN LP].
  pose proof (dll_prev_neq _ _ _ _ _ HL ND Hbp) as NP.
  pose proof (dll_next_neq _ _ _ _ _ HL ND Hn0 Hbp) as NN.
  pose proof (unlink_dll (mem st) (mem st') bp L NULL (free_list_tail st) HL ND Hn0 Hbp) as U.
  set (P := GET_PREV_PTR (mem st) bp) in *. set (N := GET_NEXT_PTR (mem st) bp) in *.
  assert (AP : P = NULL \/ (P + MINIMUM_BLK_SIZE <= bp \/ bp + MINIMUM_BLK_SIZE <= P))
    by (destruct LP as [LP|LP]; [auto|destruct (apart_in _ _ _ HA LP Hbp); [congruence|auto]]).
  assert (AN : N = NULL \/ (N + MINIMUM_BLK_SIZE <= bp \/ bp + MINIMUM_BLK_SIZE <= N))
    by (destruct LN as [LN|LN]; [auto|destruct (apart_in _ _ _ HA LN Hbp); [congruence|auto]]).
  assert (APN : P = NULL \/ N = NULL \/ P = N \/ P + MINIMUM_BLK_SIZE <= N \/ N + MINIMUM_BLK_SIZE <= P).
  { destruct LP as [LP|LP]; [auto|]. destruct LN as [LN|LN]; [auto|].
    right. right. apply (apart_in _ _ _ HA LP LN). }
  assert (UP : uint P = P) by apply uint_GET_W.
  assert (UN : uint N = N) by apply uint_GET_W.
  assert (AB : forall b, In b L -> b <> bp ->
            (P = NULL \/ b = P \/ b + MINIMUM_BLK_SIZE <= P \/ P + MINIMUM_BLK_SIZE <= b) /\
            (N = NULL \/ b = N \/ b + MINIMUM_BLK_SIZE <= N \/ N + MINIMUM_BLK_SIZE <= b)).
  { intros b Hb _. split.
    - destruct LP as [LP|LP]; [auto|]. right. apply (apart_in _ _ _ HA Hb LP).
    - destruct LN as [LN|LN]; [auto|]. right. apply (apart_in _ _ _ HA Hb LN). }
  unfold MINIMUM_BLK_SIZE, NULL in *.
  assert (E : mem st' = (if negb (P =? 0) then
                          if negb (N =? 0) then SET_PREV_PTR (SET_NEXT_PTR (mem st) P N) N P
                          else SET_NEXT_PTR (mem st) P 0
                        else if negb (N =? 0) then SET_PREV_PTR (mem st) N 0 else mem st)
              /\ free_list_tail st' = (if N =? 0 then P else free_list_tail st)
              /\ mem_brk st' = mem_brk st /\ mem_max_addr st' = mem_max_addr st
              /\ heap_listp st' = heap_listp st).
  { subst st'. unfold remove_node. fold P. fold N.
    destruct (Z.eqb_spec P 0) as [EP|EP], (Z.eqb_spec N 0) as [EN|EN]; simpl;
      repeat split; try reflexivity; try (symmetry; assumption);
      unfold GET_PREV_PTR, GET_NEXT_PTR, SET_NEXT_PTR, SET_PREV_PTR, NULL; mem_rw;
      try reflexivity. }
  destruct E as (Em & Et & Eb & Ex & Eh). rewrite Et.
  split; [|repeat split; try assumption].
  - apply U. intros b Hb Hne. destruct (AB b Hb Hne) as [AB1 AB2].
    rewrite Em. clear U Em.
    assert (B32 := H32 b Hb). unfold addr32 in B32.
    assert (U0 : uint 0 = 0) by reflexivity.
    destruct (Z.eqb_spec P 0) as [EP|EP], (Z.eqb_spec N 0) as [EN|EN]; simpl;
      destruct (Z.eqb_spec b P) as [E1|E1], (Z.eqb_spec N b) as [E2|E2];
      try (exfalso; lia);
      unfold GET_PREV_PTR, GET_NEXT_PTR, SET_NEXT_PTR, SET_PREV_PTR;
      split; mem_rw; rewrite ?UP, ?UN, ?U0; try reflexivity; try lia.
  - intros q Hq. rewrite Em.
    assert (QP : P = 0 \/ q + 4 <= P \/ P + 8 <= q)
      by (destruct LP as [LP|LP]; [auto|right; apply Hq; [exact LP|exact NP]]).
    assert (QN : N = 0 \/ q + 4 <= N \/ N + 8 <= q)
      by (destruct LN as [LN|LN]; [auto|right; apply Hq; [exact LN|exact NN]]).
    destruct (Z.eqb_spec P 0) as [EP|EP], (Z.eqb_spec N 0) as [EN|EN]; simpl;
      unfold GET_PREV_PTR, GET_NEXT_PTR, SET_NEXT_PTR, SET_PREV_PTR; mem_rw; reflexivity.
Qed.

Lemma insert_node_spec fuel st L bp s :
  free_list st L -> apart (bp :: L) -> (forall b, In b (bp :: L) -> addr32 b) ->
  (length L < fuel)%nat ->
  exists st',
    insert_node fuel bp s st = Some st' /\
    free_list st' (insert_sorted (mem st) bp s L) /\
    mem_brk st' = mem_brk st /\ mem_max_addr st' = mem_max_addr st /\
    heap_listp st' = heap_listp st /\
    (forall q, (forall b, In b (bp :: L) -> q + 4 <= b \/ b + 8 <= q) ->
       GET_W (mem st') q = GET_W (mem st) q).
Proof.
  intros HL HA H32 Hf. unfold free_list in *.
  pose proof (apart_NoDup _ HA) as ND. apply NoDup_cons_iff in ND. destruct ND as [Hnbp ND].
  assert (Hn0 : ~ In NULL L)
    by (intros H0; apply (fun b h => H32 b (or_intror h)) in H0; unfold addr32, NULL in H0; lia).
  assert (Bbp := H32 bp (or_introl eq_refl)). unfold addr32 in Bbp.
  unfold insert_node. rewrite (insert_walk_spec _ s L fuel _ NULL HL Hf).
  destruct (walk_result_cases (mem st) s L NULL) as [C1 C2].
  pose proof (fun m' => splice_dll (mem st) m' bp s L NULL (free_list_tail st) HL ND Hn0) as S.
  destruct (walk_result (mem st) s NULL L) as [prev next]. simpl in C1, C2, S. simpl bind.
  assert (AP : prev = NULL \/ (addr32 prev /\ (bp + MINIMUM_BLK_SIZE <= prev \/ prev + MINIMUM_BLK_SIZE <= bp))).
  { destruct C1 as [C1|C1]; [auto|right]. split; [apply H32; right; exact C1|].
    destruct (apart_in _ bp prev HA (or_introl eq_refl) (or_intror C1)); [congruence|assumption]. }
  assert (AN : next = NULL \/ (addr32 next /\ (bp + MINIMUM_BLK_SIZE <= next \/ next + MINIMUM_BLK_SIZE <= bp))).
  { destruct C2 as [C2|C2]; [auto|right]. split; [apply H32; right; exact C2|].
    destruct (apart_in _ bp next HA (or_introl eq_refl) (or_intror C2)); [congruence|assumption]. }
  assert (APN : prev = NULL \/ next = NULL \/ prev = next \/
                prev + MINIMUM_BLK_SIZE <= next \/ next + MINIMUM_BLK_SIZE <= prev).
  { destruct C1 as [C1|C1]; [auto|]. destruct C2 as [C2|C2]; [auto|].
    right. right. apply (apart_in _ _ _ HA (or_intror C1) (or_intror C2)). }
  assert (AB : forall b, In b L ->
            (bp + MINIMUM_BLK_SIZE <= b \/ b + MINIMUM_BLK_SIZE <= bp) /\
            (prev = NULL \/ b = prev \/ b + MINIMUM_BLK_SIZE <= prev \/ prev + MINIMUM_BLK_SIZE <= b) /\
            (next = NULL \/ b = next \/ b + MINIMUM_BLK_SIZE <= next \/ next + MINIMUM_BLK_SIZE <= b)).
  { intros b Hb. split; [|split].
    - destruct (apart_in _ bp b HA (or_introl eq_refl) (or_intror Hb)); [congruence|assumption].
    - destruct C1 as [C1|C1]; [auto|]. right. apply (apart_in _ _ _ HA (or_intror Hb) (or_intror C1)).
    - destruct C2 as [C2|C2]; [auto|]. right. apply (apart_in _ _ _ HA (or_intror Hb) (or_intror C2)). }
  unfold MINIMUM_BLK_SIZE, NULL, addr32 in *.
  assert (U0 : uint 0 = 0) by reflexivity.
  assert (Ubp : uint bp = bp) by (apply uint_small; lia).
  assert (Up : uint prev = prev) by (apply uint_small; lia).
  assert (Un : uint next = next) by (apply uint_small; lia).
  eexists. split; [reflexivity|].
  split; [|repeat split].
  - match goal with |- dll ?m' _ ?t _ =>
      replace t with (if next =? 0 then bp else free_list_tail st)
        by (destruct (Z.eqb_spec prev 0), (Z.eqb_spec next 0); reflexivity);
      apply (S m'); clear S end; try lia.
    + destruct (Z.eqb_spec prev 0) as [EP|EP], (Z.eqb_spec next 0) as [EN|EN]; simpl;
        unfold set_next, set_prev, with_tail, with_mem; simpl;
        unfold GET_PREV_PTR, GET_NEXT_PTR, SET_NEXT_PTR, SET_PREV_PTR;
        mem_rw; rewrite ?U0, ?Ubp, ?Up, ?Un; lia.
    + destruct (Z.eqb_spec prev 0) as [EP|EP], (Z.eqb_spec next 0) as [EN|EN]; simpl;
        unfold set_next, set_prev, with_tail, with_mem; simpl;
        unfold GET_PREV_PTR, GET_NEXT_PTR, SET_NEXT_PTR, SET_PREV_PTR;
        mem_rw; rewrite ?U0, ?Ubp, ?Up, ?Un; lia.
    + intros EP0.
      destruct (Z.eqb_spec prev 0) as [EP|EP], (Z.eqb_spec next 0) as [EN|EN]; simpl;
        try lia;
        unfold set_next, set_prev, with_tail, with_mem; simpl;
        unfold GET_PREV_PTR, GET_NEXT_PTR, SET_NEXT_PTR, SET_PREV_PTR;
        mem_rw; rewrite ?U0, ?Ubp, ?Up, ?Un; lia.
    + intros b Hb. destruct (AB b Hb) as (AB0 & AB1 & AB2).
      assert (B32 := H32 b (or_intror Hb)). simpl in B32.
      destruct (Z.eqb_spec prev 0) as [EP|EP], (Z.eqb_spec next 0) as [EN|EN]; simpl;
        destruct (Z.eqb_spec next b) as [E2|E2]; try (exfalso; lia);
        unfold set_next, set_prev, with_tail, with_mem; simpl;
        unfold GET_PREV_PTR, GET_NEXT_PTR, SET_NEXT_PTR, SET_PREV_PTR;
        (split; [intros E1|]); mem_rw; rewrite ?U0, ?Ubp, ?Up, ?Un; try reflexivity; try lia.
  - destruct (Z.eqb_spec prev 0), (Z.eqb_spec next 0); reflexivity.
  - destruct (Z.eqb_spec prev 0), (Z.eqb_spec next 0); reflexivity.
  - destruct (Z.eqb_spec prev 0), (Z.eqb_spec next 0); reflexivity.
  - intros q Hq.
    assert (Qbp := Hq bp (or_introl eq_refl)).
    assert (QP : prev = 0 \/ q + 4 <= prev \/ prev + 8 <= q)
      by (destruct C1 as [C1|C1]; [auto|right; apply Hq; right; exact C1]).
    assert (QN : next = 0 \/ q + 4 <= next \/ next + 8 <= q)
      by (destruct C2 as [C2|C2]; [auto|right; apply Hq; right; exact C2]).
    destruct (Z.eqb_spec prev 0) as [EP|EP], (Z.eqb_spec next 0) as [EN|EN]; simpl;
      unfold set_next, set_prev, with_tail, with_mem; simpl;
      unfold GET_PREV_PTR, GET_NEXT_PTR, SET_NEXT_PTR, SET_PREV_PTR; mem_rw; reflexivity.
Qed.

(** *** Order and membership *)

Lemma ascending_frame m m' L :
  (forall b, In b L -> blk_size m' b = blk_size m b) -> ascending m L -> ascending m' L.
Proof.
  induction L as [|b L IH]; simpl; intros F H; [exact I|].
  destruct H as [H1 H2]. split.
  - intros b' Hb'. rewrite (F b), (F b') by auto. apply H1. exact Hb'.
  - apply IH; auto.
Qed.

Lemma insert_sorted_perm m bp s L : Permutation (insert_sorted m bp s L) (bp :: L).
Proof.
  induction L as [|b L IH]; simpl; [reflexivity|].
  destruct (blk_size m b <? s); [|reflexivity].
  rewrite IH. apply perm_swap.
Qed.

Lemma insert_sorted_in m bp s L x : In x (insert_sorted m bp s L) <-> x = bp \/ In x L.
Proof.
  split; intros H.
  - apply (Permutation_in _ (insert_sorted_perm m bp s L)) in H. destruct H; auto.
  - apply (Permutation_in _ (Permutation_sym (insert_sorted_perm m bp s L))).
    destruct H; [left|right]; auto.
Qed.

Lemma ascending_insert m bp L :
  ascending m L -> ascending m (insert_sorted m bp (blk_size m bp) L).
Proof.
  induction L as [|b L IH]; simpl; intros H; [split; [intros ? []|exact I]|].
  destruct H as [H1 H2]. destruct (Z.ltb_spec (blk_size m b) (blk_size m bp)).
  - simpl. split; [|apply IH; exact H2].
    intros b' Hb'. apply insert_sorted_in in Hb'. destruct Hb' as [->|Hb']; [lia|auto].
  - simpl. split; [|split; assumption].
    intros b' [<-|Hb']; [lia|]. specialize (H1 _ Hb'). lia.
Qed.

Lemma ascending_remove m x L : ascending m L -> ascending m (remove Z.eq_dec x L).
Proof.
  induction L as [|b L IH]; simpl; intros H; [exact I|].
  destruct H as [H1 H2]. destruct (Z.eq_dec x b); [auto|].
  simpl. split; [|auto]. intros b' Hb'. apply in_remove in Hb'. apply H1, Hb'.
Qed.

Lemma remove_perm (x : Z) L : NoDup L -> In x L -> Permutation (x :: remove Z.eq_dec x L) L.
Proof.
  induction L as [|b L IH]; simpl; intros ND H; [contradiction|].
  apply NoDup_cons_iff in ND. destruct ND as [Hb ND].
  destruct (Z.eq_dec x b) as [->|Hne].
  - rewrite notin_remove_id by exact Hb. reflexivity.
  - destruct H as [H|H]; [congruence|].
    rewrite perm_swap. apply perm_skip. apply IH; assumption.
Qed.

Lemma ascending_head_least m L b :
  ascending m L -> In b L -> blk_size m (hd NULL L) <= blk_size m b.
Proof.
  destruct L as [|c L]; simpl; intros HA Hb; [contradiction|].
  destruct HA as [H1 H2]. destruct Hb as [<-|Hb]; [lia|auto].
Qed.

Lemma apart_remove x L : apart L -> apart (remove Z.eq_dec x L).
Proof.
  induction L as [|b L IH]; simpl; intros H; [exact I|].
  destruct H as [H1 H2]. destruct (Z.eq_dec x b); [auto|].
  simpl. split; [|auto]. intros b' Hb'. apply in_remove in Hb'. apply H1, Hb'.
Qed.

Lemma apart_perm L L' : Permutation L L' -> apart L -> apart L'.
Proof.
  induction 1; simpl; intros HA.
  - exact I.
  - destruct HA as [H1 H2]. split; [|auto].
    intros b Hb. apply H1. eapply Permutation_in; [apply Permutation_sym|]; eassumption.
  - destruct HA as (H1 & H2 & H3). repeat split; try assumption.
    + intros b [<-|Hb]; [destruct (H1 x (or_introl eq_refl)); auto|auto].
    + intros b Hb. apply H1. right. exact Hb.
  - auto.
Qed.

(** Headers lie outside every link field of blocks that are a block apart. *)
Lemma header_outside_links L b :
  apart L -> In b L -> forall b', In b' L -> HDRP b + 4 <= b' \/ b' + 8 <= HDRP b.
Proof.
  intros HA Hb b' Hb'. unfold HDRP, WSIZE.
  destruct (apart_in _ _ _ HA Hb Hb') as [->|H]; unfold MINIMUM_BLK_SIZE in *; lia.
Qed.

(** *** The fit search *)

Lemma first_fit_spec m s L :
  ascending m L ->
  (exists b, In b L /\ s <= blk_size m b) ->
  let r := first_fit m s L in
  In r L /\ s <= blk_size m r /\
  (forall b, In b L -> s <= blk_size m b -> blk_size m r <= blk_size m b) /\
  (exists l1 l2, L = l1 ++ r :: l2 /\ forall b, In b l1 -> blk_size m b < s).
Proof.
  induction L as [|c L IH]; simpl; intros HA (b & Hb & Hs); [contradiction|].
  destruct HA as [H1 H2]. destruct (Z.ltb_spec (blk_size m c) s) as [Hlt|Hge].
  - destruct Hb as [<-|Hb]; [lia|].
    destruct (IH H2 (ex_intro _ b (conj Hb Hs))) as (I1 & I2 & I3 & l1 & l2 & I4 & I5).
    repeat split; auto.
    + intros b' [<-|Hb'] Hs'; [lia|auto].
    + exists (c :: l1), l2. split; [simpl; congruence|].
      intros b' [<-|Hb']; auto.
  - repeat split; auto.
    + intros b' [<-|Hb'] Hs'; [lia|auto].
    + exists [], L. split; [reflexivity|intros ? []].
Qed.

Lemma first_fit_none m s L :
  (forall b, In b L -> blk_size m b < s) -> first_fit m s L = NULL.
Proof.
  induction L as [|c L IH]; simpl; intros H; [reflexivity|].
  destruct (Z.ltb_spec (blk_size m c) s) as [Hlt|Hge]; [apply IH; auto|].
  specialize (H c (or_introl eq_refl)). lia.
Qed.

Lemma first_fit_cases m s L :
  (first_fit m s L = NULL /\ forall b, In b L -> blk_size m b < s) \/
  (In (first_fit m s L) L /\ s <= blk_size m (first_fit m s L)).
Proof.
  induction L as [|c L IH]; simpl; [left; split; [reflexivity|intros ? []]|].
  destruct (Z.ltb_spec (blk_size m c) s) as [Hlt|Hge]; [|right; auto].
  destruct IH as [[I1 I2]|[I1 I2]]; [left|right; auto].
  split; [exact I1|]. intros b [<-|Hb]; auto.
Qed.

(** ** Block sequences *)

Ltac consts := unfold HDRP, MINIMUM_BLK_SIZE, ALIGNMENT, DSIZE, WSIZE, NULL in *.
Ltac splits := repeat match goal with |- _ /\ _ => split end.

Lemma total_app xs ys : total (xs ++ ys) = total xs + total ys.
Proof. induction xs as [|[s a] xs IH]; simpl; lia. Qed.

Lemma addrs_app keep xs ys p :
  addrs keep p (xs ++ ys) = addrs keep p xs ++ addrs keep (p + total xs) ys.
Proof.
  revert p. induction xs as [|[s a] xs IH]; simpl; intros p.
  - f_equal. lia.
  - rewrite IH, <- app_assoc. do 3 f_equal. lia.
Qed.

Lemma layout_app m xs ys p :
  layout m p (xs ++ ys) <-> layout m p xs /\ layout m (p + total xs) ys.
Proof.
  revert p. induction xs as [|[s a] xs IH]; simpl; intros p.
  - replace (p + 0) with p by lia. tauto.
  - rewrite IH. replace (p + s + total xs) with (p + (s + total xs)) by lia. tauto.
Qed.

Lemma layout_total m bs : forall p, layout m p bs -> 0 <= total bs.
Proof.
  induction bs as [|[s a] bs IH]; simpl; intros p H; [lia|].
  destruct H as ((H1 & _) & _ & _ & H). apply IH in H. consts. lia.
Qed.

Lemma addrs_range m keep bs : forall p b,
  layout m p bs -> In b (addrs keep p bs) ->
  p <= b /\ b + MINIMUM_BLK_SIZE <= p + total bs.
Proof.
  induction bs as [|[s a] bs IH]; simpl; intros p b H Hb; [contradiction|].
  destruct H as ((H1 & _) & _ & _ & H). pose proof (layout_total _ _ _ H).
  apply in_app_or in Hb. destruct Hb as [Hb|Hb].
  - destruct (keep a); [|contradiction]. destruct Hb as [<-|[]]. lia.
  - destruct (IH _ _ H Hb). consts. lia.
Qed.

Lemma addrs_all keep bs : forall p b, In b (addrs keep p bs) -> In b (all_addrs p bs).
Proof.
  induction bs as [|[s a] bs IH]; simpl; intros p b Hb; [contradiction|].
  apply in_app_or in Hb. destruct Hb as [Hb|Hb].
  - destruct (keep a); [|contradiction]. destruct Hb as [<-|[]]. left. reflexivity.
  - right. apply IH. exact Hb.
Qed.

Lemma addrs_apart m keep bs : forall p, layout m p bs -> apart (addrs keep p bs).
Proof.
  induction bs as [|[s a] bs IH]; simpl; intros p H; [exact I|].
  destruct H as ((H1 & _) & _ & _ & H).
  destruct (keep a); simpl; [|apply IH; exact H].
  split; [|apply IH; exact H].
  intros b Hb. destruct (addrs_range _ _ _ _ _ H Hb). consts. lia.
Qed.

Lemma addrs_split keep bs : forall p b,
  In b (addrs keep p bs) ->
  exists pre s a post, bs = pre ++ (s, a) :: post /\ b = p + total pre /\ keep a = true.
Proof.
  induction bs as [|[s a] bs IH]; simpl; intros p b Hb; [contradiction|].
  apply in_app_or in Hb. destruct Hb as [Hb|Hb].
  - destruct (keep a) eqn:E; [|contradiction]. destruct Hb as [<-|[]].
    exists [], s, a, bs. simpl. repeat split; auto. lia.
  - destruct (IH _ _ Hb) as (pre & s' & a' & post & -> & -> & K).
    exists ((s, a) :: pre), s', a', post. simpl. repeat split; auto. lia.
Qed.

(** A layout only depends on the words of its region that lie outside the
    link fields of its blocks. *)
Lemma layout_frame m m' bs : forall p,
  layout m p bs ->
  (forall q, p - 4 <= q -> q + 4 <= p + total bs - 4 ->
     (forall b, In b (all_addrs p bs) -> q + 4 <= b \/ b + 8 <= q) ->
     GET_W m' q = GET_W m q) ->
  layout m' p bs.
Proof.
  induction bs as [|[s a] bs IH]; simpl; intros p H F; [exact I|].
  destruct H as ((H1 & H2) & H3 & H4 & H).
  pose proof (layout_total _ _ _ H) as T.
  assert (R : forall b, In b (all_addrs (p + s) bs) -> p + s <= b)
    by (intros b Hb; apply (addrs_range _ _ _ _ _ H Hb)).
  consts. repeat split; try assumption.
  - rewrite F; [exact H3|lia|lia|]. intros b [<-|Hb]; [lia|apply R in Hb; lia].
  - rewrite F; [exact H4|lia|lia|]. intros b [<-|Hb]; [lia|apply R in Hb; lia].
  - apply IH; [exact H|]. intros q Q1 Q2 Q3. apply F; [lia|lia|].
    intros b [<-|Hb]; [lia|auto].
Qed.

(** Reading a boundary tag. *)
Lemma tag_size s a : s mod ALIGNMENT = 0 -> Z.land (tag s a) (Z.lnot 7) = s.
Proof. intros. apply size_of_word; [assumption|destruct a; simpl; lia]. Qed.

Lemma tag_alloc s a : s mod ALIGNMENT = 0 -> Z.land (tag s a) 1 = Z.b2z a.
Proof. intros. apply alloc_of_word; [assumption|destruct a; simpl; lia]. Qed.

Lemma PACK_tag s a : s mod ALIGNMENT = 0 -> PACK s (Z.b2z a) = tag s a.
Proof. intros. apply PACK_add; [assumption|destruct a; simpl; lia]. Qed.

Lemma layout_last m pre s a p :
  layout m p (pre ++ [(s, a)]) ->
  layout m p pre /\ (MINIMUM_BLK_SIZE <= s /\ s mod ALIGNMENT = 0) /\
  GET_W m (HDRP (p + total pre)) = tag s a /\
  GET_W m (p + total pre + s - DSIZE) = tag s a.
Proof. rewrite layout_app. simpl. tauto. Qed.

(** *** Neighbours *)

Lemma naf_app_l xs ys : no_adjacent_free (xs ++ ys) -> no_adjacent_free xs.
Proof.
  induction xs as [|[s a] xs IH]; simpl; intros H; [exact I|].
  destruct H as [H1 H2]. split; [|auto].
  intros E. specialize (H1 E). destruct xs as [|[s' a'] xs]; simpl in *; auto.
Qed.

Lemma naf_app_r xs ys : no_adjacent_free (xs ++ ys) -> no_adjacent_free ys.
Proof. induction xs as [|[s a] xs IH]; simpl; intros H; [exact H|apply IH, H]. Qed.

Lemma naf_ends xs s : no_adjacent_free (xs ++ [(s, false)]) -> ends_alloc xs.
Proof.
  induction xs as [|[s' a'] xs IH]; simpl; intros H; [exact I|].
  destruct H as [H1 H2]. destruct xs as [|x xs]; [|apply IH; exact H2].
  simpl in H1. destruct a'; [reflexivity|contradiction (H1 eq_refl)].
Qed.

Lemma ends_alloc_snoc xs s a : ends_alloc (xs ++ [(s, a)]) <-> a = true.
Proof.
  induction xs as [|[s' a'] xs IH]; simpl; [tauto|].
  destruct (xs ++ [(s, a)]) eqn:E; [destruct xs; discriminate|exact IH].
Qed.

Lemma naf_join xs ys :
  no_adjacent_free xs -> no_adjacent_free ys ->
  (ends_alloc xs \/ starts_alloc ys) -> no_adjacent_free (xs ++ ys).
Proof.
  induction xs as [|[s a] xs IH]; simpl; intros H1 H2 H3; [exact H2|].
  destruct H1 as [H1 H1']. split.
  - intros E. specialize (H1 E). destruct xs as [|[s' a'] xs]; simpl in *; [|exact H1].
    destruct H3 as [H3|H3]; [congruence|exact H3].
  - apply IH; try assumption. destruct H3 as [H3|H3]; [left|right; exact H3].
    destruct xs; [exact I|exact H3].
Qed.

Lemma naf_hole pre post s a :
  no_adjacent_free pre -> no_adjacent_free post ->
  (a = false -> ends_alloc pre /\ starts_alloc post) ->
  no_adjacent_free (pre ++ (s, a) :: post).
Proof.
  intros H1 H2 H3. apply naf_join; [exact H1| |].
  - simpl. split; [intros E; apply H3, E|exact H2].
  - destruct a; [right; exact I|left; apply H3; reflexivity].
Qed.

Lemma naf_mid pre post s a :
  no_adjacent_free (pre ++ (s, a) :: post) ->
  no_adjacent_free pre /\ no_adjacent_free post /\
  (a = false -> ends_alloc pre /\ starts_alloc post).
Proof.
  intros H. split; [eapply naf_app_l; exact H|].
  pose proof (naf_app_r _ _ H) as H'. simpl in H'. split; [apply H'|].
  intros ->. split; [|apply H'; reflexivity].
  change (pre ++ (s, false) :: post) with (pre ++ [(s, false)] ++ post) in H.
  rewrite app_assoc in H. apply naf_app_l in H. eapply naf_ends. exact H.
Qed.

(** ** The heap around a block under construction *)

Lemma apart_app xs ys :
  apart xs -> apart ys ->
  (forall x y, In x xs -> In y ys ->
     x + MINIMUM_BLK_SIZE <= y \/ y + MINIMUM_BLK_SIZE <= x) ->
  apart (xs ++ ys).
Proof.
  induction xs as [|x xs IH]; simpl; intros H1 H2 H3; [exact H2|].
  destruct H1 as [H1 H1']. split; [|apply IH; auto].
  intros b Hb. apply in_app_or in Hb. destruct Hb; auto.
Qed.

Section Hole.
Variables (st : state) (pre post : list block) (L : list Z) (bp S : Z).
Hypothesis (HF : heap_frame st L).
Hypothesis (Hbp : bp = first_blkp st + total pre).
Hypothesis (Hpre : layout (mem st) (first_blkp st) pre).
Hypothesis (Hsize : MINIMUM_BLK_SIZE <= S).
Hypothesis (Hpost : layout (mem st) (bp + S) post).
Hypothesis (Hbrk : bp + S + total post = mem_brk st).

(** Where the blocks around the hole are. *)
Lemma around_hole b :
  In b (all_addrs (first_blkp st) pre ++ all_addrs (bp + S) post) ->
  (first_blkp st <= b /\ b + MINIMUM_BLK_SIZE <= bp) \/
  (bp + S <= b /\ b + MINIMUM_BLK_SIZE <= mem_brk st).
Proof.
  intros Hb. apply in_app_or in Hb. destruct Hb as [Hb|Hb].
  - left. destruct (addrs_range _ _ _ _ _ Hpre Hb). lia.
  - right. destruct (addrs_range _ _ _ _ _ Hpost Hb). lia.
Qed.

Lemma around_hole_free b :
  In b (free_addrs (first_blkp st) pre ++ free_addrs (bp + S) post) ->
  In b (all_addrs (first_blkp st) pre ++ all_addrs (bp + S) post).
Proof.
  intros Hb. apply in_or_app. apply in_app_or in Hb.
  destruct Hb as [Hb|Hb]; [left|right]; eapply addrs_all; exact Hb.
Qed.

Lemma around_hole_apart :
  apart (free_addrs (first_blkp st) pre ++ free_addrs (bp + S) post).
Proof.
  apply apart_app.
  - eapply addrs_apart. exact Hpre.
  - eapply addrs_apart. exact Hpost.
  - intros x y Hx Hy.
    destruct (addrs_range _ _ _ _ _ Hpre Hx). destruct (addrs_range _ _ _ _ _ Hpost Hy).
    consts. lia.
Qed.

Lemma heap_bounds : 16 <= first_blkp st /\ first_blkp st <= bp /\ mem_brk st <= 2 ^ 32
                    /\ bp + S <= mem_brk st.
Proof.
  pose proof (hf_base _ _ HF). pose proof (hf_max _ _ HF).
  pose proof (layout_total _ _ _ Hpre). pose proof (layout_total _ _ _ Hpost).
  unfold first_blkp in *. consts. lia.
Qed.

(** A state that differs from [st] only in words inside the hole, or in
    link fields of blocks around it, keeps both layouts and the fixed
    words of the heap. *)
Lemma around_hole_frame (m' : memory) :
  (forall q,
     (q + 4 <= bp - 4 \/ bp + S - 4 <= q) ->
     (forall b, In b (all_addrs (first_blkp st) pre ++ all_addrs (bp + S) post) ->
        q + 4 <= b \/ b + 8 <= q) ->
     GET_W m' q = GET_W (mem st) q) ->
  layout m' (first_blkp st) pre /\ layout m' (bp + S) post /\
  GET_W m' (HDRP (heap_listp st)) = PACK DSIZE 1 /\
  GET_W m' (heap_listp st) = PACK DSIZE 1 /\
  GET_W m' (HDRP (mem_brk st)) = PACK 0 1.
Proof.
  intros F. pose proof heap_bounds as HB.
  assert (A : forall b, In b (all_addrs (first_blkp st) pre ++ all_addrs (bp + S) post) ->
              (first_blkp st <= b /\ b + 16 <= bp) \/ (bp + S <= b /\ b + 16 <= mem_brk st))
    by exact around_hole.
  unfold first_blkp in *. consts.
  split; [|split; [|split; [|split]]].
  - apply (layout_frame (mem st)); [exact Hpre|]. intros q Q1 Q2 Q3.
    apply F; [lia|]. intros b Hb. apply in_app_or in Hb. destruct Hb as [Hb|Hb]; [auto|].
    destruct (addrs_range _ _ _ _ _ Hpost Hb). consts. lia.
  - apply (layout_frame (mem st)); [exact Hpost|]. intros q Q1 Q2 Q3.
    apply F; [lia|]. intros b Hb. apply in_app_or in Hb. destruct Hb as [Hb|Hb]; [|auto].
    destruct (addrs_range _ _ _ _ _ Hpre Hb). consts. lia.
  - rewrite F; [apply (hf_prologue_hdr _ _ HF)|lia|]. intros b Hb. destruct (A b Hb); lia.
  - rewrite F; [apply (hf_prologue_ftr _ _ HF)|lia|]. intros b Hb. destruct (A b Hb); lia.
  - rewrite F; [apply (hf_epilogue _ _ HF)|lia|]. intros b Hb. destruct (A b Hb); lia.
Qed.
End Hole.

(** *** The words of the allocated blocks *)

Lemma remove_node_fields x st :
  mem_brk (remove_node x st) = mem_brk st /\
  mem_max_addr (remove_node x st) = mem_max_addr st /\
  heap_listp (remove_node x st) = heap_listp st.
Proof. unfold remove_node. destruct (negb _), (negb _); simpl; auto. Qed.

Lemma in_alloc_app xs ys p q :
  in_alloc p (xs ++ ys) q <-> in_alloc p xs q \/ in_alloc (p + total xs) ys q.
Proof.
  revert p. induction xs as [|[s a] xs IH]; simpl; intros p.
  - replace (p + 0) with p by lia. tauto.
  - rewrite IH. replace (p + s + total xs) with (p + (s + total xs)) by lia. tauto.
Qed.

Lemma in_alloc_range m bs : forall p q,
  layout m p bs -> in_alloc p bs q -> p - 4 <= q /\ q + 4 <= p + total bs - 4.
Proof.
  induction bs as [|[s a] bs IH]; simpl; intros p q H Hq; [contradiction|].
  destruct H as ((H1 & _) & _ & _ & H). pose proof (layout_total _ _ _ H).
  destruct Hq as [(_ & Q1 & Q2)|Hq].
  - consts. lia.
  - destruct (IH _ _ H Hq). consts. lia.
Qed.

(** A word of an allocated block overlaps no link field of a free block. *)
Lemma in_alloc_free m bs : forall p q b,
  layout m p bs -> in_alloc p bs q -> In b (free_addrs p bs) ->
  q + 4 <= b \/ b + 8 <= q.
Proof.
  induction bs as [|[s a] bs IH]; simpl; intros p q b H Hq Hb; [contradiction|].
  destruct H as ((H1 & _) & _ & _ & H).
  unfold free_addrs in Hb. simpl in Hb. apply in_app_or in Hb.
  destruct Hq as [(-> & Q1 & Q2)|Hq].
  - destruct Hb as [[]|Hb]. destruct (addrs_range _ _ _ _ _ H Hb). consts. lia.
  - destruct (in_alloc_range _ _ _ _ H Hq). destruct Hb as [Hb|Hb].
    + destruct a; simpl in Hb; [contradiction|]. destruct Hb as [<-|[]]. consts. lia.
    + eapply IH; eassumption.
Qed.

(** The words beside the hole lie outside it and overlap no link field of
    a free block around it. *)
Lemma beside_clear st pre post bp S q :
  bp = first_blkp st + total pre -> 0 <= S ->
  layout (mem st) (first_blkp st) pre -> layout (mem st) (bp + S) post ->
  beside st pre post bp S q ->
  first_blkp st - 4 <= q /\ q + 4 <= bp + S + total post - 4 /\
  (q + 4 <= bp - 4 \/ bp + S - 4 <= q) /\
  (forall b, In b (free_addrs (first_blkp st) pre ++ free_addrs (bp + S) post) ->
     q + 4 <= b \/ b + 8 <= q).
Proof.
  intros Hbp HS Hpre Hpost [Hq|Hq].
  - destruct (in_alloc_range _ _ _ _ Hpre Hq). pose proof (layout_total _ _ _ Hpost).
    splits; try lia. intros b Hb. apply in_app_or in Hb. destruct Hb as [Hb|Hb].
    + exact (in_alloc_free _ _ _ _ _ Hpre Hq Hb).
    + destruct (addrs_range _ _ _ _ _ Hpost Hb). lia.
  - destruct (in_alloc_range _ _ _ _ Hpost Hq). pose proof (layout_total _ _ _ Hpre).
    splits; try lia. intros b Hb. apply in_app_or in Hb. destruct Hb as [Hb|Hb].
    + destruct (addrs_range _ _ _ _ _ Hpre Hb). consts. lia.
    + exact (in_alloc_free _ _ _ _ _ Hpost Hq Hb).
Qed.

Lemma hole_rep_beside st pre post L bp S q :
  hole_rep st pre post L bp S -> beside st pre post bp S q ->
  (q + 4 <= bp - 4 \/ bp + S - 4 <= q) /\
  (forall b, In b L -> q + 4 <= b \/ b + 8 <= q).
Proof.
  intros [HF Hbp Hpre [HS _] Hpost Hbrk HP] Hq.
  destruct (beside_clear st pre post bp S q Hbp ltac:(consts; lia) Hpre Hpost Hq)
    as (_ & _ & C1 & C2).
  split; [exact C1|]. intros b Hb. apply C2. eapply Permutation_in; eassumption.
Qed.

(** A word beside the hole survives a write inside the hole. *)
Lemma put_beside st pre post L bp S q' v q :
  hole_rep st pre post L bp S -> bp - 4 <= q' -> q' + 4 <= bp + S - 4 ->
  beside st pre post bp S q ->
  GET_W (mem (put q' v st)) q = GET_W (mem st) q.
Proof.
  intros H Q1 Q2 Hq. destruct (hole_rep_beside _ _ _ _ _ _ _ H Hq) as [C _].
  unfold put. simpl. apply GET_W_PUT_W_other. lia.
Qed.

(** Reading a byte off the word that holds it. *)
Lemma GET_W_bytes m m' q :
  GET_W m' q = GET_W m q ->
  forall a, q <= a < q + 4 -> load_byte m' a = load_byte m a.
Proof.
  unfold GET_W. intros E a Ha.
  pose proof (load_byte_range m q). pose proof (load_byte_range m (q + 1)).
  pose proof (load_byte_range m (q + 2)). pose proof (load_byte_range m (q + 3)).
  pose proof (load_byte_range m' q). pose proof (load_byte_range m' (q + 1)).
  pose proof (load_byte_range m' (q + 2)). pose proof (load_byte_range m' (q + 3)).
  assert (C : a = q \/ a = q + 1 \/ a = q + 2 \/ a = q + 3) by lia.
  destruct C as [-> | [-> | [-> | ->]]]; lia.
Qed.

(** The allocated blocks beside the hole stay beside it when a free
    neighbour joins the hole. *)
Lemma beside_next st pre post bp S s2 q :
  beside st pre ((s2, false) :: post) bp S q <-> beside st pre post bp (S + s2) q.
Proof.
  unfold beside. simpl. replace (bp + S + s2) with (bp + (S + s2)) by lia.
  intuition congruence.
Qed.

Lemma beside_prev st pre post bp S s1 q :
  bp = first_blkp st + total (pre ++ [(s1, false)]) ->
  beside st (pre ++ [(s1, false)]) post bp S q <->
  beside st pre post (bp - s1) (S + s1) q.
Proof.
  intros Hbp. unfold beside. rewrite in_alloc_app. simpl.
  replace (bp - s1 + (S + s1)) with (bp + S) by lia.
  intuition congruence.
Qed.

Lemma beside_base st st' pre post bp S q :
  heap_listp st' = heap_listp st ->
  beside st' pre post bp S q <-> beside st pre post bp S q.
Proof. intros E. unfold beside, first_blkp. rewrite E. tauto. Qed.

Lemma beside_in_alloc st pre post bp S a q :
  bp = first_blkp st + total pre ->
  in_alloc (first_blkp st) (pre ++ (S, a) :: post) q <->
  beside st pre post bp S q \/ (a = true /\ bp - 4 <= q /\ q + 4 <= bp + S - 4).
Proof.
  intros ->. unfold beside. rewrite in_alloc_app. simpl. unfold WSIZE. tauto.
Qed.

(** *** Writing inside the hole *)

Lemma hole_rep_members st pre post L bp S b :
  hole_rep st pre post L bp S -> In b L ->
  (first_blkp st <= b /\ b + MINIMUM_BLK_SIZE <= bp) \/
  (bp + S <= b /\ b + MINIMUM_BLK_SIZE <= mem_brk st).
Proof.
  intros [HF Hbp Hpre [Hs _] Hpost Hbrk HP] Hb.
  eapply around_hole; try eassumption.
  apply around_hole_free. eapply Permutation_in; eassumption.
Qed.

Lemma hole_rep_bounds st pre post L bp S :
  hole_rep st pre post L bp S ->
  16 <= first_blkp st /\ first_blkp st <= bp /\ mem_brk st <= 2 ^ 32 /\ bp + S <= mem_brk st.
Proof.
  intros [HF Hbp Hpre [Hs _] Hpost Hbrk HP].
  eapply heap_bounds; eassumption.
Qed.

(** Writing a word inside the hole. *)
Lemma hole_rep_put st pre post L bp S q v :
  hole_rep st pre post L bp S -> bp - 4 <= q -> q + 4 <= bp + S - 4 ->
  hole_rep (put q v st) pre post L bp S.
Proof.
  intros H Q1 Q2. pose proof (fun b => hole_rep_members _ _ _ _ _ _ b H) as HM.
  destruct H as [HF Hbp Hpre [Hs Hs'] Hpost Hbrk HP].
  assert (F : forall q', q' + 4 <= bp - 4 \/ bp + S - 4 <= q' ->
                GET_W (mem (put q v st)) q' = GET_W (mem st) q')
    by (intros q' Hq'; unfold put; simpl; apply GET_W_PUT_W_other; lia).
  assert (FR : layout (mem (put q v st)) (first_blkp st) pre /\
               layout (mem (put q v st)) (bp + S) post /\
               GET_W (mem (put q v st)) (HDRP (heap_listp st)) = PACK DSIZE 1 /\
               GET_W (mem (put q v st)) (heap_listp st) = PACK DSIZE 1 /\
               GET_W (mem (put q v st)) (HDRP (mem_brk st)) = PACK 0 1)
    by (eapply around_hole_frame; try eassumption; intros; apply F; assumption).
  destruct FR as (F1 & F2 & F3 & F4 & F5).
  split; try assumption; [|split; assumption].
  destruct HF as [B PH PF EP MX FL AS].
  split; try assumption.
  - unfold free_list in *. simpl. apply (dll_frame (mem st)); [|exact FL].
    intros b Hb. destruct (HM b Hb); consts; unfold GET_PREV_PTR, GET_NEXT_PTR;
      rewrite !GET_W_PUT_W_other by lia; split; reflexivity.
  - apply (ascending_frame (mem st)); [|exact AS].
    intros b Hb. unfold blk_size, GET_SIZE. f_equal. apply F.
    destruct (HM b Hb); consts; lia.
Qed.

(** Unlinking a free block that lies inside the hole. *)
Lemma hole_remove st pre post L bp S x :
  heap_frame st L -> bp = first_blkp st + total pre ->
  layout (mem st) (first_blkp st) pre ->
  MINIMUM_BLK_SIZE <= S /\ S mod ALIGNMENT = 0 ->
  layout (mem st) (bp + S) post -> bp + S + total post = mem_brk st ->
  Permutation L (x :: free_addrs (first_blkp st) pre ++ free_addrs (bp + S) post) ->
  bp <= x -> x + MINIMUM_BLK_SIZE <= bp + S ->
  hole_rep (remove_node x st) pre post (remove Z.eq_dec x L) bp S /\
  (forall q, bp - 4 <= q -> q + 4 <= bp + S ->
     GET_W (mem (remove_node x st)) q = GET_W (mem st) q) /\
  (forall q, beside st pre post bp S q ->
     GET_W (mem (remove_node x st)) q = GET_W (mem st) q).
Proof.
  intros HF Hbp Hpre [Hs Hs'] Hpost Hbrk HP X1 X2.
  assert (BC : forall q, beside st pre post bp S q ->
               forall b, In b (free_addrs (first_blkp st) pre ++ free_addrs (bp + S) post) ->
                 q + 4 <= b \/ b + 8 <= q).
  { intros q Hq.
    apply (beside_clear st pre post bp S q Hbp ltac:(consts; lia) Hpre Hpost Hq). }
  assert (HB : 16 <= first_blkp st /\ first_blkp st <= bp /\ mem_brk st <= 2 ^ 32
               /\ bp + S <= mem_brk st) by (eapply heap_bounds; eassumption).
  assert (A : forall b, In b (all_addrs (first_blkp st) pre ++ all_addrs (bp + S) post) ->
              (first_blkp st <= b /\ b + MINIMUM_BLK_SIZE <= bp) \/
              (bp + S <= b /\ b + MINIMUM_BLK_SIZE <= mem_brk st))
    by (intros b; eapply around_hole; eassumption).
  assert (AA : apart (free_addrs (first_blkp st) pre ++ free_addrs (bp + S) post))
    by (eapply around_hole_apart; eassumption).
  set (around := free_addrs (first_blkp st) pre ++ free_addrs (bp + S) post) in *.
  assert (AF : forall b, In b around ->
             (first_blkp st <= b /\ b + 16 <= bp) \/ (bp + S <= b /\ b + 16 <= mem_brk st))
    by (intros b Hb; apply A, around_hole_free, Hb).
  assert (HA : apart L).
  { apply (apart_perm (x :: around)); [symmetry; exact HP|]. simpl. split; [|exact AA].
    intros b Hb. destruct (AF b Hb); consts; lia. }
  assert (HxL : In x L) by (eapply Permutation_in; [symmetry; exact HP|left; reflexivity]).
  assert (ND : NoDup L) by (apply apart_NoDup, HA).
  assert (HP' : Permutation (remove Z.eq_dec x L) around).
  { apply (Permutation_cons_inv (a := x)). rewrite remove_perm by assumption. exact HP. }
  assert (HM : forall b, In b L -> b <> x ->
             (first_blkp st <= b /\ b + 16 <= bp) \/ (bp + S <= b /\ b + 16 <= mem_brk st)).
  { intros b Hb Hne. apply AF. apply (Permutation_in _ HP) in Hb.
    destruct Hb as [Hb|Hb]; [congruence|exact Hb]. }
  assert (H32 : forall b, In b L -> addr32 b).
  { intros b Hb. unfold addr32. destruct (Z.eq_dec b x) as [->|Hne]; [consts; lia|].
    destruct (HM b Hb Hne); consts; lia. }
  destruct HF as [B PH PF EP MX FL AS].
  destruct (remove_node_spec st L x FL HA H32 HxL) as (R1 & R2 & R3 & R4 & R5).
  set (st' := remove_node x st) in *.
  assert (F : forall q, (forall b, In b around -> q + 4 <= b \/ b + 8 <= q) ->
                GET_W (mem st') q = GET_W (mem st) q).
  { intros q Hq. apply R5. intros b Hb Hne. apply Hq.
    apply (Permutation_in _ HP) in Hb. destruct Hb as [Hb|Hb]; [congruence|exact Hb]. }
  assert (FR : layout (mem st') (first_blkp st) pre /\
               layout (mem st') (bp + S) post /\
               GET_W (mem st') (HDRP (heap_listp st)) = PACK DSIZE 1 /\
               GET_W (mem st') (heap_listp st) = PACK DSIZE 1 /\
               GET_W (mem st') (HDRP (mem_brk st)) = PACK 0 1).
  { eapply around_hole_frame; try eassumption;
      [exact (Build_heap_frame _ _ B PH PF EP MX FL AS)|].
    intros q _ Hq. apply F. intros b Hb. apply Hq, around_hole_free, Hb. }
  destruct FR as (F1 & F2 & F3 & F4 & F5).
  split; [|split].
  - split; unfold first_blkp in *; rewrite ?R2, ?R3, ?R4; try assumption;
      [|split; assumption].
    split; rewrite ?R2, ?R3, ?R4; try assumption.
    apply (ascending_frame (mem st)); [|apply ascending_remove; exact AS].
    intros b Hb. apply in_remove in Hb. destruct Hb as [Hb Hne].
    unfold blk_size, GET_SIZE. f_equal. apply R5. intros b' Hb' Hne'.
    destruct (apart_in _ _ _ HA Hb Hb') as [->|H']; consts; lia.
  - intros q Q1 Q2. apply F. intros b Hb. destruct (AF b Hb); consts; lia.
  - intros q Hq. apply F. exact (BC q Hq).
Qed.

(** *** Opening and closing the hole *)

Lemma free_addrs_mid p pre s a post :
  free_addrs p (pre ++ (s, a) :: post)
  = free_addrs p pre ++ (if a then [] else [p + total pre])
    ++ free_addrs (p + total pre + s) post.
Proof. unfold free_addrs. rewrite addrs_app. simpl. destruct a; reflexivity. Qed.

Lemma alloc_addrs_mid p pre s a post :
  alloc_addrs p (pre ++ (s, a) :: post)
  = alloc_addrs p pre ++ (if a then [p + total pre] else [])
    ++ alloc_addrs (p + total pre + s) post.
Proof. unfold alloc_addrs. rewrite addrs_app. simpl. destruct a; reflexivity. Qed.

Lemma hole_tags_size m bp S a :
  S mod ALIGNMENT = 0 -> hole_tags m bp S a -> blk_size m bp = S.
Proof. intros HS [H _]. unfold blk_size, GET_SIZE. rewrite H. apply tag_size, HS. Qed.

(** Closing the hole with an allocated block. *)
Lemma close_alloc st pre post L bp S :
  hole_rep st pre post L bp S -> hole_tags (mem st) bp S true ->
  no_adjacent_free (pre ++ (S, true) :: post) ->
  heap_inv st (pre ++ (S, true) :: post) L.
Proof.
  intros [HF Hbp Hpre Hs Hpost Hbrk HP] [T1 T2] NAF. split; try assumption.
  - apply layout_app. split; [exact Hpre|]. simpl. rewrite <- Hbp. repeat split; tauto.
  - rewrite total_app. simpl. lia.
  - rewrite free_addrs_mid. simpl. rewrite <- Hbp. exact HP.
Qed.

(** Opening a hole where an allocated block is. *)
Lemma open_alloc st pre post L s :
  heap_inv st (pre ++ (s, true) :: post) L ->
  hole_rep st pre post L (first_blkp st + total pre) s /\
  hole_tags (mem st) (first_blkp st + total pre) s true.
Proof.
  intros [HF HL Hbrk HP NAF]. apply layout_app in HL. destruct HL as [HL1 HL2].
  simpl in HL2. destruct HL2 as (Hs & T1 & T2 & HL2).
  rewrite total_app in Hbrk. simpl in Hbrk. rewrite free_addrs_mid in HP. simpl in HP.
  split; [split; try assumption; try reflexivity; lia|split; assumption].
Qed.

(** Opening a hole where a free block is: the block leaves the free list. *)
Lemma open_free st pre post L s :
  heap_inv st (pre ++ (s, false) :: post) L ->
  let bp := first_blkp st + total pre in
  In bp L /\
  hole_rep (remove_node bp st) pre post (remove Z.eq_dec bp L) bp s /\
  hole_tags (mem (remove_node bp st)) bp s false /\
  (forall q, beside st pre post bp s q ->
     GET_W (mem (remove_node bp st)) q = GET_W (mem st) q).
Proof.
  intros [HF HL Hbrk HP NAF] bp. apply layout_app in HL. destruct HL as [HL1 HL2].
  simpl in HL2. destruct HL2 as (Hs & T1 & T2 & HL2). fold bp in T1, T2, HL2.
  rewrite total_app in Hbrk. simpl in Hbrk. rewrite free_addrs_mid in HP. simpl in HP.
  fold bp in HP.
  assert (Ebp : bp = first_blkp st + total pre) by reflexivity. clearbody bp.
  assert (HP' : Permutation L (bp :: free_addrs (first_blkp st) pre ++ free_addrs (bp + s) post))
    by (rewrite HP; symmetry; apply Permutation_middle).
  split; [eapply Permutation_in; [symmetry; exact HP'|left; reflexivity]|].
  assert (X2 : bp + MINIMUM_BLK_SIZE <= bp + s) by (destruct Hs; lia).
  destruct (hole_remove st pre post L bp s bp HF Ebp HL1 Hs HL2 ltac:(lia) HP'
              ltac:(lia) X2) as (H1 & H2 & H3).
  split; [exact H1|]. split; [|exact H3]. destruct Hs as [Hs Hs']. consts.
  split; rewrite H2; try assumption; consts; lia.
Qed.

(** Closing the hole with a free block: the block enters the free list. *)
Lemma close_free fuel st pre post L bp S :
  hole_rep st pre post L bp S -> hole_tags (mem st) bp S false ->
  no_adjacent_free (pre ++ (S, false) :: post) -> (length L < fuel)%nat ->
  exists st',
    insert_node fuel bp S st = Some st' /\
    heap_inv st' (pre ++ (S, false) :: post) (insert_sorted (mem st) bp S L) /\
    mem_brk st' = mem_brk st /\ mem_max_addr st' = mem_max_addr st /\
    heap_listp st' = heap_listp st /\
    blk_size (mem st') bp = S /\
    (forall q, beside st pre post bp S q -> GET_W (mem st') q = GET_W (mem st) q).
Proof.
  intros H HT NAF Hf.
  pose proof (fun q => hole_rep_beside _ _ _ _ _ _ q H) as HBS.
  pose proof (fun b => hole_rep_members _ _ _ _ _ _ b H) as HM.
  pose proof (hole_rep_bounds _ _ _ _ _ _ H) as HB.
  destruct H as [HF Hbp Hpre [Hs Hs'] Hpost Hbrk HP].
  assert (AA : apart (free_addrs (first_blkp st) pre ++ free_addrs (bp + S) post))
    by (eapply around_hole_apart; eassumption).
  assert (HA : apart (bp :: L)).
  { simpl. split; [|apply (apart_perm _ _ (Permutation_sym HP)), AA].
    intros b Hb. destruct (HM b Hb); consts; lia. }
  assert (H32 : forall b, In b (bp :: L) -> addr32 b).
  { intros b [<-|Hb]; unfold addr32; [consts; lia|]. destruct (HM b Hb); consts; lia. }
  destruct (insert_node_spec fuel st L bp S (hf_list _ _ HF) HA H32 Hf)
    as (st' & E & R1 & R2 & R3 & R4 & R5).
  exists st'. split; [exact E|].
  assert (F : forall q, (q + 4 <= bp \/ bp + 8 <= q) ->
                (forall b, In b (all_addrs (first_blkp st) pre ++ all_addrs (bp + S) post) ->
                   q + 4 <= b \/ b + 8 <= q) ->
                GET_W (mem st') q = GET_W (mem st) q).
  { intros q Q1 Q2. apply R5. intros b [<-|Hb]; [exact Q1|].
    apply Q2, around_hole_free. eapply Permutation_in; eassumption. }
  assert (A : forall b, In b (all_addrs (first_blkp st) pre ++ all_addrs (bp + S) post) ->
              (first_blkp st <= b /\ b + MINIMUM_BLK_SIZE <= bp) \/
              (bp + S <= b /\ b + MINIMUM_BLK_SIZE <= mem_brk st))
    by (intros b; eapply around_hole; eassumption).
  assert (FR : layout (mem st') (first_blkp st) pre /\
               layout (mem st') (bp + S) post /\
               GET_W (mem st') (HDRP (heap_listp st)) = PACK DSIZE 1 /\
               GET_W (mem st') (heap_listp st) = PACK DSIZE 1 /\
               GET_W (mem st') (HDRP (mem_brk st)) = PACK 0 1).
  { eapply around_hole_frame; try eassumption.
    intros q Q1 Q2. apply F; [consts; lia|exact Q2]. }
  destruct FR as (F1 & F2 & F3 & F4 & F5).
  assert (HS : blk_size (mem st) bp = S) by (eapply hole_tags_size; eassumption).
  assert (FH : forall b, In b (bp :: L) -> blk_size (mem st') b = blk_size (mem st) b).
  { intros b Hb. unfold blk_size, GET_SIZE. f_equal. apply R5.
    intros b' Hb'. destruct (apart_in _ _ _ HA Hb Hb') as [->|H']; consts; lia. }
  destruct HT as [T1 T2].
  assert (T1' : GET_W (mem st') (HDRP bp) = tag S false).
  { rewrite F; [exact T1|consts; lia|]. intros b Hb. destruct (A b Hb); consts; lia. }
  assert (T2' : GET_W (mem st') (bp + S - DSIZE) = tag S false).
  { rewrite F; [exact T2|consts; lia|]. intros b Hb. destruct (A b Hb); consts; lia. }
  destruct HF as [B PH PF EP MX FL AS].
  split; [split; [split|..]|];
    unfold first_blkp in *; rewrite ?R2, ?R3, ?R4; try assumption.
  - apply (ascending_frame (mem st)).
    + intros b Hb. apply FH. apply insert_sorted_in in Hb.
      destruct Hb as [->|Hb]; [left; reflexivity|right; exact Hb].
    + rewrite <- HS. apply ascending_insert. exact AS.
  - apply layout_app. split; [exact F1|]. simpl. rewrite <- Hbp. repeat split; assumption.
  - rewrite total_app. simpl. lia.
  - rewrite free_addrs_mid. simpl. rewrite <- Hbp.
    rewrite insert_sorted_perm, HP. apply Permutation_middle.
  - repeat split; try assumption.
    + rewrite FH by (left; reflexivity). exact HS.
    + intros q Hq. destruct (HBS q Hq) as [C1 C2]. apply R5.
      intros b [<-|Hb]; [consts; lia|auto].
Qed.

(** ** Coalescing *)

Lemma mod8_add a b : a mod ALIGNMENT = 0 -> b mod ALIGNMENT = 0 -> (a + b) mod ALIGNMENT = 0.
Proof. unfold ALIGNMENT. intros. Z.div_mod_to_equations. lia. Qed.

Lemma mod8_sub a b : a mod ALIGNMENT = 0 -> b mod ALIGNMENT = 0 -> (a - b) mod ALIGNMENT = 0.
Proof. unfold ALIGNMENT. intros. Z.div_mod_to_equations. lia. Qed.

Lemma list_snoc_case {A} (l : list A) : l = [] \/ exists l' x, l = l' ++ [x].
Proof.
  destruct l as [|a l]; [left; reflexivity|right].
  destruct (exists_last (l := a :: l)) as (l' & x & E); [discriminate|].
  exists l', x. exact E.
Qed.

(** What [coalesce] reads around the block under construction. *)
Lemma read_hole st pre post L bp S a :
  hole_rep st pre post L bp S -> hole_tags (mem st) bp S a ->
  GET_SIZE (mem st) (HDRP bp) = S /\ NEXT_BLKP (mem st) bp = bp + S /\
  FTRP (mem st) bp = bp + S - DSIZE.
Proof.
  intros H [T1 T2]. destruct (hr_size _ _ _ _ _ _ H) as [Hs Hs'].
  assert (E : GET_SIZE (mem st) (HDRP bp) = S) by (unfold GET_SIZE; rewrite T1; apply tag_size, Hs').
  unfold NEXT_BLKP, FTRP. fold (HDRP bp). rewrite E. auto.
Qed.

Lemma read_next st pre post L bp S :
  hole_rep st pre post L bp S ->
  match post with
  | [] => GET_ISALLOCATED (mem st) (HDRP (bp + S)) = 1
  | (s2, a2) :: _ =>
      GET_ISALLOCATED (mem st) (HDRP (bp + S)) = Z.b2z a2 /\
      GET_SIZE (mem st) (HDRP (bp + S)) = s2
  end.
Proof.
  intros [HF Hbp Hpre Hs Hpost Hbrk HP]. destruct post as [|[s2 a2] post].
  - simpl in Hbrk. replace (bp + S) with (mem_brk st) by lia.
    unfold GET_ISALLOCATED. rewrite (hf_epilogue _ _ HF). reflexivity.
  - simpl in Hpost. destruct Hpost as ((Hs2 & Hs2') & T1 & _).
    unfold GET_ISALLOCATED, GET_SIZE. rewrite T1. split; [apply tag_alloc|apply tag_size]; exact Hs2'.
Qed.

Lemma read_prev st pre post L bp S :
  hole_rep st pre post L bp S ->
  (pre = [] ->
     PREV_BLKP (mem st) bp = heap_listp st /\
     GET_ISALLOCATED (mem st) (HDRP (heap_listp st)) = 1) /\
  forall pre' s1 a1, pre = pre' ++ [(s1, a1)] ->
    PREV_BLKP (mem st) bp = bp - s1 /\
    GET_ISALLOCATED (mem st) (HDRP (bp - s1)) = Z.b2z a1 /\
    GET_SIZE (mem st) (HDRP (bp - s1)) = s1.
Proof.
  intros [HF Hbp Hpre Hs Hpost Hbrk HP]. split.
  - intros ->. simpl in Hbp. unfold first_blkp in Hbp. unfold PREV_BLKP, GET_SIZE, GET_ISALLOCATED.
    replace (bp - DSIZE) with (heap_listp st) by lia.
    rewrite (hf_prologue_ftr _ _ HF), (hf_prologue_hdr _ _ HF). split; [|reflexivity].
    change (Z.land (PACK DSIZE 1) (Z.lnot 7)) with DSIZE. lia.
  - intros pre' s1 a1 ->. apply layout_last in Hpre.
    destruct Hpre as (Hpre & (Hs1 & Hs1') & T1 & T2).
    rewrite total_app in Hbp. simpl in Hbp.
    replace (first_blkp st + total pre') with (bp - s1) in T1, T2 by lia.
    replace (bp - s1 + s1 - DSIZE) with (bp - DSIZE) in T2 by lia.
    unfold PREV_BLKP, GET_SIZE, GET_ISALLOCATED. rewrite T1, T2.
    rewrite tag_size, tag_alloc by exact Hs1'. auto.
Qed.

(** The free block after the hole joins it. *)
Lemma absorb_next st pre post L bp S s2 :
  hole_rep st pre ((s2, false) :: post) L bp S ->
  hole_rep (remove_node (bp + S) st) pre post (remove Z.eq_dec (bp + S) L) bp (S + s2) /\
  In (bp + S) L /\
  (forall q, bp - 4 <= q -> q + 4 <= bp + (S + s2) ->
     GET_W (mem (remove_node (bp + S) st)) q = GET_W (mem st) q) /\
  (forall q, beside st pre post bp (S + s2) q ->
     GET_W (mem (remove_node (bp + S) st)) q = GET_W (mem st) q).
Proof.
  intros [HF Hbp Hpre [Hs Hs'] Hpost Hbrk HP]. simpl in Hpost, Hbrk.
  destruct Hpost as ((Hs2 & Hs2') & T1 & T2 & Hpost).
  unfold free_addrs in HP. simpl in HP. fold free_addrs in HP.
  assert (HP' : Permutation L ((bp + S) :: free_addrs (first_blkp st) pre
                               ++ free_addrs (bp + (S + s2)) post)).
  { rewrite HP. replace (bp + S + s2) with (bp + (S + s2)) by lia.
    symmetry. apply Permutation_middle. }
  replace (bp + S + s2) with (bp + (S + s2)) in Hpost by lia.
  assert (Hsz : MINIMUM_BLK_SIZE <= S + s2 /\ (S + s2) mod ALIGNMENT = 0)
    by (split; [consts; lia|apply mod8_add; assumption]).
  destruct (hole_remove st pre post L bp (S + s2) (bp + S) HF Hbp Hpre Hsz Hpost
              ltac:(lia) HP' ltac:(consts; lia) ltac:(consts; lia)) as (H1 & H2 & H3).
  split; [exact H1|]. split; [|split; [exact H2|exact H3]].
  eapply Permutation_in; [symmetry; exact HP'|left; reflexivity].
Qed.

(** The free block before the hole joins it. *)
Lemma absorb_prev st pre post L bp S s1 :
  hole_rep st (pre ++ [(s1, false)]) post L bp S ->
  hole_rep (remove_node (bp - s1) st) pre post (remove Z.eq_dec (bp - s1) L)
           (bp - s1) (S + s1) /\
  In (bp - s1) L /\
  (forall q, bp - s1 - 4 <= q -> q + 4 <= bp + S ->
     GET_W (mem (remove_node (bp - s1) st)) q = GET_W (mem st) q) /\
  (forall q, beside st pre post (bp - s1) (S + s1) q ->
     GET_W (mem (remove_node (bp - s1) st)) q = GET_W (mem st) q).
Proof.
  intros [HF Hbp Hpre [Hs Hs'] Hpost Hbrk HP].
  apply layout_last in Hpre. destruct Hpre as (Hpre & (Hs1 & Hs1') & T1 & T2).
  rewrite total_app in Hbp. simpl in Hbp.
  rewrite free_addrs_mid in HP. simpl in HP.
  replace (first_blkp st + total pre) with (bp - s1) in HP by lia.
  assert (HP' : Permutation L ((bp - s1) :: free_addrs (first_blkp st) pre
                               ++ free_addrs (bp - s1 + (S + s1)) post)).
  { rewrite HP. replace (bp - s1 + (S + s1)) with (bp + S) by lia.
    rewrite <- app_assoc. simpl. symmetry. apply Permutation_middle. }
  replace (bp + S) with (bp - s1 + (S + s1)) in Hpost by lia.
  assert (Hsz : MINIMUM_BLK_SIZE <= S + s1 /\ (S + s1) mod ALIGNMENT = 0)
    by (split; [consts; lia|apply mod8_add; assumption]).
  destruct (hole_remove st pre post L (bp - s1) (S + s1) (bp - s1) HF ltac:(lia) Hpre Hsz Hpost
              ltac:(lia) HP' ltac:(lia) ltac:(consts; lia)) as (H1 & H2 & H3).
  split; [exact H1|]. split; [|split].
  - eapply Permutation_in; [symmetry; exact HP'|left; reflexivity].
  - intros q Q1 Q2. apply H2; lia.
  - exact H3.
Qed.

Lemma remove_length (x : Z) L : (length (remove Z.eq_dec x L) <= length L)%nat.
Proof. apply remove_length_le. Qed.

(** Writing the boundary tags of the block under construction. *)
Lemma write_tags st pre post L bp S a :
  hole_rep st pre post L bp S ->
  GET_SIZE (mem st) (HDRP bp) = S \/ True ->
  let st1 := put (HDRP bp) (PACK S (Z.b2z a)) st in
  let st2 := put (bp + S - DSIZE) (PACK S (Z.b2z a)) st1 in
  FTRP (mem st1) bp = bp + S - DSIZE /\
  hole_rep st2 pre post L bp S /\ hole_tags (mem st2) bp S a /\
  mem_brk st2 = mem_brk st /\ mem_max_addr st2 = mem_max_addr st /\
  heap_listp st2 = heap_listp st /\
  (forall q, q + 4 <= bp - 4 \/ bp <= q -> q + 4 <= bp + S - 8 \/ bp + S - 4 <= q ->
     GET_W (mem st2) q = GET_W (mem st) q).
Proof.
  intros H _ st1 st2. pose proof (hole_rep_bounds _ _ _ _ _ _ H) as HB.
  destruct (hr_size _ _ _ _ _ _ H) as [Hs Hs'].
  assert (U : uint (tag S a) = tag S a)
    by (apply uint_small; unfold tag; destruct a; simpl; consts; lia).
  assert (E1 : GET_W (mem st1) (HDRP bp) = tag S a)
    by (unfold st1, put; simpl; rewrite GET_W_PUT_W_same, PACK_tag by exact Hs'; exact U).
  split; [unfold FTRP, GET_SIZE; rewrite E1, tag_size by exact Hs'; reflexivity|].
  split; [|split; [|splits; auto]].
  - apply hole_rep_put; [apply hole_rep_put; [exact H|..]|..]; consts; lia.
  - unfold hole_tags, st2, st1, put. simpl. rewrite !PACK_tag by exact Hs'.
    consts. split; mem_rw; exact U.
  - intros q Q1 Q2. unfold st2, st1, put. simpl.
    rewrite !GET_W_PUT_W_other by (consts; lia). reflexivity.
Qed.

Lemma coalesce_next_spec st pre post L bp S :
  hole_rep st pre post L bp S -> hole_tags (mem st) bp S false ->
  no_adjacent_free post ->
  exists postA LA SA stA,
    coalesce_next bp (bp + S) S (GET_ISALLOCATED (mem st) (HDRP (bp + S))) st = (SA, stA) /\
    hole_rep stA pre postA LA bp SA /\ hole_tags (mem stA) bp SA false /\
    starts_alloc postA /\ no_adjacent_free postA /\ S <= SA /\
    alloc_addrs (bp + SA) postA = alloc_addrs (bp + S) post /\
    (length LA <= length L)%nat /\
    mem_brk stA = mem_brk st /\ mem_max_addr stA = mem_max_addr st /\
    heap_listp stA = heap_listp st /\
    (forall q, beside st pre post bp S q -> GET_W (mem stA) q = GET_W (mem st) q) /\
    (forall q, beside st pre post bp S q -> beside st pre postA bp SA q) /\
    SA = S + (if GET_ISALLOCATED (mem st) (HDRP (bp + S)) =? 0
              then GET_SIZE (mem st) (HDRP (bp + S)) else 0).
Proof.
  intros H HT NAF. pose proof (read_next _ _ _ _ _ _ H) as RN.
  unfold coalesce_next.
  destruct post as [|[s2 [|]] post].
  - rewrite RN. simpl. exists [], L, S, st.
    split; [reflexivity|split; [exact H|split; [exact HT|]]].
    repeat split; auto; lia.
  - destruct RN as [RN _]. rewrite RN. simpl.
    exists ((s2, true) :: post), L, S, st.
    split; [reflexivity|split; [exact H|split; [exact HT|]]].
    repeat split; auto; try apply NAF; lia.
  - destruct RN as [RN RS]. rewrite RN, RS.
    change (Z.b2z false =? 0) with true. cbv beta iota zeta.
    destruct (absorb_next _ _ _ _ _ _ _ H) as (H1 & Hin & F1 & F2).
    pose proof (hole_rep_bounds _ _ _ _ _ _ H1) as HB.
    destruct (hr_size _ _ _ _ _ _ H1) as [Hs Hs'].
    rewrite (uint_small (S + s2)) by (consts; lia).
    destruct (write_tags _ _ _ _ _ _ false H1 (or_intror I))
      as (W1 & W2 & W3 & W4 & W5 & W6 & W7).
    simpl Z.b2z in *. rewrite W1.
    assert (FR2 : forall q, beside st pre ((s2, false) :: post) bp S q ->
                    beside st pre post bp (S + s2) q)
      by (intros q Hq; apply beside_next; exact Hq).
    assert (FR1 : forall q, beside st pre ((s2, false) :: post) bp S q ->
                    GET_W (mem (put (bp + (S + s2) - DSIZE) (PACK (S + s2) 0)
                                  (put (HDRP bp) (PACK (S + s2) 0)
                                     (remove_node (bp + S) st)))) q = GET_W (mem st) q).
    { intros q Hq. apply FR2 in Hq. rewrite <- (F2 q Hq).
      assert (Hq' : beside (remove_node (bp + S) st) pre post bp (S + s2) q)
        by (apply (beside_base st); [apply remove_node_fields|exact Hq]).
      destruct (hole_rep_beside _ _ _ _ _ _ _ H1 Hq') as [C _].
      apply W7; consts; lia. }
    destruct (hr_post _ _ _ _ _ _ H) as ((Hs2 & _) & _). simpl in NAF. destruct NAF as [N1 N2].
    eexists post, _, (S + s2), _. split; [reflexivity|].
    split; [exact W2|]. split; [exact W3|].
    assert (E : forall st0, mem_brk (remove_node (bp + S) st0) = mem_brk st0 /\
                            mem_max_addr (remove_node (bp + S) st0) = mem_max_addr st0 /\
                            heap_listp (remove_node (bp + S) st0) = heap_listp st0).
    { intros st0. unfold remove_node.
      destruct (negb _), (negb _); simpl; auto. }
    destruct (E st) as (E1 & E2 & E3).
    repeat split; auto; try (consts; lia); try congruence.
    + unfold alloc_addrs. simpl. f_equal. lia.
    + apply remove_length.
Qed.

Lemma coalesce_prev_spec st pre post L bp S pb ipa :
  hole_rep st pre post L bp S -> hole_tags (mem st) bp S false ->
  no_adjacent_free pre ->
  (pre = [] -> ipa = 1) ->
  (forall pre' s1 a1, pre = pre' ++ [(s1, a1)] -> pb = bp - s1 /\ ipa = Z.b2z a1) ->
  exists preB LB SB bpB stB,
    coalesce_prev bp pb S ipa st = (bpB, stB) /\
    hole_rep stB preB post LB bpB SB /\ hole_tags (mem stB) bpB SB false /\
    ends_alloc preB /\ no_adjacent_free preB /\ S <= SB /\ bpB + SB = bp + S /\
    alloc_addrs (first_blkp st) preB = alloc_addrs (first_blkp st) pre /\
    (length LB <= length L)%nat /\
    mem_brk stB = mem_brk st /\ mem_max_addr stB = mem_max_addr st /\
    heap_listp stB = heap_listp st /\
    (forall q, beside st pre post bp S q -> GET_W (mem stB) q = GET_W (mem st) q) /\
    (forall q, beside st pre post bp S q -> beside st preB post bpB SB q) /\
    bpB = (if ipa =? 0 then pb else bp) /\
    SB = S + (if ipa =? 0 then GET_SIZE (mem st) (HDRP pb) else 0).
Proof.
  intros H HT NAF P0 P1. unfold coalesce_prev.
  destruct (list_snoc_case pre) as [->|(pre' & [s1 a1] & ->)].
  - rewrite P0 by reflexivity. simpl.
    exists [], L, S, bp, st.
    split; [reflexivity|split; [exact H|split; [exact HT|]]].
    repeat split; auto; lia.
  - destruct (P1 _ _ _ eq_refl) as [-> ->].
    destruct (read_prev _ _ _ _ _ _ H) as [_ RP]. destruct (RP _ _ _ eq_refl) as (_ & _ & RS).
    destruct a1; [change (Z.b2z true =? 0) with false|change (Z.b2z false =? 0) with true];
      cbv beta iota zeta.
    + exists (pre' ++ [(s1, true)]), L, S, bp, st.
      split; [reflexivity|split; [exact H|split; [exact HT|]]].
      repeat split; auto; try lia. apply ends_alloc_snoc. reflexivity.
    + rewrite RS.
      destruct (absorb_prev _ _ _ _ _ _ _ H) as (H1 & Hin & F1 & F2).
      pose proof (hole_rep_bounds _ _ _ _ _ _ H1) as HB.
      pose proof (hole_rep_bounds _ _ _ _ _ _ H) as HB0.
      destruct (hr_size _ _ _ _ _ _ H1) as [Hs Hs'].
      destruct (hr_size _ _ _ _ _ _ H) as [Hs0 Hs0'].
      assert (Hs1 : MINIMUM_BLK_SIZE <= s1)
        by (pose proof (hr_pre _ _ _ _ _ _ H) as Hl; apply layout_last in Hl; tauto).
      rewrite (uint_small (S + s1)) by (consts; lia).
      destruct (write_tags _ _ _ _ _ _ false H1 (or_intror I))
        as (W1 & W2 & W3 & W4 & W5 & W6 & W7).
      simpl Z.b2z in *.
      assert (FR2 : forall q, beside st (pre' ++ [(s1, false)]) post bp S q ->
                      beside st pre' post (bp - s1) (S + s1) q)
        by (intros q Hq; apply beside_prev; [apply (hr_bp _ _ _ _ _ _ H)|exact Hq]).
      assert (FR1 : forall q, beside st (pre' ++ [(s1, false)]) post bp S q ->
                      GET_W (mem (put (bp - s1 + (S + s1) - DSIZE) (PACK (S + s1) 0)
                                    (put (HDRP (bp - s1)) (PACK (S + s1) 0)
                                       (remove_node (bp - s1) st)))) q = GET_W (mem st) q).
      { intros q Hq. apply FR2 in Hq. rewrite <- (F2 q Hq).
        assert (Hq' : beside (remove_node (bp - s1) st) pre' post (bp - s1) (S + s1) q)
          by (apply (beside_base st); [apply remove_node_fields|exact Hq]).
        destruct (hole_rep_beside _ _ _ _ _ _ _ H1 Hq') as [C _].
        apply W7; consts; lia. }
      (* the footer is located through the header of [bp], still in place *)
      assert (EF : FTRP (mem (put (HDRP (bp - s1)) (PACK (S + s1) 0)
                               (remove_node (bp - s1) st))) bp = bp - s1 + (S + s1) - DSIZE).
      { unfold FTRP, GET_SIZE, put. simpl.
        rewrite GET_W_PUT_W_other by (consts; lia).
        rewrite F1 by (consts; lia). destruct HT as [T1 _]. rewrite T1.
        rewrite tag_size by exact Hs0'. lia. }
      rewrite EF.
      assert (E : forall st0, mem_brk (remove_node (bp - s1) st0) = mem_brk st0 /\
                              mem_max_addr (remove_node (bp - s1) st0) = mem_max_addr st0 /\
                              heap_listp (remove_node (bp - s1) st0) = heap_listp st0).
      { intros st0. unfold remove_node. destruct (negb _), (negb _); simpl; auto. }
      destruct (E st) as (E1 & E2 & E3).
      apply naf_ends in NAF as NE. apply naf_app_l in NAF.
      eexists pre', _, (S + s1), (bp - s1), _. split; [reflexivity|].
      split; [exact W2|]. split; [exact W3|].
      repeat split; auto; try (consts; lia); try congruence.
      * unfold alloc_addrs. rewrite addrs_app. simpl. rewrite app_nil_r. reflexivity.
      * apply remove_length.
Qed.

Lemma insert_sorted_length m bp s L :
  length (insert_sorted m bp s L) = Datatypes.S (length L).
Proof. apply (Permutation_length (insert_sorted_perm m bp s L)). Qed.

Lemma coalesce_spec fuel st pre post L bp S :
  hole_rep st pre post L bp S -> hole_tags (mem st) bp S false ->
  no_adjacent_free pre -> no_adjacent_free post -> (length L < fuel)%nat ->
  exists bp' st' bs' L',
    coalesce fuel bp st = Some (bp', st') /\
    heap_inv st' bs' L' /\ In bp' L' /\ S <= blk_size (mem st') bp' /\
    mem_brk st' = mem_brk st /\ mem_max_addr st' = mem_max_addr st /\
    heap_listp st' = heap_listp st /\
    alloc_addrs (first_blkp st) bs'
    = alloc_addrs (first_blkp st) (pre ++ (S, false) :: post) /\
    (length L' <= Datatypes.S (length L))%nat /\
    (forall q, beside st pre post bp S q -> GET_W (mem st') q = GET_W (mem st) q) /\
    (forall q, beside st pre post bp S q -> in_alloc (first_blkp st) bs' q) /\
    bp' = (if GET_ISALLOCATED (mem st) (HDRP (PREV_BLKP (mem st) bp)) =? 0
           then PREV_BLKP (mem st) bp else bp) /\
    blk_size (mem st') bp'
    = S + (if GET_ISALLOCATED (mem st) (HDRP (bp + S)) =? 0
           then GET_SIZE (mem st) (HDRP (bp + S)) else 0)
        + (if GET_ISALLOCATED (mem st) (HDRP (PREV_BLKP (mem st) bp)) =? 0
           then GET_SIZE (mem st) (HDRP (PREV_BLKP (mem st) bp)) else 0).
Proof.
  intros H HT NAF1 NAF2 Hf.
  destruct (read_hole _ _ _ _ _ _ _ H HT) as (R1 & R2 & R3).
  destruct (read_prev _ _ _ _ _ _ H) as [RP0 RP1].
  unfold coalesce. cbv zeta. rewrite R1, R2.
  destruct (coalesce_next_spec _ _ _ _ _ _ H HT NAF2)
    as (postA & LA & SA & stA & EA & HA & TA & A1 & A2 & A3 & A4 & A5 & A6 & A7 & A8
        & A9 & A10 & A11).
  rewrite EA.
  destruct (coalesce_prev_spec stA pre postA LA bp SA (PREV_BLKP (mem st) bp)
              (GET_ISALLOCATED (mem st) (HDRP (PREV_BLKP (mem st) bp))) HA TA NAF1)
    as (preB & LB & SB & bpB & stB & EB & HB & TB & B1 & B2 & B3 & B4 & B5 & B6 & B7 & B8 & B9
        & B10 & B11 & B12 & B13).
  { intros ->. destruct (RP0 eq_refl) as [-> E]. exact E. }
  { intros pre' s1 a1 ->. destruct (RP1 _ _ _ eq_refl) as (-> & E & _). auto. }
  rewrite EB.
  destruct (read_hole _ _ _ _ _ _ _ HB TB) as (R1' & _).
  rewrite R1'.
  assert (NAF : no_adjacent_free (preB ++ (SB, false) :: postA))
    by (apply naf_hole; auto).
  destruct (close_free fuel _ _ _ _ _ _ HB TB NAF ltac:(lia))
    as (st' & EI & HI & C1 & C2 & C3 & C4 & C5).
  rewrite EI. simpl bind.
  exists bpB, st', (preB ++ (SB, false) :: postA), (insert_sorted (mem stB) bpB SB LB).
  split; [reflexivity|]. split; [exact HI|].
  split; [apply insert_sorted_in; left; reflexivity|].
  split; [lia|].
  split; [congruence|]. split; [congruence|]. split; [congruence|].
  assert (E1 : first_blkp stA = first_blkp st) by (unfold first_blkp; congruence).
  assert (E2 : first_blkp stB = first_blkp st) by (unfold first_blkp; congruence).
  pose proof (hr_bp _ _ _ _ _ _ HB) as Hb1. pose proof (hr_bp _ _ _ _ _ _ HA) as Hb2.
  rewrite E1 in B5, Hb2. rewrite E2 in Hb1.
  assert (BB : forall q, beside st pre post bp S q -> beside stB preB postA bpB SB q).
  { intros q Hq. apply (beside_base stA); [congruence|]. apply B11.
    apply (beside_base st); [congruence|]. apply A10, Hq. }
  assert (PS : GET_ISALLOCATED (mem st) (HDRP (PREV_BLKP (mem st) bp)) = 0 ->
               GET_SIZE (mem stA) (HDRP (PREV_BLKP (mem st) bp))
               = GET_SIZE (mem st) (HDRP (PREV_BLKP (mem st) bp))).
  { intros Z0. destruct (list_snoc_case pre) as [->|(pre' & [s1 a1] & ->)].
    - destruct (RP0 eq_refl) as [X1 X2]. rewrite X1, X2 in Z0. discriminate.
    - destruct (RP1 _ _ _ eq_refl) as (-> & _ & X1).
      destruct (read_prev _ _ _ _ _ _ HA) as [_ RA]. destruct (RA _ _ _ eq_refl) as (_ & _ & X2).
      congruence. }
  split; [|split; [|split; [|split; [|split]]]].
  - rewrite !alloc_addrs_mid. simpl.
    rewrite <- Hb1, <- Hb2, B5, B4, A4. reflexivity.
  - rewrite insert_sorted_length. lia.
  - intros q Hq. rewrite (C5 q (BB q Hq)).
    rewrite B10 by (apply (beside_base st); [congruence|apply A10, Hq]).
    apply A9, Hq.
  - intros q Hq. apply (beside_in_alloc st preB postA bpB SB false q Hb1). left.
    apply (beside_base stB); [congruence|apply BB, Hq].
  - exact B12.
  - rewrite C4, B13, A11.
    destruct (GET_ISALLOCATED (mem st) (HDRP (PREV_BLKP (mem st) bp)) =? 0) eqn:EZ;
      [rewrite PS by (apply Z.eqb_eq; exact EZ)|]; lia.
Qed.

(** ** Release *)

(** Writing the tags of a block that starts the hole. *)
Lemma write_front_tags st pre post L bp S A a :
  hole_rep st pre post L bp S ->
  MINIMUM_BLK_SIZE <= A <= S -> A mod ALIGNMENT = 0 ->
  let st1 := put (HDRP bp) (PACK A (Z.b2z a)) st in
  let st2 := put (bp + A - DSIZE) (PACK A (Z.b2z a)) st1 in
  FTRP (mem st1) bp = bp + A - DSIZE /\ NEXT_BLKP (mem st2) bp = bp + A /\
  hole_rep st2 pre post L bp S /\ hole_tags (mem st2) bp A a /\
  mem_brk st2 = mem_brk st /\ mem_max_addr st2 = mem_max_addr st /\
  heap_listp st2 = heap_listp st /\
  (forall q, bp + A - 4 <= q -> GET_W (mem st2) q = GET_W (mem st) q) /\
  (forall q, q + 4 <= bp - 4 \/ bp <= q -> q + 4 <= bp + A - 8 \/ bp + A - 4 <= q ->
     GET_W (mem st2) q = GET_W (mem st) q).
Proof.
  intros H HA HA' st1 st2. pose proof (hole_rep_bounds _ _ _ _ _ _ H) as HB.
  assert (U : uint (tag A a) = tag A a)
    by (apply uint_small; unfold tag; destruct a; simpl; consts; lia).
  assert (E1 : GET_W (mem st1) (HDRP bp) = tag A a)
    by (unfold st1, put; simpl; rewrite GET_W_PUT_W_same, PACK_tag by exact HA'; exact U).
  assert (T : hole_tags (mem st2) bp A a).
  { unfold hole_tags, st2, st1, put. simpl. rewrite !PACK_tag by exact HA'.
    consts. split; mem_rw; exact U. }
  split; [unfold FTRP, GET_SIZE; rewrite E1, tag_size by exact HA'; reflexivity|].
  split; [unfold NEXT_BLKP; fold (HDRP bp); unfold GET_SIZE; destruct T as [T _];
          rewrite T, tag_size by exact HA'; reflexivity|].
  split; [|split; [exact T|repeat split]].
  - apply hole_rep_put; [apply hole_rep_put; [exact H|..]|..]; consts; lia.
  - intros q Hq. unfold st2, st1, put. simpl. consts. mem_rw. reflexivity.
  - intros q Q1 Q2. unfold st2, st1, put. simpl.
    rewrite !GET_W_PUT_W_other by (consts; lia). reflexivity.
Qed.

(** An allocated block at the start of the hole leaves a smaller hole. *)
Lemma hole_split st pre post L bp S A :
  hole_rep st pre post L bp S -> hole_tags (mem st) bp A true ->
  MINIMUM_BLK_SIZE <= A -> A mod ALIGNMENT = 0 -> MINIMUM_BLK_SIZE <= S - A ->
  hole_rep st (pre ++ [(A, true)]) post L (bp + A) (S - A).
Proof.
  intros [HF Hbp Hpre [Hs Hs'] Hpost Hbrk HP] [T1 T2] HA HA' HSA.
  split; try assumption.
  - rewrite total_app. simpl. lia.
  - apply layout_app. split; [exact Hpre|]. simpl. rewrite <- Hbp. repeat split; assumption.
  - split; [exact HSA|apply mod8_sub; assumption].
  - replace (bp + A + (S - A)) with (bp + S) by lia. exact Hpost.
  - lia.
  - rewrite free_addrs_mid. simpl. rewrite app_nil_r.
    replace (bp + A + (S - A)) with (bp + S) by lia. exact HP.
Qed.

Lemma heap_inv_block st pre s a post L :
  heap_inv st (pre ++ (s, a) :: post) L ->
  (MINIMUM_BLK_SIZE <= s /\ s mod ALIGNMENT = 0) /\
  blk_size (mem st) (first_blkp st + total pre) = s /\
  (forall q, In q (alloc_addrs (first_blkp st) pre) ->
     q + MINIMUM_BLK_SIZE <= first_blkp st + total pre) /\
  (forall q, In q (alloc_addrs (first_blkp st + total pre + s) post) ->
     first_blkp st + total pre + s <= q) /\
  16 <= first_blkp st /\ first_blkp st + total pre + s <= mem_brk st /\
  mem_brk st <= 2 ^ 32 /\ 0 <= total pre.
Proof.
  intros [HF HL Hbrk HP NAF]. apply layout_app in HL. destruct HL as [HL1 HL2].
  simpl in HL2. destruct HL2 as (Hs & T1 & T2 & HL2).
  pose proof (layout_total _ _ _ HL1). pose proof (layout_total _ _ _ HL2).
  rewrite total_app in Hbrk. simpl in Hbrk.
  pose proof (hf_base _ _ HF). pose proof (hf_max _ _ HF).
  split; [exact Hs|]. split; [|split; [|split]].
  - unfold blk_size, GET_SIZE. rewrite T1. apply tag_size, Hs.
  - intros q Hq. apply (addrs_range _ _ _ _ _ HL1 Hq).
  - intros q Hq. apply (addrs_range _ _ _ _ _ HL2 Hq).
  - unfold first_blkp in *. consts. lia.
Qed.

Lemma mm_free_spec fuel st bs L p :
  heap_inv st bs L -> In p (alloc_addrs (first_blkp st) bs) -> (length L < fuel)%nat ->
  exists st' bs' L',
    mm_free fuel p st = Some st' /\ heap_inv st' bs' L' /\
    mem_brk st' = mem_brk st /\ mem_max_addr st' = mem_max_addr st /\
    heap_listp st' = heap_listp st /\
    (forall q, In q (alloc_addrs (first_blkp st') bs') <->
               In q (alloc_addrs (first_blkp st) bs) /\ q <> p) /\
    (forall q, in_alloc (first_blkp st) bs q ->
       q + 4 <= p - 4 \/ p + blk_size (mem st) p - 4 <= q ->
       GET_W (mem st') q = GET_W (mem st) q) /\
    (exists b, In b L' /\ blk_size (mem st) p <= blk_size (mem st') b) /\
    In (merged_addr (mem st) p) L' /\
    blk_size (mem st') (merged_addr (mem st) p) = merged_size (mem st) p.
Proof.
  intros HI Hp Hf. destruct (addrs_split _ _ _ _ Hp) as (pre & s & a & post & -> & -> & ->).
  destruct (naf_mid _ _ _ _ (hi_naf _ _ _ HI)) as (N1 & N2 & _).
  destruct (heap_inv_block _ _ _ _ _ _ HI) as ((Hs & Hs') & BS & B1 & B2 & _).
  destruct (open_alloc _ _ _ _ _ HI) as [H HT].
  set (bp := first_blkp st + total pre) in *.
  destruct (read_hole _ _ _ _ _ _ _ H HT) as (R1 & R2 & R3).
  unfold mm_free. cbv zeta. rewrite R1, R3.
  destruct (write_front_tags _ _ _ _ _ _ s false H ltac:(lia) Hs')
    as (_ & _ & W2 & W3 & W4 & W5 & W6 & _ & W8).
  simpl Z.b2z in *.
  destruct (coalesce_spec fuel _ _ _ _ _ _ W2 W3 N1 N2 Hf)
    as (bp' & st' & bs' & L' & EC & HI' & C5 & C6 & C1 & C2 & C3 & C4 & _ & C7 & _ & C9 & C10).
  rewrite EC. simpl bind. exists st', bs', L'.
  split; [reflexivity|]. split; [exact HI'|].
  split; [congruence|]. split; [congruence|]. split; [congruence|].
  assert (MG : bp' = merged_addr (mem st) bp /\
               blk_size (mem st') bp' = merged_size (mem st) bp).
  { destruct (read_prev _ _ _ _ _ _ H) as [RP0 RP1].
    pose proof (hole_rep_bounds _ _ _ _ _ _ H) as HB.
    match type of C9 with _ = (if GET_ISALLOCATED ?m _ =? 0 then _ else _) =>
      set (mw := m) in * end.
    assert (FW : forall q, q + 4 <= bp - 4 \/ bp + s - 4 <= q -> GET_W mw q = GET_W (mem st) q)
      by (intros q Hq; apply W8; consts; lia).
    assert (EP : PREV_BLKP mw bp = PREV_BLKP (mem st) bp)
      by (unfold PREV_BLKP, GET_SIZE; rewrite FW by (consts; lia); reflexivity).
    assert (PB : PREV_BLKP (mem st) bp <= bp - 8).
    { destruct (list_snoc_case pre) as [->|(pre' & [s1 a1] & ->)].
      - destruct (RP0 eq_refl) as [-> _]. pose proof (hr_bp _ _ _ _ _ _ H) as X.
        simpl in X. unfold first_blkp in X. consts. lia.
      - destruct (RP1 _ _ _ eq_refl) as (-> & _).
        pose proof (hr_pre _ _ _ _ _ _ H) as X. apply layout_last in X.
        destruct X as (_ & (X & _) & _). consts. lia. }
    rewrite EP in C9, C10.
    assert (EH : GET_W mw (HDRP (PREV_BLKP (mem st) bp))
                 = GET_W (mem st) (HDRP (PREV_BLKP (mem st) bp)))
      by (apply FW; consts; lia).
    assert (EN : GET_W mw (HDRP (bp + s)) = GET_W (mem st) (HDRP (bp + s)))
      by (apply FW; consts; lia).
    unfold GET_ISALLOCATED, GET_SIZE in C9, C10. rewrite EH in C9, C10. rewrite EN in C10.
    unfold merged_addr, merged_size, prev_free, next_free, GET_ISALLOCATED, GET_SIZE.
    fold (GET_SIZE (mem st) (HDRP bp)). rewrite R1, R2.
    split; [exact C9|exact C10]. }
  destruct MG as [MG1 MG2].
  split; [|split; [|split; [exists bp'; split; [exact C5|fold bp; rewrite BS; exact C6]
                           |split; [rewrite <- MG1; exact C5|rewrite <- MG1; exact MG2]]]];
    [|intros q Hq1 Hq2; fold bp in Hq2; rewrite BS in Hq2;
      apply (beside_in_alloc st pre post bp s true q eq_refl) in Hq1;
      destruct Hq1 as [Hq1|Hq1]; [|lia];
      destruct (hole_rep_beside _ _ _ _ _ _ _ H Hq1) as [CL _];
      rewrite C7 by (apply (beside_base st); [reflexivity|exact Hq1]);
      apply W8; consts; lia].
  intros q. replace (first_blkp st') with (first_blkp st) by (unfold first_blkp; congruence).
  unfold first_blkp in C4 |- *. simpl heap_listp in C4. rewrite C4.
  fold (first_blkp st). rewrite !alloc_addrs_mid. simpl. fold bp.
  rewrite !in_app_iff. simpl. split.
  - intros [Hq|Hq]; (split; [tauto|]); intros ->;
      [apply B1 in Hq|apply B2 in Hq]; consts; lia.
  - intros [[Hq|[Hq|Hq]] Hne]; auto. congruence.
Qed.

(** ** Placement *)

Lemma allocate_spec fuel st bs L bp adj :
  heap_inv st bs L -> In bp L -> adj <= blk_size (mem st) bp ->
  MINIMUM_BLK_SIZE <= adj -> adj mod ALIGNMENT = 0 -> (length L <= fuel)%nat ->
  exists st' bs' L',
    allocate fuel bp adj st = Some (bp, st') /\ heap_inv st' bs' L' /\
    mem_brk st' = mem_brk st /\ mem_max_addr st' = mem_max_addr st /\
    heap_listp st' = heap_listp st /\
    ~ In bp (alloc_addrs (first_blkp st) bs) /\
    (forall q, In q (alloc_addrs (first_blkp st') bs') <->
               q = bp \/ In q (alloc_addrs (first_blkp st) bs)) /\
    adj <= blk_size (mem st') bp /\
    (forall q, in_alloc (first_blkp st) bs q -> GET_W (mem st') q = GET_W (mem st) q) /\
    blk_size (mem st') bp < adj + MINIMUM_BLK_SIZE /\
    blk_size (mem st') bp
    = (if MINIMUM_BLK_SIZE <=? blk_size (mem st) bp - adj then adj
       else blk_size (mem st) bp) /\
    (MINIMUM_BLK_SIZE <= blk_size (mem st) bp - adj ->
     In (bp + adj) L' /\
     blk_size (mem st') (bp + adj) = blk_size (mem st) bp - adj).
Proof.
  intros HI Hbp Hadj HA HA' Hf.
  assert (Hfree : In bp (free_addrs (first_blkp st) bs))
    by (eapply Permutation_in; [apply (hi_perm _ _ _ HI)|exact Hbp]).
  destruct (addrs_split _ _ _ _ Hfree) as (pre & s & a & post & -> & -> & Ha).
  destruct a; [discriminate|]. clear Ha Hfree.
  destruct (naf_mid _ _ _ _ (hi_naf _ _ _ HI)) as (N1 & N2 & N3).
  destruct (N3 eq_refl) as [N4 N5].
  destruct (heap_inv_block _ _ _ _ _ _ HI) as ((Hs & Hs') & BS & B1 & B2 & B3 & B4 & B5 & B6).
  rewrite BS in Hadj |- *.
  destruct (open_free _ _ _ _ _ HI) as (_ & H & HT & F0).
  remember (first_blkp st + total pre) as bp eqn:Ebp.
  assert (BQ : forall q, in_alloc (first_blkp st) (pre ++ (s, false) :: post) q ->
                 beside st pre post bp s q /\ (q + 4 <= bp - 4 \/ bp + s - 4 <= q)).
  { intros q Hq. apply (beside_in_alloc st pre post bp s false q Ebp) in Hq.
    destruct Hq as [Hq|(Hq & _)]; [|discriminate]. split; [exact Hq|].
    apply (hole_rep_beside _ _ _ _ _ _ q H).
    apply (beside_base st); [apply remove_node_fields|exact Hq]. }
  destruct (remove_node_fields bp st) as (E1 & E2 & E3).
  assert (EF : first_blkp (remove_node bp st) = first_blkp st)
    by (unfold first_blkp; congruence).
  assert (Hlen : (length (remove Z.eq_dec bp L) < fuel)%nat).
  { pose proof (remove_length_lt Z.eq_dec L bp Hbp). lia. }
  destruct (read_hole _ _ _ _ _ _ _ H HT) as (R1 & R2 & R3).
  assert (NOT : ~ In bp (alloc_addrs (first_blkp st) (pre ++ (s, false) :: post))).
  { rewrite alloc_addrs_mid. simpl. rewrite in_app_iff. rewrite <- Ebp.
    intros [Hq|Hq]; [apply B1 in Hq|apply B2 in Hq]; consts; lia. }
  unfold allocate. cbv zeta. rewrite R1.
  rewrite (uint_small (s - adj)) by (consts; lia).
  destruct (Z.leb_spec MINIMUM_BLK_SIZE (s - adj)) as [Hsplit|Hwhole].
  - destruct (write_front_tags _ _ _ _ _ _ adj true H ltac:(consts; lia) HA')
      as (W0 & W1 & W2 & W3 & W4 & W5 & W6 & _ & W8).
    simpl Z.b2z in *. rewrite W0, W1.
    pose proof (hole_split _ _ _ _ _ _ _ W2 W3 HA HA' Hsplit) as H2.
    destruct (write_front_tags _ _ _ _ _ _ (s - adj) false H2 ltac:(consts; lia)
                ltac:(apply mod8_sub; assumption))
      as (V0 & _ & V2 & V3 & V4 & V5 & V6 & V7 & V8).
    simpl Z.b2z in *. rewrite V0.
    assert (NAF : no_adjacent_free ((pre ++ [(adj, true)]) ++ (s - adj, false) :: post)).
    { apply naf_hole; auto.
      - apply naf_join; [exact N1|simpl; auto|right; exact I].
      - intros _. split; [apply ends_alloc_snoc; reflexivity|exact N5]. }
    destruct (close_free fuel _ _ _ _ _ _ V2 V3 NAF Hlen)
      as (st' & EI & HI' & C1 & C2 & C3 & C4 & C5).
    rewrite EI. simpl bind.
    eexists st', _, _. split; [reflexivity|]. split; [exact HI'|].
    split; [congruence|]. split; [congruence|]. split; [congruence|].
    assert (BSZ : blk_size (mem st') bp = adj).
    { destruct HI' as [HF' HL' _ _ _].
      rewrite <- app_assoc in HL'. simpl in HL'.
      apply layout_app in HL'. destruct HL' as [_ HL']. simpl in HL'.
      destruct HL' as (_ & T & _).
      replace (first_blkp st') with (first_blkp st) in T by (unfold first_blkp; congruence).
      rewrite <- Ebp in T. unfold blk_size, GET_SIZE. rewrite T, tag_size by exact HA'.
      reflexivity. }
    split; [exact NOT|].
    split; [|split; [|split; [|split; [rewrite BSZ; consts; lia|split]]]].
    4: { rewrite BSZ. destruct (Z.leb_spec MINIMUM_BLK_SIZE (s - adj)); [reflexivity|lia]. }
    4: { intros _. split; [apply insert_sorted_in; left; reflexivity|exact C4]. }
    3: { intros q Hq. destruct (BQ q Hq) as [[Hq1|Hq1] CL].
         - rewrite C5, V8, W8, F0; try reflexivity; try (left; exact Hq1);
             try (consts; lia).
           left. unfold first_blkp. simpl heap_listp. rewrite E3. fold (first_blkp st).
           apply in_alloc_app. left. exact Hq1.
         - rewrite C5, V8, W8, F0; try reflexivity; try (right; exact Hq1);
             try (consts; lia).
           right. replace (bp + adj + (s - adj)) with (bp + s) by lia. exact Hq1. }
    + intros q. replace (first_blkp st') with (first_blkp st) by (unfold first_blkp; congruence).
      rewrite <- app_assoc. simpl. unfold alloc_addrs. rewrite !addrs_app. simpl.
      rewrite <- !Ebp. replace (bp + adj + (s - adj)) with (bp + s) by lia.
      rewrite ?in_app_iff; simpl. intuition congruence.
    + destruct HI' as [HF' HL' _ _ _].
      rewrite <- app_assoc in HL'. simpl in HL'.
      apply layout_app in HL'. destruct HL' as [_ HL']. simpl in HL'.
      destruct HL' as (_ & T & _).
      replace (first_blkp st') with (first_blkp st) in T by (unfold first_blkp; congruence).
      rewrite <- Ebp in T. unfold blk_size, GET_SIZE. rewrite T, tag_size by exact HA'. lia.
  - destruct (write_front_tags _ _ _ _ _ _ s true H ltac:(consts; lia) Hs')
      as (W0 & W1 & W2 & W3 & W4 & W5 & W6 & _ & W8).
    simpl Z.b2z in *. rewrite W0.
    assert (NAF : no_adjacent_free (pre ++ (s, true) :: post))
      by (apply naf_hole; auto; discriminate).
    pose proof (close_alloc _ _ _ _ _ _ W2 W3 NAF) as HI'.
    eexists _, _, _. split; [reflexivity|]. split; [exact HI'|].
    split; [congruence|]. split; [congruence|]. split; [simpl; congruence|].
    split; [exact NOT|].
    split; [|split; [|split; [|split; [rewrite (hole_tags_size _ _ _ _ Hs' W3); lia|split]]]].
    4: { rewrite (hole_tags_size _ _ _ _ Hs' W3).
         destruct (Z.leb_spec MINIMUM_BLK_SIZE (s - adj)); [lia|reflexivity]. }
    4: { intros X. lia. }
    + intros q. unfold first_blkp. simpl heap_listp. rewrite E3. fold (first_blkp st).
      rewrite !alloc_addrs_mid. simpl. rewrite <- !Ebp.
      rewrite !in_app_iff. simpl. intuition congruence.
    + rewrite (hole_tags_size _ _ _ _ Hs' W3). lia.
    + intros q Hq. destruct (BQ q Hq) as [Hq1 CL].
      rewrite W8, F0; try reflexivity; try exact Hq1; consts; lia.
Qed.

(** ** Growing the arena *)

(** The arena grows: the new bytes are a hole at the old arena end. *)
Lemma grow_hole st bs L ext m' :
  heap_inv st bs L -> MINIMUM_BLK_SIZE <= ext -> ext mod ALIGNMENT = 0 ->
  mem_brk st + ext <= mem_max_addr st ->
  (forall q, q + 4 <= mem_brk st - 4 -> GET_W m' q = GET_W (mem st) q) ->
  GET_W m' (mem_brk st + ext - 4) = PACK 0 1 ->
  hole_rep (mkState m' (mem_brk st + ext) (mem_max_addr st) (heap_listp st)
              (free_list_tail st)) bs [] L (mem_brk st) ext.
Proof.
  intros [HF HL Hbrk HP NAF] He He' Hmax F EP'.
  destruct HF as [B PH PF EP MX FL AS].
  pose proof (layout_total _ _ _ HL) as T.
  assert (HM : forall b, In b L -> first_blkp st <= b /\ b + MINIMUM_BLK_SIZE <= mem_brk st).
  { intros b Hb. apply (Permutation_in _ HP) in Hb.
    destruct (addrs_range _ _ _ _ _ HL Hb). lia. }
  unfold first_blkp in *. consts.
  split; unfold first_blkp; cbn [mem mem_brk mem_max_addr heap_listp free_list_tail]; consts.
  - split; unfold free_list; cbn [mem mem_brk mem_max_addr heap_listp free_list_tail];
      consts; try assumption; try lia.
    + rewrite F by lia. exact PH.
    + rewrite F by lia. exact PF.
    + apply (dll_frame (mem st)); [|exact FL].
      intros b Hb. destruct (HM b Hb). unfold GET_PREV_PTR, GET_NEXT_PTR.
      rewrite !F by lia. auto.
    + apply (ascending_frame (mem st)); [|exact AS].
      intros b Hb. destruct (HM b Hb). unfold blk_size, GET_SIZE. consts. rewrite F by lia.
      reflexivity.
  - lia.
  - apply (layout_frame (mem st)); [exact HL|]. intros q Q1 Q2 _. apply F. lia.
  - split; assumption.
  - exact I.
  - simpl. lia.
  - simpl. rewrite app_nil_r. exact HP.
Qed.

(** [extend_heap] on a number of words that stands for [ext] bytes. *)
Lemma extend_heap_words fuel st bs L ext words :
  heap_inv st bs L -> MINIMUM_BLK_SIZE <= ext < 2 ^ 32 -> ext mod ALIGNMENT = 0 ->
  uint (sint (if words mod 2 =? 0 then words else uint (words + 1)) * WSIZE) = ext ->
  (length L < fuel)%nat ->
  exists r st',
    extend_heap fuel words st = Some (r, st') /\
    ((r = NULL /\ st' = st /\ mem_max_addr st < mem_brk st + ext) \/
     (r <> NULL /\ exists bs' L',
        heap_inv st' bs' L' /\ In r L' /\ ext <= blk_size (mem st') r /\
        mem_brk st' = mem_brk st + ext /\ mem_max_addr st' = mem_max_addr st /\
        heap_listp st' = heap_listp st /\
        alloc_addrs (first_blkp st) bs' = alloc_addrs (first_blkp st) bs /\
        (length L' <= S (length L))%nat /\
        (forall q, in_alloc (first_blkp st) bs q -> GET_W (mem st') q = GET_W (mem st) q) /\
        (forall q, in_alloc (first_blkp st) bs q -> in_alloc (first_blkp st) bs' q))).
Proof.
  intros HI He He' Hw Hf. unfold extend_heap. rewrite Hw. clear Hw. consts.
  unfold mem_sbrk.
  destruct (Z.ltb_spec ext 0) as [|_]; [lia|]. simpl orb.
  destruct (Z.ltb_spec (mem_max_addr st) (mem_brk st + ext)) as [Hfail|Hok].
  - exists 0, st. split; [reflexivity|left; auto].
  - pose proof (hi_brk _ _ _ HI) as Hbrk. pose proof (hf_base _ _ (hi_frame _ _ _ HI)) as B.
    pose proof (hf_max _ _ (hi_frame _ _ _ HI)) as MX.
    pose proof (layout_total _ _ _ (hi_layout _ _ _ HI)) as T.
    unfold first_blkp in Hbrk. consts.
    set (bp := mem_brk st) in *.
    set (st1 := with_brk st (bp + ext)).
    assert (Ut : uint (PACK ext 0) = ext).
    { rewrite PACK_add by (assumption || lia). rewrite Z.add_0_r. apply uint_small. lia. }
    assert (Ls : Z.land ext (Z.lnot 7) = ext).
    { pose proof (tag_size ext false He') as X. unfold tag in X. simpl in X.
      rewrite Z.add_0_r in X. exact X. }
    assert (E2 : FTRP (mem (put (bp - 4) (PACK ext 0) st1)) bp = bp + ext - 8).
    { unfold FTRP, GET_SIZE, HDRP, WSIZE, DSIZE, put. simpl.
      rewrite GET_W_PUT_W_same, Ut, Ls. reflexivity. }
    rewrite E2.
    assert (E3 : FTRP (mem (put (bp + ext - 8) (PACK ext 0)
                              (put (bp - 4) (PACK ext 0) st1))) bp = bp + ext - 8).
    { unfold FTRP, GET_SIZE, HDRP, WSIZE, DSIZE, put. simpl.
      rewrite GET_W_PUT_W_other by lia.
      rewrite GET_W_PUT_W_same, Ut, Ls. reflexivity. }
    rewrite E3.
    set (st4 := put (bp + ext - 8 + 4) (PACK 0 1)
                  (put (bp + ext - 8) (PACK ext 0) (put (bp - 4) (PACK ext 0) st1))).
    assert (F4 : forall q, q + 4 <= bp - 4 -> GET_W (mem st4) q = GET_W (mem st) q)
      by (intros q Hq; unfold st4, put; simpl; mem_rw; reflexivity).
    assert (H : hole_rep st4 bs [] L bp ext).
    { apply (grow_hole st bs L ext (mem st4) HI); try (consts; lia); try assumption.
      unfold st4, put. simpl. fold bp. mem_rw. reflexivity. }
    assert (HT : hole_tags (mem st4) bp ext false).
    { unfold hole_tags, st4, put. simpl. consts. unfold tag. simpl. rewrite Z.add_0_r.
      split; mem_rw; exact Ut. }
    destruct (coalesce_spec fuel _ _ _ _ _ _ H HT (hi_naf _ _ _ HI) I Hf)
      as (bp' & st' & bs' & L' & EC & HI' & C0 & C1 & C2 & C3 & C4 & C5 & C6 & C7 & C8 & _).
    exists bp', st'. split; [exact EC|right].
    assert (bp' <> 0).
    { intros ->. apply (Permutation_in _ (hi_perm _ _ _ HI')) in C0.
      destruct (addrs_range _ _ _ _ _ (hi_layout _ _ _ HI') C0) as [X _].
      pose proof (hf_base _ _ (hi_frame _ _ _ HI')). unfold first_blkp in X. consts. lia. }
    split; [assumption|]. exists bs', L'.
    split; [exact HI'|]. split; [exact C0|]. split; [exact C1|].
    split; [exact C2|]. split; [exact C3|]. split; [exact C4|].
    split; [|split; [exact C6|]].
    { unfold first_blkp in C5 |- *. simpl heap_listp in C5. rewrite C5.
      unfold alloc_addrs. rewrite addrs_app. simpl. rewrite app_nil_r. reflexivity. }
    assert (BQ : forall q, in_alloc (first_blkp st) bs q ->
                   beside st4 bs [] bp ext q /\ q + 4 <= bp - 4).
    { intros q Hq. split; [left; exact Hq|].
      destruct (in_alloc_range _ _ _ _ (hi_layout _ _ _ HI) Hq) as [_ X].
      unfold first_blkp in X. consts. lia. }
    split; intros q Hq; destruct (BQ q Hq) as [Hq1 Hq2].
    + rewrite (C7 q Hq1). apply F4, Hq2.
    + apply (C8 q Hq1).
Qed.

Lemma extend_heap_spec fuel st bs L ext :
  heap_inv st bs L -> MINIMUM_BLK_SIZE <= ext < 2 ^ 31 -> ext mod ALIGNMENT = 0 ->
  (length L < fuel)%nat ->
  exists r st',
    extend_heap fuel (ext / WSIZE) st = Some (r, st') /\
    ((r = NULL /\ st' = st /\ mem_max_addr st < mem_brk st + ext) \/
     (r <> NULL /\ exists bs' L',
        heap_inv st' bs' L' /\ In r L' /\ ext <= blk_size (mem st') r /\
        mem_brk st' = mem_brk st + ext /\ mem_max_addr st' = mem_max_addr st /\
        heap_listp st' = heap_listp st /\
        alloc_addrs (first_blkp st) bs' = alloc_addrs (first_blkp st) bs /\
        (length L' <= S (length L))%nat /\
        (forall q, in_alloc (first_blkp st) bs q -> GET_W (mem st') q = GET_W (mem st) q) /\
        (forall q, in_alloc (first_blkp st) bs q -> in_alloc (first_blkp st) bs' q))).
Proof.
  intros HI He He' Hf.
  apply (extend_heap_words fuel st bs L ext (ext / WSIZE) HI); try assumption; [lia|].
  consts.
  assert (W : (ext / 4) mod 2 = 0 /\ (ext / 4) * 4 = ext /\ 0 <= ext / 4 < 2 ^ 31)
    by (Z.div_mod_to_equations; lia).
  destruct W as (W1 & W2 & W3).
  rewrite W1. simpl (0 =? 0). cbv iota. rewrite sint_small by lia.
  rewrite W2. apply uint_small. lia.
Qed.

(** ** Acquire and initialisation *)

Lemma heap_inv_member st bs L b :
  heap_inv st bs L -> In b L -> 16 <= b < 2 ^ 32.
Proof.
  intros HI Hb. apply (Permutation_in _ (hi_perm _ _ _ HI)) in Hb.
  destruct (addrs_range _ _ _ _ _ (hi_layout _ _ _ HI) Hb) as [X Y].
  pose proof (hf_base _ _ (hi_frame _ _ _ HI)). pose proof (hf_max _ _ (hi_frame _ _ _ HI)).
  pose proof (hi_brk _ _ _ HI). unfold first_blkp in *. consts. lia.
Qed.

Lemma sint_large x : 2 ^ 31 <= x < 2 ^ 32 -> sint x = x - 2 ^ 32.
Proof. intros H. unfold sint. Z.div_mod_to_equations. lia. Qed.

Lemma uint_sint x : 0 <= x < 2 ^ 32 -> uint (sint x) = x.
Proof.
  intros H. destruct (Z_lt_le_dec x (2 ^ 31)) as [Hlo|Hhi].
  - rewrite sint_small by lia. apply uint_small. lia.
  - rewrite sint_large by lia. unfold uint. Z.div_mod_to_equations. lia.
Qed.

(** The number of words [find_fitting_blk] asks for stands for the whole
    extension, also when the [int] it is kept in is negative. *)
Lemma extend_words_exact ext :
  0 <= ext < 2 ^ 32 -> ext mod ALIGNMENT = 0 ->
  uint (sint (if uint (Z.quot (sint ext) WSIZE) mod 2 =? 0
              then uint (Z.quot (sint ext) WSIZE)
              else uint (uint (Z.quot (sint ext) WSIZE) + 1)) * WSIZE) = ext.
Proof.
  intros H H8. consts. destruct (Z_lt_le_dec ext (2 ^ 31)) as [Hlo|Hhi].
  - rewrite (sint_small ext) by lia. rewrite Z.quot_div_nonneg by lia.
    assert (W : (ext / 4) mod 2 = 0 /\ (ext / 4) * 4 = ext /\ 0 <= ext / 4 < 2 ^ 31)
      by (Z.div_mod_to_equations; lia).
    destruct W as (W1 & W2 & W3).
    rewrite (uint_small (ext / 4)) by lia. rewrite W1. simpl (0 =? 0). cbv iota.
    rewrite sint_small by lia. rewrite W2. apply uint_small. lia.
  - rewrite (sint_large ext) by lia.
    set (k := (2 ^ 32 - ext) / 4).
    assert (K : ext - 2 ^ 32 = (- k) * 4 /\ 0 < k <= 2 ^ 29 /\ k mod 2 = 0)
      by (unfold k; Z.div_mod_to_equations; lia).
    destruct K as (K1 & K2 & K3). rewrite K1, Z.quot_mul by lia.
    assert (U : uint (- k) = 2 ^ 32 - k) by (unfold uint; Z.div_mod_to_equations; lia).
    rewrite U.
    assert (E : (2 ^ 32 - k) mod 2 = 0) by (Z.div_mod_to_equations; lia).
    rewrite E. simpl (0 =? 0). cbv iota.
    rewrite (sint_large (2 ^ 32 - k)) by lia.
    unfold uint. Z.div_mod_to_equations. lia.
Qed.

Lemma find_fitting_blk_spec fuel st bs L req :
  heap_inv st bs L -> MINIMUM_BLK_SIZE <= req < 2 ^ 32 -> req mod ALIGNMENT = 0 ->
  (length L < fuel)%nat ->
  exists r st',
    find_fitting_blk fuel req st = Some (r, st') /\
    ((r = NULL /\ st' = st /\
      (forall b, In b L -> blk_size (mem st) b < req) /\
      mem_max_addr st < mem_brk st + MAX req CHUNKSIZE) \/
     (r <> NULL /\ exists bs' L',
        heap_inv st' bs' L' /\ In r L' /\ req <= blk_size (mem st') r /\
        mem_max_addr st' = mem_max_addr st /\ heap_listp st' = heap_listp st /\
        alloc_addrs (first_blkp st) bs' = alloc_addrs (first_blkp st) bs /\
        (length L' <= S (length L))%nat /\
        (forall q, in_alloc (first_blkp st) bs q -> GET_W (mem st') q = GET_W (mem st) q) /\
        (forall q, in_alloc (first_blkp st) bs q -> in_alloc (first_blkp st) bs' q) /\
        ((r = first_fit (mem st) req L /\ In r L /\ st' = st) \/
         ((forall b, In b L -> blk_size (mem st) b < req) /\
          mem_brk st' = mem_brk st + MAX req CHUNKSIZE)))).
Proof.
  intros HI Hr Hr' Hf. unfold find_fitting_blk.
  rewrite (find_walk_spec _ req L fuel _ NULL (hf_list _ _ (hi_frame _ _ _ HI)) Hf).
  simpl bind.
  destruct (first_fit_cases (mem st) req L) as [[E Hlt]|[Hin Hsz]].
  - rewrite E. change (NULL =? 0) with true. cbv iota.
    set (ext := MAX req CHUNKSIZE).
    assert (He : MINIMUM_BLK_SIZE <= ext < 2 ^ 32 /\ ext mod ALIGNMENT = 0).
    { unfold ext, MAX. change CHUNKSIZE with 4096.
      destruct (Z.ltb_spec 4096 req); consts; [lia|]. split; [lia|reflexivity]. }
    destruct He as [He He'].
    destruct (extend_heap_words fuel st bs L ext (uint (Z.quot (sint ext) WSIZE))
                HI He He' (extend_words_exact ext ltac:(consts; lia) He') Hf)
      as (r & st' & EE & [(-> & -> & X0)|(Hne & bs' & L' & X1 & X2 & X3 & X4 & X5 & X6 & X7 & X8
                                          & X9 & X10)]).
    + exists NULL, st. split; [exact EE|left; auto].
    + exists r, st'. split; [exact EE|right]. split; [exact Hne|]. exists bs', L'.
      assert (req <= ext) by (unfold ext, MAX; destruct (Z.ltb_spec CHUNKSIZE req); lia).
      splits; auto; lia.
  - pose proof (heap_inv_member _ _ _ _ HI Hin) as Hb.
    destruct (Z.eqb_spec (first_fit (mem st) req L) 0) as [E|_]; [lia|].
    eexists _, st. split; [reflexivity|right]. split; [unfold NULL; lia|].
    exists bs, L. splits; auto.
Qed.

(** Where the sum does not wrap around in a [size_t], the adjusted size,
    read back as the [size_t] the callees take, is the rounded-up sum. *)
Lemma adjusted_size_word size :
  1 <= size -> size + 15 < 2 ^ 32 ->
  uint (adjusted_size size) = round_up (size + DSIZE) ALIGNMENT /\
  uint (adjusted_size size) mod ALIGNMENT = 0 /\
  MINIMUM_BLK_SIZE <= uint (adjusted_size size).
Proof.
  intros H1 H2. unfold adjusted_size. consts.
  rewrite (uint_small (size + 8)) by lia.
  rewrite ALIGN_round_up by lia. unfold round_up.
  assert (E : 0 <= 8 * ((size + 8 + 8 - 1) / 8) < 2 ^ 32)
    by (Z.div_mod_to_equations; lia).
  rewrite uint_sint by lia.
  split; [reflexivity|]. split; Z.div_mod_to_equations; lia.
Qed.

Lemma mm_malloc_word_spec fuel st bs L size :
  heap_inv st bs L -> 1 <= size -> size + 15 < 2 ^ 32 -> (length L < fuel)%nat ->
  exists r st',
    mm_malloc fuel size st = Some (r, st') /\
    ((r = NULL /\ st' = st /\
      (forall b, In b L -> blk_size (mem st) b < uint (adjusted_size size)) /\
      mem_max_addr st < mem_brk st + MAX (uint (adjusted_size size)) CHUNKSIZE) \/
     (r <> NULL /\ exists bs' L',
        heap_inv st' bs' L' /\
        mem_max_addr st' = mem_max_addr st /\ heap_listp st' = heap_listp st /\
        ~ In r (alloc_addrs (first_blkp st) bs) /\
        (forall q, In q (alloc_addrs (first_blkp st') bs') <->
                   q = r \/ In q (alloc_addrs (first_blkp st) bs)) /\
        size + DSIZE <= blk_size (mem st') r /\
        (forall q, in_alloc (first_blkp st) bs q -> GET_W (mem st') q = GET_W (mem st) q) /\
        ((r = first_fit (mem st) (uint (adjusted_size size)) L /\ In r L /\
          mem_brk st' = mem_brk st /\
          blk_size (mem st') r
          = (if MINIMUM_BLK_SIZE <=? blk_size (mem st) r - uint (adjusted_size size)
             then uint (adjusted_size size) else blk_size (mem st) r) /\
          (MINIMUM_BLK_SIZE <= blk_size (mem st) r - uint (adjusted_size size) ->
           In (r + uint (adjusted_size size)) L' /\
           blk_size (mem st') (r + uint (adjusted_size size))
           = blk_size (mem st) r - uint (adjusted_size size))) \/
         ((forall b, In b L -> blk_size (mem st) b < uint (adjusted_size size)) /\
          mem_brk st' = mem_brk st + MAX (uint (adjusted_size size)) CHUNKSIZE)) /\
        uint (adjusted_size size) <= blk_size (mem st') r < uint (adjusted_size size) + MINIMUM_BLK_SIZE)).
Proof.
  intros HI H1 H2 Hf. unfold mm_malloc.
  destruct (Z.eqb_spec size 0) as [|_]; [lia|].
  destruct (adjusted_size_word size H1 H2) as (A1 & A2 & A3).
  assert (A4 : size + DSIZE <= uint (adjusted_size size) < 2 ^ 32).
  { rewrite A1. unfold round_up. consts. Z.div_mod_to_equations. lia. }
  set (adj := uint (adjusted_size size)) in *.
  destruct (find_fitting_blk_spec fuel st bs L adj HI ltac:(consts; lia) A2 Hf)
    as (bp & st1 & EF & [(-> & -> & X0)|(Hne & bs1 & L1 & X1 & X2 & X3 & X4 & X5 & X6 & X7
                                         & X8 & X9 & X10)]);
    rewrite EF; simpl bind.
  - exists NULL, st. split; [reflexivity|left; auto].
  - destruct (Z.eqb_spec bp 0) as [|_]; [unfold NULL in Hne; lia|].
    destruct (allocate_spec fuel st1 bs1 L1 bp adj X1 X2 X3 A3 A2 ltac:(lia))
      as (st' & bs' & L' & EA & Y1 & Y2 & Y3 & Y4 & Y5 & Y6 & Y7 & Y8 & Y9 & Y10 & Y11).
    exists bp, st'. split; [exact EA|right]. split; [exact Hne|]. exists bs', L'.
    assert (EP : first_blkp st1 = first_blkp st) by (unfold first_blkp; congruence).
    rewrite EP, X6 in Y5, Y6. rewrite EP in Y8.
    assert (FR : forall q, in_alloc (first_blkp st) bs q ->
                   GET_W (mem st') q = GET_W (mem st) q).
    { intros q Hq. rewrite (Y8 q (X9 q Hq)). apply X8, Hq. }
    assert (GR : (bp = first_fit (mem st) adj L /\ In bp L /\ mem_brk st' = mem_brk st /\
                  blk_size (mem st') bp
                  = (if MINIMUM_BLK_SIZE <=? blk_size (mem st) bp - adj then adj
                     else blk_size (mem st) bp) /\
                  (MINIMUM_BLK_SIZE <= blk_size (mem st) bp - adj ->
                   In (bp + adj) L' /\
                   blk_size (mem st') (bp + adj) = blk_size (mem st) bp - adj)) \/
                 ((forall b, In b L -> blk_size (mem st) b < adj) /\
                  mem_brk st' = mem_brk st + MAX adj CHUNKSIZE)).
    { destruct X10 as [(G1 & G2 & G3)|(G1 & G2)]; [left|right].
      - subst st1. auto.
      - split; [exact G1|congruence]. }
    splits; auto; try congruence; try lia.
Qed.

Lemma mm_malloc_spec fuel st bs L size :
  heap_inv st bs L -> 1 <= size -> size + 15 < 2 ^ 31 -> (length L < fuel)%nat ->
  exists r st',
    mm_malloc fuel size st = Some (r, st') /\
    ((r = NULL /\ st' = st /\
      (forall b, In b L -> blk_size (mem st) b < adjusted_size size) /\
      mem_max_addr st < mem_brk st + MAX (adjusted_size size) CHUNKSIZE) \/
     (r <> NULL /\ exists bs' L',
        heap_inv st' bs' L' /\
        mem_max_addr st' = mem_max_addr st /\ heap_listp st' = heap_listp st /\
        ~ In r (alloc_addrs (first_blkp st) bs) /\
        (forall q, In q (alloc_addrs (first_blkp st') bs') <->
                   q = r \/ In q (alloc_addrs (first_blkp st) bs)) /\
        size + DSIZE <= blk_size (mem st') r /\
        (forall q, in_alloc (first_blkp st) bs q -> GET_W (mem st') q = GET_W (mem st) q) /\
        ((r = first_fit (mem st) (adjusted_size size) L /\ In r L /\
          mem_brk st' = mem_brk st /\
          blk_size (mem st') r
          = (if MINIMUM_BLK_SIZE <=? blk_size (mem st) r - adjusted_size size
             then adjusted_size size else blk_size (mem st) r) /\
          (MINIMUM_BLK_SIZE <= blk_size (mem st) r - adjusted_size size ->
           In (r + adjusted_size size) L' /\
           blk_size (mem st') (r + adjusted_size size)
           = blk_size (mem st) r - adjusted_size size)) \/
         ((forall b, In b L -> blk_size (mem st) b < adjusted_size size) /\
          mem_brk st' = mem_brk st + MAX (adjusted_size size) CHUNKSIZE)) /\
        adjusted_size size <= blk_size (mem st') r < adjusted_size size + MINIMUM_BLK_SIZE)).
Proof.
  intros HI H1 H2 Hf.
  pose proof (mm_malloc_word_spec fuel st bs L size HI H1 ltac:(lia) Hf) as X.
  destruct (adjusted_size_round_up size H1 H2) as (A1 & A2 & A3).
  rewrite (uint_small (adjusted_size size)) in X.
  - exact X.
  - rewrite A1. unfold round_up. consts. Z.div_mod_to_equations. lia.
Qed.

Lemma mm_init_spec fuel st :
  0 <= mem_brk st -> mem_max_addr st <= 2 ^ 32 -> (0 < fuel)%nat ->
  exists r st',
    mm_init fuel st = Some (r, st') /\
    (r = -1 \/
     (r = 0 /\ exists bs L,
        heap_inv st' bs L /\ alloc_addrs (first_blkp st') bs = [] /\
        mem_max_addr st' = mem_max_addr st /\ heap_listp st' = mem_brk st + DSIZE /\
        mem_brk st' = mem_brk st + 16 + 4096)) /\
    (r = 0 <-> mem_brk st + 16 + 4096 <= mem_max_addr st).
Proof.
  intros H0 Hmax Hf. unfold mm_init, mem_sbrk. consts.
  change (4 * 4) with 16. change (16 <? 0) with false. cbv [orb].
  destruct (Z.ltb_spec (mem_max_addr st) (mem_brk st + 16)) as [Hfail|Hok].
  - eexists _, _. split; [reflexivity|]. split; [left; reflexivity|]. lia.
  - cbv zeta.
    set (p := mem_brk st) in *.
    match goal with |- context [extend_heap fuel _ ?s] => set (st1 := s) end.
    assert (HI : heap_inv st1 [] []).
    { split; [split|..]; unfold st1, first_blkp, free_list, put;
        cbn [mem mem_brk mem_max_addr heap_listp free_list_tail with_heap_listp with_tail
             with_mem with_brk]; consts; simpl; try lia; try reflexivity; try exact I;
        try (mem_rw; reflexivity). }
    change (CHUNKSIZE / 4) with (4096 / WSIZE).
    destruct (extend_heap_spec fuel st1 [] [] 4096 HI ltac:(consts; lia) eq_refl Hf)
      as (r & st' & EE & [(-> & -> & X0)|(Hne & bs' & L' & X1 & X2 & X3 & X4 & X5 & X6 & X7 & X8)]);
      rewrite EE; simpl bind.
    + eexists _, _. split; [reflexivity|]. split; [left; reflexivity|].
      unfold st1 in X0. simpl in X0. lia.
    + destruct (Z.eqb_spec r 0) as [|_]; [unfold NULL in Hne; lia|].
      pose proof (hf_max _ _ (hi_frame _ _ _ X1)) as MX.
      assert (EB : mem_brk st' = p + 16 + 4096) by (rewrite X4; reflexivity).
      assert (EM : mem_max_addr st' = mem_max_addr st) by (rewrite X5; reflexivity).
      eexists _, _. split; [reflexivity|].
      split; [right|split; [intros _; clear - MX EB EM; lia|reflexivity]].
      split; [reflexivity|].
      exists bs', L'. split; [exact X1|].
      replace (first_blkp st') with (first_blkp st1) by (unfold first_blkp; congruence).
      rewrite X7. splits; auto.
Qed.

(** ** More fuel never changes a result *)

Lemma mono_const {A} (c : option A) : mono (fun _ => c).
Proof. intros n n' x H _. exact H. Qed.

Lemma mono_bind {A B} (f : nat -> option A) (k : nat -> A -> option B) :
  mono f -> (forall y, mono (fun n => k n y)) -> mono (fun n => bind (f n) (k n)).
Proof.
  intros Hf Hk n n' x H Hn. unfold bind in *.
  destruct (f n) as [y|] eqn:E; [|discriminate].
  rewrite (Hf _ _ _ E Hn). exact (Hk y _ _ _ H Hn).
Qed.

Lemma mono_if {A} (c : bool) (f g : nat -> option A) :
  mono f -> mono g -> mono (fun n => if c then f n else g n).
Proof. destruct c; auto. Qed.

Lemma insert_walk_mono m s : forall p nx, mono (fun n => insert_walk n m s p nx).
Proof.
  intros p nx n. revert p nx.
  induction n as [|n IH]; intros p nx n' x H Hn; [discriminate|].
  destruct n' as [|n']; [lia|]. simpl in *.
  destruct (negb (p =? 0) && (GET_SIZE m (HDRP p) <? s)); [|exact H].
  apply (IH _ _ _ _ H). lia.
Qed.

Lemma find_walk_mono m s : forall p, mono (fun n => find_walk n m s p).
Proof.
  intros p n. revert p.
  induction n as [|n IH]; intros p n' x H Hn; [discriminate|].
  destruct n' as [|n']; [lia|]. simpl in *.
  destruct (negb (p =? 0) && (GET_SIZE m (HDRP p) <? s)); [|exact H].
  apply (IH _ _ _ H). lia.
Qed.

Lemma insert_node_mono bp s st : mono (fun n => insert_node n bp s st).
Proof.
  unfold insert_node. apply mono_bind; [apply insert_walk_mono|].
  intros [prev next]. apply mono_const.
Qed.

Lemma coalesce_mono bp st : mono (fun n => coalesce n bp st).
Proof.
  unfold coalesce. cbv zeta.
  destruct (coalesce_next _ _ _ _ _) as [sz st1].
  destruct (coalesce_prev _ _ _ _ _) as [bp1 st2].
  apply mono_bind; [apply insert_node_mono|]. intros y. apply mono_const.
Qed.

Lemma extend_heap_mono words st : mono (fun n => extend_heap n words st).
Proof.
  unfold extend_heap. cbv zeta. destruct (mem_sbrk _ _) as [[bp|] st1].
  - apply coalesce_mono.
  - apply mono_const.
Qed.

Lemma allocate_mono bp s st : mono (fun n => allocate n bp s st).
Proof.
  unfold allocate. cbv zeta. apply mono_if; [|apply mono_const].
  apply mono_bind; [apply insert_node_mono|]. intros y. apply mono_const.
Qed.

Lemma find_fitting_blk_mono s st : mono (fun n => find_fitting_blk n s st).
Proof.
  unfold find_fitting_blk. apply mono_bind; [apply find_walk_mono|].
  intros bp. apply mono_if; [apply extend_heap_mono|apply mono_const].
Qed.

Lemma mm_malloc_mono size st : mono (fun n => mm_malloc n size st).
Proof.
  unfold mm_malloc. apply mono_if; [apply mono_const|]. cbv zeta.
  apply mono_bind; [apply find_fitting_blk_mono|].
  intros [bp st1]. apply mono_if; [apply mono_const|apply allocate_mono].
Qed.

Lemma mm_free_mono p st : mono (fun n => mm_free n p st).
Proof.
  unfold mm_free. cbv zeta. apply mono_bind; [apply coalesce_mono|].
  intros [bp st1]. apply mono_const.
Qed.

Lemma mm_init_mono st : mono (fun n => mm_init n st).
Proof.
  unfold mm_init. destruct (mem_sbrk _ _) as [[p|] st1]; [|apply mono_const].
  cbv zeta. apply mono_bind; [apply extend_heap_mono|].
  intros [bp st2]. apply mono_const.
Qed.

(** ** From the representation to what a checker observes *)

Lemma layout_walk m bs : forall p,
  layout m p bs -> GET_SIZE m (HDRP (p + total bs)) = 0 ->
  heap_walk m p (all_addrs p bs).
Proof.
  induction bs as [|[s a] bs IH]; simpl; intros p H E.
  - apply heap_walk_end. rewrite Z.add_0_r in E. exact E.
  - destruct H as ((Hs & Hs') & T1 & _ & H).
    assert (ES : GET_SIZE m (HDRP p) = s) by (unfold GET_SIZE; rewrite T1; apply tag_size, Hs').
    apply heap_walk_step; [consts; lia|].
    unfold NEXT_BLKP. fold (HDRP p). rewrite ES.
    apply IH; [exact H|]. rewrite <- E. f_equal. f_equal. lia.
Qed.

Lemma layout_tags_eq m bs : forall p b,
  layout m p bs -> In b (all_addrs p bs) -> GET_W m (HDRP b) = GET_W m (FTRP m b).
Proof.
  induction bs as [|[s a] bs IH]; simpl; intros p b H Hb; [contradiction|].
  destruct H as ((Hs & Hs') & T1 & T2 & H). destruct Hb as [<-|Hb]; [|eauto].
  unfold FTRP, GET_SIZE. rewrite T1, tag_size by exact Hs'. rewrite T2. reflexivity.
Qed.

Lemma layout_alloc_bit m p s a bs :
  layout m p ((s, a) :: bs) -> GET_ISALLOCATED m (HDRP p) = Z.b2z a.
Proof.
  simpl. intros ((Hs & Hs') & T1 & _). unfold GET_ISALLOCATED. rewrite T1.
  apply tag_alloc, Hs'.
Qed.

Lemma layout_no_two_free m bs : forall p,
  layout m p bs -> no_adjacent_free bs -> no_two_free m (all_addrs p bs).
Proof.
  induction bs as [|[s a] bs IH]; intros p H N; [exact I|].
  pose proof (layout_alloc_bit _ _ _ _ _ H) as E.
  simpl in H, N. destruct H as (_ & _ & _ & H). destruct N as [N1 N2].
  change (all_addrs p ((s, a) :: bs)) with (p :: all_addrs (p + s) bs).
  split; [|apply IH; assumption].
  destruct bs as [|[s' a'] bs]; [exact I|].
  change (all_addrs (p + s) ((s', a') :: bs)) with ((p + s) :: all_addrs (p + s + s') bs).
  rewrite E, (layout_alloc_bit _ _ _ _ _ H).
  intros [E1 E2]. destruct a; [discriminate|]. specialize (N1 eq_refl). simpl in N1.
  destruct a'; [discriminate|contradiction].
Qed.

Lemma layout_free_iff m bs : forall p b,
  layout m p bs ->
  (In b (free_addrs p bs) <->
   In b (all_addrs p bs) /\ GET_ISALLOCATED m (HDRP b) = 0).
Proof.
  induction bs as [|[s a] bs IH]; intros p b H; [simpl; tauto|].
  pose proof (layout_alloc_bit _ _ _ _ _ H) as E.
  simpl in H. destruct H as ((Hs & _) & _ & _ & H).
  specialize (IH (p + s) b H).
  assert (R : In b (all_addrs (p + s) bs) -> b <> p).
  { intros Hb. destruct (addrs_range _ _ _ _ _ H Hb). consts. lia. }
  unfold free_addrs, all_addrs in *. simpl. destruct a; simpl in *.
  - rewrite IH. split; [tauto|]. intros [[<-|Hb] Hz]; [lia|tauto].
  - rewrite IH. split.
    + intros [<-|Hb]; [auto|tauto].
    + intros [[<-|Hb] Hz]; [auto|tauto].
Qed.

Lemma heap_inv_consistent st bs L : heap_inv st bs L -> consistent st.
Proof.
  intros [HF HL Hbrk HP NAF]. destruct HF as [B PH PF EP MX FL AS].
  assert (S8 : GET_SIZE (mem st) (HDRP (heap_listp st)) = 8)
    by (unfold GET_SIZE; rewrite PH; reflexivity).
  assert (A1 : GET_ISALLOCATED (mem st) (HDRP (heap_listp st)) = 1)
    by (unfold GET_ISALLOCATED; rewrite PH; reflexivity).
  assert (N8 : NEXT_BLKP (mem st) (heap_listp st) = first_blkp st)
    by (unfold NEXT_BLKP; fold (HDRP (heap_listp st)); rewrite S8; reflexivity).
  exists (heap_listp st :: all_addrs (first_blkp st) bs), L.
  split; [|split; [exact FL|split; [|split]]].
  - apply heap_walk_step; [lia|]. rewrite N8. apply layout_walk; [exact HL|].
    rewrite Hbrk. unfold GET_SIZE. rewrite EP. reflexivity.
  - intros b [<-|Hb]; [|eapply layout_tags_eq; eassumption].
    unfold FTRP. rewrite S8, PH. replace (heap_listp st + 8 - DSIZE) with (heap_listp st)
      by (consts; lia). symmetry. exact PF.
  - split; [|apply layout_no_two_free; assumption].
    destruct (all_addrs (first_blkp st) bs); [exact I|]. rewrite A1. intros [X _]. discriminate.
  - intros b. split.
    + intros Hb. apply (Permutation_in _ HP) in Hb.
      apply (layout_free_iff _ _ _ _ HL) in Hb. simpl. tauto.
    + intros [[<-|Hb] Hz]; [rewrite A1 in Hz; discriminate|].
      apply (Permutation_in _ (Permutation_sym HP)).
      apply (layout_free_iff _ _ _ _ HL). tauto.
Qed.

(** ** Runs keep the representation *)

Lemma heap_inv_arena st bs L :
  heap_inv st bs L -> 0 <= mem_brk st /\ mem_max_addr st <= 2 ^ 32.
Proof.
  intros HI. pose proof (hf_base _ _ (hi_frame _ _ _ HI)).
  pose proof (hf_max _ _ (hi_frame _ _ _ HI)). pose proof (hi_brk _ _ _ HI).
  pose proof (layout_total _ _ _ (hi_layout _ _ _ HI)). unfold first_blkp in *. consts. lia.
Qed.

Lemma reachable_word_heap_inv st live :
  reachable word_sized st live ->
  exists bs L, heap_inv st bs L /\
    forall p, In p live <-> In p (alloc_addrs (first_blkp st) bs).
Proof.
  induction 1 as [fuel st0 st H0 H1 E|fuel st live st' _ IH E
                  |fuel st live size p st' _ IH Hok E|fuel st live p st' _ IH Hp E].
  - destruct (mm_init_spec (Nat.max fuel 1) st0 H0 H1 ltac:(lia)) as (r & st1 & E1 & HR & _).
    rewrite (mm_init_mono st0 fuel (Nat.max fuel 1) _ E ltac:(lia)) in E1. injection E1 as <- <-.
    destruct HR as [HR|(_ & bs & L & HI & HA & _)]; [discriminate|].
    exists bs, L. split; [exact HI|]. rewrite HA. tauto.
  - destruct IH as (bs0 & L0 & HI0 & _). destruct (heap_inv_arena _ _ _ HI0) as [H0 H1].
    destruct (mm_init_spec (Nat.max fuel 1) st H0 H1 ltac:(lia)) as (r & st1 & E1 & HR & _).
    rewrite (mm_init_mono st fuel (Nat.max fuel 1) _ E ltac:(lia)) in E1. injection E1 as <- <-.
    destruct HR as [HR|(_ & bs & L & HI & HA & _)]; [discriminate|].
    exists bs, L. split; [exact HI|]. rewrite HA. tauto.
  - destruct IH as (bs & L & HI & HL). destruct Hok as [S0 S1].
    destruct (Z.eq_dec size 0) as [->|Hne].
    + change (mm_malloc fuel 0 st) with (Some (NULL, st)) in E. injection E as <- <-.
      exists bs, L. auto.
    + destruct (mm_malloc_word_spec (Nat.max fuel (S (length L))) st bs L size HI
                  ltac:(lia) S1 ltac:(lia)) as (r & st1 & E1 & HR).
      rewrite (mm_malloc_mono size st fuel (Nat.max fuel (S (length L))) _ E ltac:(lia)) in E1. injection E1 as <- <-.
      destruct HR as [(-> & -> & _)|(Hnn & bs' & L' & HI' & _ & _ & _ & HA & _)].
      * exists bs, L. auto.
      * replace (p =? NULL) with false by (symmetry; apply Z.eqb_neq; exact Hnn).
        exists bs', L'. split; [exact HI'|]. intros q. rewrite HA, <- HL. simpl.
        split; intros [X|X]; auto.
  - destruct IH as (bs & L & HI & HL).
    destruct (mm_free_spec (Nat.max fuel (S (length L))) st bs L p HI
                ltac:(apply HL; exact Hp) ltac:(lia))
      as (st1 & bs' & L' & E1 & HI' & _ & _ & _ & HA & _).
    rewrite (mm_free_mono p st fuel (Nat.max fuel (S (length L))) _ E ltac:(lia)) in E1. injection E1 as <-.
    exists bs', L'. split; [exact HI'|]. intros q. rewrite HA, <- HL. split.
    + intros X. apply in_remove in X. exact X.
    + intros [X Y]. apply in_in_remove; assumption.
Qed.

(** A run with a narrower range of request sizes is a run. *)
Lemma reachable_mono (ok ok' : Z -> Prop) st live :
  (forall size, ok size -> ok' size) -> reachable ok st live -> reachable ok' st live.
Proof.
  intros H R.
  induction R as [fuel st0 st H0 H1 E|fuel st live st' _ IH E
                 |fuel st live size p st' _ IH Hok E|fuel st live p st' _ IH Hp E].
  - eapply reach_init; eassumption.
  - eapply reach_init_again; eassumption.
  - eapply reach_malloc; [exact IH|apply H, Hok|exact E].
  - eapply reach_free; eassumption.
Qed.

Lemma int_sized_word_sized size : int_sized size -> word_sized size.
Proof. intros [A B]. split; lia. Qed.

Lemma reachable_heap_inv st live :
  reachable int_sized st live ->
  exists bs L, heap_inv st bs L /\
    forall p, In p live <-> In p (alloc_addrs (first_blkp st) bs).
Proof.
  intros R. apply reachable_word_heap_inv.
  apply (reachable_mono int_sized word_sized _ _ int_sized_word_sized R).
Qed.

Lemma dll_unique m L : forall L' nxt p, dll m nxt p L -> dll m nxt p L' -> L = L'.
Proof.
  induction L as [|b L IH]; intros [|b' L'] nxt p H H'; simpl in *; try reflexivity.
  - destruct H' as (-> & Hb & _). contradiction.
  - destruct H as (-> & Hb & _). contradiction.
  - destruct H as (-> & Hb & Hn & H). destruct H' as (<- & _ & _ & H').
    f_equal. eapply IH; eassumption.
Qed.

Lemma heap_walk_inv m bp l :
  heap_walk m bp l -> GET_SIZE m (HDRP bp) <> 0 ->
  exists l', l = bp :: l' /\ heap_walk m (NEXT_BLKP m bp) l'.
Proof. intros [bp0 Z0|bp0 l0 N0 HW] N; [contradiction|eauto]. Qed.

(** ** The invariants at every observation point *)

(** C3, for runs that start with a successful [mm_init] in an arena below
    2^32, in which every later [mm_init] succeeds too, whose request sizes
    have an adjusted size that does not wrap around ([size + 15 < 2^32]) and
    that free only pointers returned since the last [mm_init] and not freed
    since: at every observation point the heap walk and the free-list walk
    end, (a) every block's header word equals its footer word, (b) no two
    physically adjacent blocks are both free, and (c) the blocks the
    free-list walk visits are exactly the blocks whose header marks them
    free.  From that point every further call returns, given enough fuel. *)
Theorem reachable_consistent (st : state) (live : list Z) :
  reachable word_sized st live ->
  consistent st /\
  exists fuel0, forall fuel, (fuel0 <= fuel)%nat ->
    (exists r st', mm_init fuel st = Some (r, st')) /\
    (forall size, word_sized size -> exists p st', mm_malloc fuel size st = Some (p, st')) /\
    (forall p, In p live -> exists st', mm_free fuel p st = Some st').
Proof.
  intros R. destruct (reachable_word_heap_inv st live R) as (bs & L & HI & HL).
  split; [eapply heap_inv_consistent; exact HI|].
  exists (S (length L)). intros fuel Hf. destruct (heap_inv_arena _ _ _ HI) as [H0 H1].
  split; [|split].
  - destruct (mm_init_spec fuel st H0 H1 ltac:(lia)) as (r & st' & E & _). eauto.
  - intros size [S0 S1]. destruct (Z.eq_dec size 0) as [->|Hne].
    + exists NULL, st. reflexivity.
    + destruct (mm_malloc_word_spec fuel st bs L size HI ltac:(lia) S1 ltac:(lia))
        as (r & st' & E & _). eauto.
  - intros p Hp.
    destruct (mm_free_spec fuel st bs L p HI ltac:(apply HL; exact Hp) ltac:(lia))
      as (st' & bs' & L' & E & _). eauto.
Qed.

(** The run init; A = acquire(100); B = acquire(50); acquire(3000000000),
    which fails; release(A). *)
Lemma state_two_free_run : reachable word_sized state_two_free [65664].
Proof.
  assert (R0 : reachable word_sized state_init []).
  { apply (reach_init word_sized 8 (arena0 8192) state_init);
      [vm_compute; congruence|vm_compute; congruence|vm_compute; reflexivity]. }
  assert (R1 : reachable word_sized
                 (state_of (mm_malloc 8 100 state_init) state_init) [65552]).
  { apply (reach_malloc word_sized 8 state_init [] 100 65552 _ R0);
      [unfold word_sized; lia|vm_compute; reflexivity]. }
  assert (R2 : reachable word_sized state_two_live [65664; 65552]).
  { apply (reach_malloc word_sized 8 _ [65552] 50 65664 state_two_live R1);
      [unfold word_sized; lia|vm_compute; reflexivity]. }
  assert (R3 : reachable word_sized state_two_live [65664; 65552]).
  { apply (reach_malloc word_sized 8 state_two_live [65664; 65552] 3000000000 NULL
             state_two_live R2);
      [unfold word_sized; lia|vm_compute; reflexivity]. }
  apply (reach_free word_sized 8 state_two_live [65664; 65552] 65552 state_two_free R3);
    [right; left; reflexivity|vm_compute; reflexivity].
Qed.

Lemma reachable_consistent_witness :
  consistent state_two_free /\
  exists fuel0, forall fuel, (fuel0 <= fuel)%nat ->
    (exists r st', mm_init fuel state_two_free = Some (r, st')) /\
    (forall size, word_sized size ->
       exists p st', mm_malloc fuel size state_two_free = Some (p, st')) /\
    (forall p, In p [65664] -> exists st', mm_free fuel p state_two_free = Some st').
Proof.
  apply (reachable_consistent state_two_free [65664]).
  apply state_two_free_run.
Defined.

Lemma state_wrapped_reachable :
  reachable any_size state_wrapped [65568; 65552].
Proof.
  assert (R1 : reachable any_size state_init []).
  { apply (reach_init any_size 8 (arena0 8192) state_init);
      [vm_compute; congruence|vm_compute; congruence|vm_compute; reflexivity]. }
  assert (R2 : reachable any_size state_one_live [65552]).
  { apply (reach_malloc any_size 8 state_init [] 8 65552 state_one_live R1);
      [unfold any_size; lia|vm_compute; reflexivity]. }
  apply (reach_malloc any_size 8 state_one_live [65552] 4294967288 65568 state_wrapped R2);
    [unfold any_size; lia|vm_compute; reflexivity].
Qed.

Lemma state_wrapped_prologue :
  GET_SIZE (mem state_wrapped) (HDRP (heap_listp state_wrapped)) = 8 /\
  NEXT_BLKP (mem state_wrapped) (heap_listp state_wrapped) = 65552.
Proof. split; vm_compute; reflexivity. Qed.

Lemma state_wrapped_first_block :
  GET_SIZE (mem state_wrapped) (HDRP 65552) = 16 /\
  GET_W (mem state_wrapped) (HDRP 65552) = 17 /\
  GET_W (mem state_wrapped) (FTRP (mem state_wrapped) 65552) = 1.
Proof. repeat split; vm_compute; reflexivity. Qed.

(** C3 fails as stated: after init; A = acquire(8); acquire(4294967288) the
    block A = 65552 has the header word 17 and the footer word 1. *)
Lemma huge_request_breaks_the_heap :
  ~ (forall st live, reachable any_size st live -> consistent st).
Proof.
  intros C. destruct (C _ _ state_wrapped_reachable) as (blocks & L & HW & _ & HA & _).
  destruct state_wrapped_prologue as [O1 O2].
  destruct state_wrapped_first_block as (O3 & O4 & O5).
  assert (HIn : In 65552 blocks).
  { destruct (heap_walk_inv _ _ _ HW) as (l0 & -> & HW0); [rewrite O1; discriminate|].
    right. rewrite O2 in HW0.
    destruct (heap_walk_inv _ _ _ HW0) as (l1 & -> & _); [rewrite O3; discriminate|].
    left. reflexivity. }
  specialize (HA _ HIn). rewrite O4, O5 in HA. discriminate HA.
Qed.

(** *** Why the runs are restricted *)

Lemma heap_walk_end_inv m bp l :
  heap_walk m bp l -> GET_SIZE m (HDRP bp) = 0 -> l = [].
Proof. intros [bp0 Z0|bp0 l0 N0 HW] E; [reflexivity|contradiction]. Qed.

Lemma free_list_single st L :
  free_list st L -> free_list_tail st <> NULL ->
  GET_PREV_PTR (mem st) (free_list_tail st) = NULL -> L = [free_list_tail st].
Proof.
  unfold free_list. intros H Hne HP. destruct L as [|b L]; cbn [dll] in H.
  - contradiction.
  - destruct H as (E & _ & _ & H). rewrite <- E in H. rewrite HP in H. rewrite E.
    destruct L as [|b' L]; cbn [dll] in H; [reflexivity|].
    destruct H as (E' & Hb' & _). congruence.
Qed.

Lemma state_stale_run :
  mm_init 8 (arena0 16384) = Some (0, state_first) /\
  mm_malloc 8 8 state_first = Some (65552, state_first_live) /\
  mm_init 8 state_first_live = Some (0, state_again) /\
  mm_free 8 65552 state_again = Some state_stale.
Proof. repeat split; vm_compute; reflexivity. Qed.

Lemma state_stale_heap :
  heap_listp state_stale = 69656 /\
  GET_SIZE (mem state_stale) (HDRP 69656) = 8 /\
  NEXT_BLKP (mem state_stale) 69656 = 69664 /\
  GET_SIZE (mem state_stale) (HDRP 69664) = 4096 /\
  GET_ISALLOCATED (mem state_stale) (HDRP 69664) = 0 /\
  free_list_tail state_stale = 65552 /\
  GET_PREV_PTR (mem state_stale) 65552 = NULL.
Proof. repeat split; vm_compute; reflexivity. Qed.

(** A pointer returned before an [mm_init] may not be released after it:
    after init; A = acquire(8); init; release(A) the free list holds the old
    block A alone, and the block 69664 of the new heap is marked free and is
    not in the list. *)
Lemma release_across_init_breaks_the_index :
  mm_init 8 (arena0 16384) = Some (0, state_first) /\
  mm_malloc 8 8 state_first = Some (65552, state_first_live) /\
  mm_init 8 state_first_live = Some (0, state_again) /\
  mm_free 8 65552 state_again = Some state_stale /\
  ~ consistent state_stale.
Proof.
  destruct state_stale_run as (E1 & E2 & E3 & E4).
  split; [exact E1|]. split; [exact E2|]. split; [exact E3|]. split; [exact E4|].
  destruct state_stale_heap as (O1 & O2 & O3 & O4 & O5 & O6 & O7).
  intros (blocks & L & HW & HFL & _ & _ & HC).
  rewrite O1 in HW.
  destruct (heap_walk_inv _ _ _ HW) as (l0 & -> & HW0); [rewrite O2; lia|].
  rewrite O3 in HW0.
  destruct (heap_walk_inv _ _ _ HW0) as (l1 & -> & _); [rewrite O4; lia|].
  assert (HIn : In 69664 L) by (apply HC; split; [right; left; reflexivity|exact O5]).
  rewrite (free_list_single state_stale L HFL) in HIn.
  - rewrite O6 in HIn. destruct HIn as [X|[]]. lia.
  - rewrite O6. unfold NULL. lia.
  - rewrite O6. exact O7.
Qed.

Lemma state_lost_heap :
  mm_init 8 (arena0 4112) = Some (0, state_filled) /\
  mm_init 8 state_filled = Some (-1, state_lost) /\
  heap_listp state_lost = -1 /\
  GET_SIZE (mem state_lost) (HDRP (-1)) = 0 /\
  free_list_tail state_lost = 65552.
Proof. repeat split; vm_compute; reflexivity. Qed.

(** An [mm_init] that fails may leave no heap to observe: [mm_init] stores
    the result of [mem_sbrk] in [heap_listp] before it tests it, so after
    init; init in an arena that the first heap fills, [heap_listp] is the
    error value -1, from which no block is found, while the free list still
    holds the block of the first heap. *)
Lemma failed_init_loses_the_heap :
  mm_init 8 (arena0 4112) = Some (0, state_filled) /\
  mm_init 8 state_filled = Some (-1, state_lost) /\
  heap_listp state_lost = -1 /\
  ~ consistent state_lost.
Proof.
  destruct state_lost_heap as (E1 & E2 & O1 & O2 & O3).
  split; [exact E1|]. split; [exact E2|]. split; [exact O1|].
  intros (blocks & L & HW & HFL & _ & _ & HC).
  rewrite O1 in HW. apply heap_walk_end_inv in HW; [|exact O2]. subst blocks.
  unfold free_list in HFL. rewrite O3 in HFL.
  destruct L as [|b L]; cbn [dll] in HFL; [unfold NULL in HFL; lia|].
  destruct (proj1 (HC b) (or_introl eq_refl)) as [[] _].
Qed.

(** ** The free-list index *)

Lemma insert_node_fields fuel bp s st st' :
  insert_node fuel bp s st = Some st' ->
  mem_brk st' = mem_brk st /\ mem_max_addr st' = mem_max_addr st /\
  heap_listp st' = heap_listp st.
Proof.
  unfold insert_node, bind. destruct (insert_walk _ _ _ _ _) as [[prev next]|]; [|discriminate].
  intros E. injection E as <-. destruct (negb _), (negb _); simpl; auto.
Qed.

(** A walk over the links visits no block twice. *)
Lemma dll_suffix m l1 : forall nxt p b l2,
  dll m nxt p (l1 ++ b :: l2) -> dll m (GET_NEXT_PTR m b) b (b :: l2).
Proof.
  induction l1 as [|c l1 IH]; simpl; intros nxt p b l2 H.
  - destruct H as (_ & Hb & _ & H). repeat split; assumption.
  - destruct H as (_ & _ & _ & H). eapply IH. exact H.
Qed.

Lemma dll_NoDup m L : forall nxt p, dll m nxt p L -> NoDup L.
Proof.
  induction L as [|b L IH]; intros nxt p H; [constructor|].
  pose proof H as H0. simpl in H. destruct H as (-> & Hb & Hn & H).
  constructor; [|eapply IH; exact H].
  intros Hin. destruct (in_split _ _ Hin) as (l1 & l2 & ->).
  pose proof (dll_suffix m (b :: l1) nxt b b l2 H0) as HS. rewrite Hn in HS.
  pose proof (dll_unique _ _ _ _ _ H0 HS) as E.
  apply (f_equal (@length Z)) in E. simpl in E. rewrite length_app in E. simpl in E. lia.
Qed.

Lemma apart_sub blocks L :
  apart blocks -> NoDup L -> (forall b, In b L -> In b blocks) -> apart L.
Proof.
  intros HA. induction L as [|b L IH]; intros ND HS; [exact I|].
  apply NoDup_cons_iff in ND. destruct ND as [Hb ND]. split.
  - intros b' Hb'.
    destruct (apart_in _ _ _ HA (HS b (or_introl eq_refl)) (HS b' (or_intror Hb')))
      as [->|X]; [contradiction|exact X].
  - apply IH; [exact ND|]. intros b' Hb'. apply HS. right. exact Hb'.
Qed.

(** C7, as the code has it.  [blocks] are the blocks of the heap after the
    prologue, at least a minimum block apart, at addresses a link field can
    hold; the free list is a doubly linked walk from the tail in ascending
    size order.  [insert_node(bp)], called when [bp] is marked free and the
    list holds exactly the other blocks that are marked free, leaves a list
    of exactly the blocks marked free.  [remove_node(bp)], called on a list of
    exactly the blocks marked free, leaves a list of exactly those blocks
    except [bp], which is still marked free.  Either way the list stays a
    doubly linked walk from the tail in ascending size order, no block of it
    smaller than the tail, and no header changes; removing the sole block
    leaves the empty list with a [NULL] tail. *)
Theorem free_list_index_tracks_free_blocks :
  (forall (st : state) (blocks L : list Z) (fuel : nat) (bp : Z),
     free_list st L -> ascending (mem st) L ->
     apart blocks -> (forall b, In b blocks -> addr32 b) ->
     In bp blocks -> marked_free (mem st) bp ->
     (forall b, In b L <-> In b blocks /\ marked_free (mem st) b /\ b <> bp) ->
     (length L < fuel)%nat ->
     exists st' L',
       insert_node fuel bp (blk_size (mem st) bp) st = Some st' /\
       free_list st' L' /\ ascending (mem st') L' /\
       free_list_tail st' = hd NULL L' /\
       (forall b, In b L' ->
          blk_size (mem st') (free_list_tail st') <= blk_size (mem st') b) /\
       (forall b, In b blocks -> GET_W (mem st') (HDRP b) = GET_W (mem st) (HDRP b)) /\
       (forall b, In b L' <-> In b blocks /\ marked_free (mem st') b)) /\
  (forall (st : state) (blocks L : list Z) (bp : Z),
     free_list st L -> ascending (mem st) L ->
     apart blocks -> (forall b, In b blocks -> addr32 b) ->
     (forall b, In b L <-> In b blocks /\ marked_free (mem st) b) ->
     In bp L ->
     exists L',
       free_list (remove_node bp st) L' /\ ascending (mem (remove_node bp st)) L' /\
       free_list_tail (remove_node bp st) = hd NULL L' /\
       (forall b, In b L' ->
          blk_size (mem (remove_node bp st)) (free_list_tail (remove_node bp st))
          <= blk_size (mem (remove_node bp st)) b) /\
       (forall b, In b blocks ->
          GET_W (mem (remove_node bp st)) (HDRP b) = GET_W (mem st) (HDRP b)) /\
       (forall b, In b L' <->
          In b blocks /\ marked_free (mem (remove_node bp st)) b /\ b <> bp) /\
       marked_free (mem (remove_node bp st)) bp /\ ~ In bp L' /\
       (L = [bp] -> L' = [] /\ free_list_tail (remove_node bp st) = NULL)).
Proof.
  split.
  - intros st blocks L fuel bp HL HS HA H32 Hbp Hfree HX Hf.
    assert (HSub : forall b, In b (bp :: L) -> In b blocks)
      by (intros b [<-|Hb]; [exact Hbp|apply HX, Hb]).
    assert (ND : NoDup (bp :: L)).
    { constructor; [|eapply dll_NoDup; exact HL]. intros X. apply HX in X. tauto. }
    pose proof (apart_sub blocks (bp :: L) HA ND HSub) as HA'.
    assert (H32' : forall b, In b (bp :: L) -> addr32 b) by (intros b Hb; apply H32, HSub, Hb).
    destruct (insert_node_spec fuel st L bp (blk_size (mem st) bp) HL HA' H32' Hf)
      as (st' & E & R1 & _ & _ & _ & R5).
    set (L' := insert_sorted (mem st) bp (blk_size (mem st) bp) L) in *.
    assert (FW : forall b, In b blocks -> GET_W (mem st') (HDRP b) = GET_W (mem st) (HDRP b)).
    { intros b Hb. apply R5. intros b' Hb'.
      apply (header_outside_links blocks b HA Hb b' (HSub b' Hb')). }
    assert (FH : forall b, In b blocks -> blk_size (mem st') b = blk_size (mem st) b)
      by (intros b Hb; unfold blk_size, GET_SIZE; rewrite (FW b Hb); reflexivity).
    assert (FM : forall b, In b blocks -> (marked_free (mem st') b <-> marked_free (mem st) b))
      by (intros b Hb; unfold marked_free, GET_ISALLOCATED; rewrite (FW b Hb); tauto).
    assert (AS : ascending (mem st') L').
    { apply (ascending_frame (mem st)); [|apply ascending_insert; exact HS].
      intros b Hb. apply FH, HSub. apply insert_sorted_in in Hb.
      destruct Hb as [->|Hb]; [left; reflexivity|right; exact Hb]. }
    assert (ET : free_list_tail st' = hd NULL L') by (eapply dll_head; exact R1).
    exists st', L'. split; [exact E|]. split; [exact R1|]. split; [exact AS|].
    split; [exact ET|]. split; [|split; [exact FW|]].
    + intros b Hb. rewrite ET. apply ascending_head_least; assumption.
    + intros b. unfold L'. rewrite insert_sorted_in. split.
      * intros [->|Hb]; [split; [exact Hbp|apply FM; assumption]|].
        apply HX in Hb. destruct Hb as (B1 & B2 & _). split; [exact B1|apply FM; assumption].
      * intros [B1 B2]. destruct (Z.eq_dec b bp) as [->|Hne]; [left; reflexivity|].
        right. apply HX. split; [exact B1|]. split; [apply FM; assumption|exact Hne].
  - intros st blocks L bp HL HS HA H32 HX Hbp.
    assert (HSub : forall b, In b L -> In b blocks) by (intros b Hb; apply HX, Hb).
    pose proof (dll_NoDup _ _ _ _ HL) as ND.
    pose proof (apart_sub blocks L HA ND HSub) as HA'.
    assert (H32' : forall b, In b L -> addr32 b) by (intros b Hb; apply H32, HSub, Hb).
    destruct (remove_node_spec st L bp HL HA' H32' Hbp) as (R1 & _ & _ & _ & R5).
    set (st' := remove_node bp st) in *. set (L' := remove Z.eq_dec bp L) in *.
    assert (FW : forall b, In b blocks -> GET_W (mem st') (HDRP b) = GET_W (mem st) (HDRP b)).
    { intros b Hb. apply R5. intros b' Hb' _.
      apply (header_outside_links blocks b HA Hb b' (HSub b' Hb')). }
    assert (FH : forall b, In b blocks -> blk_size (mem st') b = blk_size (mem st) b)
      by (intros b Hb; unfold blk_size, GET_SIZE; rewrite (FW b Hb); reflexivity).
    assert (FM : forall b, In b blocks -> (marked_free (mem st') b <-> marked_free (mem st) b))
      by (intros b Hb; unfold marked_free, GET_ISALLOCATED; rewrite (FW b Hb); tauto).
    assert (AS : ascending (mem st') L').
    { apply (ascending_frame (mem st)); [|apply ascending_remove; exact HS].
      intros b Hb. apply in_remove in Hb. apply FH, HSub, Hb. }
    assert (ET : free_list_tail st' = hd NULL L') by (eapply dll_head; exact R1).
    assert (HR : forall b, In b L' <-> In b L /\ b <> bp).
    { intros b. split; [apply in_remove|]. intros [X Y]. apply in_in_remove; assumption. }
    exists L'. split; [exact R1|]. split; [exact AS|]. split; [exact ET|].
    split; [intros b Hb; rewrite ET; apply ascending_head_least; assumption|].
    split; [exact FW|]. split; [|split; [|split]].
    + intros b. rewrite HR. split.
      * intros [Hb Hne]. apply HX in Hb. destruct Hb as [B1 B2].
        split; [exact B1|]. split; [apply FM; assumption|exact Hne].
      * intros (B1 & B2 & Hne). split; [|exact Hne]. apply HX.
        split; [exact B1|apply FM; assumption].
    + apply FM; [apply HSub, Hbp|apply HX, Hbp].
    + intros X. apply HR in X. destruct X as [_ X]. apply X. reflexivity.
    + intros ->. assert (EL : L' = []).
      { unfold L'. simpl. destruct (Z.eq_dec bp bp); [reflexivity|congruence]. }
      split; [exact EL|]. rewrite ET, EL. reflexivity.
Qed.

Lemma state_two_free_list :
  free_list_tail state_two_free = 65552 /\
  (GET_NEXT_PTR (mem state_two_free) 65552 = NULL /\
   GET_PREV_PTR (mem state_two_free) 65552 = 65728) /\
  (GET_NEXT_PTR (mem state_two_free) 65728 = 65552 /\
   GET_PREV_PTR (mem state_two_free) 65728 = NULL) /\
  blk_size (mem state_two_free) 65552 = 112 /\
  blk_size (mem state_two_free) 65728 = 3920.
Proof. repeat split; vm_compute; reflexivity. Qed.

(** The state of [state_two_free] right after [remove_node(65552)]: the list
    holds 65728 alone. *)
Lemma state_mid_list :
  free_list_tail (remove_node 65552 state_two_free) = 65728 /\
  GET_NEXT_PTR (mem (remove_node 65552 state_two_free)) 65728 = NULL /\
  GET_PREV_PTR (mem (remove_node 65552 state_two_free)) 65728 = NULL /\
  GET_ISALLOCATED (mem (remove_node 65552 state_two_free)) (HDRP 65552) = 0 /\
  GET_ISALLOCATED (mem (remove_node 65552 state_two_free)) (HDRP 65664) = 1 /\
  GET_ISALLOCATED (mem (remove_node 65552 state_two_free)) (HDRP 65728) = 0.
Proof. repeat split; vm_compute; reflexivity. Qed.

Lemma state_two_free_bits :
  GET_ISALLOCATED (mem state_two_free) (HDRP 65552) = 0 /\
  GET_ISALLOCATED (mem state_two_free) (HDRP 65664) = 1 /\
  GET_ISALLOCATED (mem state_two_free) (HDRP 65728) = 0.
Proof. repeat split; vm_compute; reflexivity. Qed.

Lemma state_init_list :
  free_list_tail state_init = 65552 /\
  GET_NEXT_PTR (mem state_init) 65552 = NULL /\
  GET_PREV_PTR (mem state_init) 65552 = NULL /\
  GET_ISALLOCATED (mem state_init) (HDRP 65552) = 0.
Proof. repeat split; vm_compute; reflexivity. Qed.

Lemma apart_three : apart [65552; 65664; 65728].
Proof.
  cbn [apart]. unfold MINIMUM_BLK_SIZE. split; [|split; [|split; [|exact I]]].
  - intros b' [<-|[<-|[]]]; lia.
  - intros b' [<-|[]]; lia.
  - intros b' [].
Qed.

Lemma addr32_three b : In b [65552; 65664; 65728] -> addr32 b.
Proof. intros [<-|[<-|[<-|[]]]]; unfold addr32; lia. Qed.

Lemma free_list_index_tracks_free_blocks_witness :
  (exists st' L',
     insert_node 8 65552 (blk_size (mem (remove_node 65552 state_two_free)) 65552)
       (remove_node 65552 state_two_free) = Some st' /\
     free_list st' L' /\ ascending (mem st') L' /\
     free_list_tail st' = hd NULL L' /\
     (forall b, In b L' ->
        blk_size (mem st') (free_list_tail st') <= blk_size (mem st') b) /\
     (forall b, In b [65552; 65664; 65728] ->
        GET_W (mem st') (HDRP b)
        = GET_W (mem (remove_node 65552 state_two_free)) (HDRP b)) /\
     (forall b, In b L' <-> In b [65552; 65664; 65728] /\ marked_free (mem st') b)) /\
  (exists L',
     free_list (remove_node 65552 state_two_free) L' /\
     ascending (mem (remove_node 65552 state_two_free)) L' /\
     free_list_tail (remove_node 65552 state_two_free) = hd NULL L' /\
     (forall b, In b L' ->
        blk_size (mem (remove_node 65552 state_two_free))
                 (free_list_tail (remove_node 65552 state_two_free))
        <= blk_size (mem (remove_node 65552 state_two_free)) b) /\
     (forall b, In b [65552; 65664; 65728] ->
        GET_W (mem (remove_node 65552 state_two_free)) (HDRP b)
        = GET_W (mem state_two_free) (HDRP b)) /\
     (forall b, In b L' <->
        In b [65552; 65664; 65728] /\
        marked_free (mem (remove_node 65552 state_two_free)) b /\ b <> 65552) /\
     marked_free (mem (remove_node 65552 state_two_free)) 65552 /\ ~ In 65552 L' /\
     ([65552; 65728] = [65552] ->
        L' = [] /\ free_list_tail (remove_node 65552 state_two_free) = NULL)) /\
  (exists L',
     free_list (remove_node 65552 state_init) L' /\
     ascending (mem (remove_node 65552 state_init)) L' /\
     free_list_tail (remove_node 65552 state_init) = hd NULL L' /\
     (forall b, In b L' ->
        blk_size (mem (remove_node 65552 state_init))
                 (free_list_tail (remove_node 65552 state_init))
        <= blk_size (mem (remove_node 65552 state_init)) b) /\
     (forall b, In b [65552] ->
        GET_W (mem (remove_node 65552 state_init)) (HDRP b)
        = GET_W (mem state_init) (HDRP b)) /\
     (forall b, In b L' <->
        In b [65552] /\ marked_free (mem (remove_node 65552 state_init)) b /\ b <> 65552) /\
     marked_free (mem (remove_node 65552 state_init)) 65552 /\ ~ In 65552 L' /\
     ([65552] = [65552] ->
        L' = [] /\ free_list_tail (remove_node 65552 state_init) = NULL)).
Proof.
  destruct state_two_free_list as (T & (N1 & P1) & (N2 & P2) & S1 & S2).
  destruct state_mid_list as (MT & MN & MP & M1 & M2 & M3).
  destruct state_two_free_bits as (B1 & B2 & B3).
  destruct state_init_list as (IT & IN1 & IP & IB).
  split; [|split].
  - apply (proj1 free_list_index_tracks_free_blocks
             (remove_node 65552 state_two_free) [65552; 65664; 65728] [65728] 8%nat 65552).
    + unfold free_list. cbn [dll]. rewrite MT, MN, MP. unfold NULL. repeat split; lia.
    + cbn [ascending]. split; [intros b' []|exact I].
    + exact apart_three.
    + exact addr32_three.
    + left. reflexivity.
    + exact M1.
    + intros b. unfold marked_free. split.
      * intros [<-|[]]. split; [right; right; left; reflexivity|]. split; [exact M3|lia].
      * intros ([<-|[<-|[<-|[]]]] & X & Y).
        -- exfalso. apply Y. reflexivity.
        -- rewrite M2 in X. discriminate X.
        -- left. reflexivity.
    + simpl. lia.
  - apply (proj2 free_list_index_tracks_free_blocks
             state_two_free [65552; 65664; 65728] [65552; 65728] 65552).
    + unfold free_list. cbn [dll]. rewrite T, N1, P1, N2, P2. unfold NULL. repeat split; lia.
    + cbn [ascending]. split.
      * intros b' Hb'. destruct Hb' as [<-|[]]. rewrite S1, S2. lia.
      * split; [|exact I]. intros b' [].
    + exact apart_three.
    + exact addr32_three.
    + intros b. unfold marked_free. split.
      * intros [<-|[<-|[]]].
        -- split; [left; reflexivity|exact B1].
        -- split; [right; right; left; reflexivity|exact B3].
      * intros ([<-|[<-|[<-|[]]]] & X).
        -- left. reflexivity.
        -- rewrite B2 in X. discriminate X.
        -- right. left. reflexivity.
    + left. reflexivity.
  - apply (proj2 free_list_index_tracks_free_blocks state_init [65552] [65552] 65552).
    + unfold free_list. cbn [dll]. rewrite IT, IN1, IP. unfold NULL. repeat split; lia.
    + cbn [ascending]. split; [intros b' []|exact I].
    + cbn [apart]. split; [intros b' []|exact I].
    + intros b [<-|[]]. unfold addr32. lia.
    + intros b. unfold marked_free. split.
      * intros [<-|[]]. split; [left; reflexivity|exact IB].
      * intros ([<-|[]] & _). left. reflexivity.
    + left. reflexivity.
Defined.

Lemma state_unlisted_heap :
  heap_listp (remove_node 65552 state_init) = 65544 /\
  GET_SIZE (mem (remove_node 65552 state_init)) (HDRP 65544) = 8 /\
  NEXT_BLKP (mem (remove_node 65552 state_init)) 65544 = 65552 /\
  GET_SIZE (mem (remove_node 65552 state_init)) (HDRP 65552) = 4096 /\
  NEXT_BLKP (mem (remove_node 65552 state_init)) 65552 = 69648 /\
  GET_SIZE (mem (remove_node 65552 state_init)) (HDRP 69648) = 0 /\
  GET_ISALLOCATED (mem (remove_node 65552 state_init)) (HDRP 65552) = 0 /\
  free_list_tail (remove_node 65552 state_init) = NULL.
Proof. repeat split; vm_compute; reflexivity. Qed.

(** C7 fails as stated: right after a remove the index does not hold every
    free block.  In the state after init the free list holds the one free
    block, 65552; after [remove_node(65552)] the free list is empty, and the
    heap walk still finds the block 65552, 4096 bytes, marked free: the
    blocks of the list are not the blocks marked free. *)
Lemma remove_node_leaves_free_block_unlisted :
  free_list state_init [65552] /\
  free_list (remove_node 65552 state_init) [] /\
  heap_walk (mem (remove_node 65552 state_init))
    (heap_listp (remove_node 65552 state_init)) [65544; 65552] /\
  marked_free (mem (remove_node 65552 state_init)) 65552 /\
  blk_size (mem (remove_node 65552 state_init)) 65552 = 4096 /\
  ~ (forall b, In b [] <->
       In b [65544; 65552] /\ marked_free (mem (remove_node 65552 state_init)) b).
Proof.
  destruct state_init_list as (IT & IN1 & IP & IB).
  destruct state_unlisted_heap as (O1 & O2 & O3 & O4 & O5 & O6 & O7 & O8).
  split; [|split; [|split; [|split; [|split]]]].
  - unfold free_list. cbn [dll]. rewrite IT, IN1, IP. unfold NULL. repeat split; lia.
  - unfold free_list. cbn [dll]. exact O8.
  - rewrite O1. apply heap_walk_step; [rewrite O2; lia|]. rewrite O3.
    apply heap_walk_step; [rewrite O4; lia|]. rewrite O5.
    apply heap_walk_end. exact O6.
  - exact O7.
  - exact O4.
  - intros H. apply (H 65552). split; [right; left; reflexivity|exact O7].
Qed.

(** ** The fit search *)

(** When a block of the walk is large enough, the search returns the first
    such block and touches nothing. *)
Lemma find_fitting_blk_found fuel st L req :
  free_list st L -> (exists b, In b L /\ req <= blk_size (mem st) b) ->
  (length L < fuel)%nat ->
  find_fitting_blk fuel req st = Some (first_fit (mem st) req L, st).
Proof.
  intros HL HE Hf. unfold find_fitting_blk.
  rewrite (find_walk_spec _ req L fuel _ NULL HL Hf). simpl bind.
  destruct (first_fit_cases (mem st) req L) as [[_ Hlt]|[Hin _]].
  - destruct HE as (b & Hb & Hs). specialize (Hlt b Hb). lia.
  - pose proof (dll_nonnull _ _ _ _ HL _ Hin) as Hne.
    destruct (Z.eqb_spec (first_fit (mem st) req L) 0) as [E|_]; [contradiction|reflexivity].
Qed.

Lemma scenario_reuse_run :
  scenario_reuse 8192 = Some (65552, 65664, 65552, 69648, 69648).
Proof. vm_compute. reflexivity. Qed.

(** C4: when the free list holds a block at least as large as the request,
    [find_fitting_blk] returns, without touching the state, the first such
    block of the walk from the tail: every block walked before it is too
    small, and in an ascending list no block that fits is smaller.  At an
    observation point [mm_malloc] then returns that block and the arena end
    stays where it was.  In the run init; A = acquire(100); B = acquire(50);
    release(A); C = acquire(90) the block C is A and the arena end is the
    same before and after the last call. *)
Theorem find_fitting_blk_best_fit :
  (forall fuel st L req,
     free_list st L -> ascending (mem st) L ->
     (exists b, In b L /\ req <= blk_size (mem st) b) ->
     (length L < fuel)%nat ->
     exists r l1 l2,
       find_fitting_blk fuel req st = Some (r, st) /\
       L = l1 ++ r :: l2 /\
       (forall b, In b l1 -> blk_size (mem st) b < req) /\
       req <= blk_size (mem st) r /\
       (forall b, In b L -> req <= blk_size (mem st) b ->
                  blk_size (mem st) r <= blk_size (mem st) b)) /\
  (forall fuel st live L size,
     reachable int_sized st live -> free_list st L ->
     1 <= size -> size + 15 < 2 ^ 31 ->
     (exists b, In b L /\ adjusted_size size <= blk_size (mem st) b) ->
     (length L < fuel)%nat ->
     exists st',
       mm_malloc fuel size st =
         Some (first_fit (mem st) (adjusted_size size) L, st') /\
       mem_brk st' = mem_brk st) /\
  scenario_reuse 8192 = Some (65552, 65664, 65552, 69648, 69648).
Proof.
  split; [|split; [|exact scenario_reuse_run]].
  - intros fuel st L req HL HA HE Hf.
    destruct (first_fit_spec (mem st) req L HA HE) as (_ & F2 & F3 & l1 & l2 & F4 & F5).
    exists (first_fit (mem st) req L), l1, l2.
    split; [apply find_fitting_blk_found; assumption|]. auto.
  - intros fuel st live L size HR HL H1 H2 HE Hf.
    destruct (reachable_heap_inv _ _ HR) as (bs & L0 & HI & _).
    assert (EL : L0 = L) by (eapply dll_unique; [apply (hf_list _ _ (hi_frame _ _ _ HI))|exact HL]).
    subst L0.
    destruct (adjusted_size_round_up size H1 H2) as (A1 & A2 & A3).
    assert (A4 : size + DSIZE <= adjusted_size size < 2 ^ 31).
    { rewrite A1. unfold round_up. consts. Z.div_mod_to_equations. lia. }
    unfold mm_malloc. destruct (Z.eqb_spec size 0) as [|_]; [lia|].
    set (adj := adjusted_size size) in *.
    rewrite (uint_small adj) by (consts; lia).
    rewrite (find_fitting_blk_found fuel st L adj HL HE Hf). simpl bind.
    destruct (first_fit_cases (mem st) adj L) as [[_ Hlt]|[Hin Hsz]].
    { destruct HE as (b & Hb & Hs). specialize (Hlt b Hb). lia. }
    pose proof (dll_nonnull _ _ _ _ HL _ Hin) as Hne.
    destruct (Z.eqb_spec (first_fit (mem st) adj L) 0) as [E|_]; [contradiction|].
    destruct (allocate_spec fuel st bs L _ adj HI Hin Hsz A3 A2 ltac:(lia))
      as (st' & bs' & L' & EA & _ & Y2 & _).
    exists st'. split; [exact EA|exact Y2].
Qed.

(** ** The interface at an observation point *)

Lemma state_init_reachable ok : reachable ok state_init [].
Proof.
  apply (reach_init ok 8 (arena0 8192) state_init);
    [vm_compute; congruence|vm_compute; congruence|vm_compute; reflexivity].
Qed.

(** X1: at an observation point [mm_malloc] returns.  When it returns [NULL] the
    state is the one it was called in: nothing was written and the arena did
    not grow.  Otherwise the pointer was not live before the call and its
    block holds the request and the 8 bytes of header and footer. *)
Theorem mm_malloc_returns_clean (st : state) (live : list Z) (size : Z) :
  reachable int_sized st live -> int_sized size ->
  exists fuel0, forall fuel, (fuel0 <= fuel)%nat ->
    exists p st',
      mm_malloc fuel size st = Some (p, st') /\
      (p = NULL -> st' = st) /\
      (p <> NULL ->
         ~ In p live /\ size + DSIZE <= blk_size (mem st') p /\
         consistent st' /\ heap_listp st' = heap_listp st).
Proof.
  intros R [S0 S1]. destruct (reachable_heap_inv st live R) as (bs & L & HI & HL).
  exists (S (length L)). intros fuel Hf.
  destruct (Z.eq_dec size 0) as [->|Hne].
  - exists NULL, st. split; [reflexivity|]. split; [reflexivity|]. intros H. contradiction.
  - destruct (mm_malloc_spec fuel st bs L size HI ltac:(lia) S1 ltac:(lia))
      as (r & st' & E & [(-> & -> & _)|(Hnn & bs' & L' & HI' & _ & HP & HN & _ & HS & _)]).
    + exists NULL, st. split; [exact E|]. split; [reflexivity|]. intros H. contradiction.
    + exists r, st'. split; [exact E|]. split; [intros H; contradiction|]. intros _.
      split; [intros Hr; apply HN, HL, Hr|]. split; [exact HS|].
      split; [eapply heap_inv_consistent; exact HI'|exact HP].
Qed.

Lemma mm_malloc_returns_clean_witness :
  exists fuel0, forall fuel, (fuel0 <= fuel)%nat ->
    exists p st',
      mm_malloc fuel 100 state_init = Some (p, st') /\
      (p = NULL -> st' = state_init) /\
      (p <> NULL ->
         ~ In p [] /\ 100 + DSIZE <= blk_size (mem st') p /\
         consistent st' /\ heap_listp st' = heap_listp state_init).
Proof.
  apply (mm_malloc_returns_clean state_init [] 100).
  - apply state_init_reachable.
  - unfold int_sized. lia.
Defined.

Lemma layout_blk_size m p s a bs : layout m p ((s, a) :: bs) -> blk_size m p = s.
Proof.
  simpl. intros ((_ & Hs) & T1 & _). unfold blk_size, GET_SIZE. rewrite T1.
  apply tag_size, Hs.
Qed.

(** A heap without allocated blocks and without two adjacent free blocks
    is empty or a single free block. *)
Lemma all_free_single p bs :
  alloc_addrs p bs = [] -> no_adjacent_free bs ->
  bs = [] \/ exists s, bs = [(s, false)].
Proof.
  destruct bs as [|[s [|]] bs]; [left; reflexivity|discriminate|].
  intros HA [HN _]. right. exists s. specialize (HN eq_refl).
  destruct bs as [|[s' [|]] bs]; [reflexivity|discriminate|contradiction].
Qed.

(** X2: [mm_init] on an arena that lies below 2^32 returns.  Its result is 0 or
    -1; when it is 0 the heap starts 8 bytes after the old arena end -- at the
    prologue block -- and the three properties of an observation point hold. *)
Theorem mm_init_establishes_heap (fuel : nat) (st : state) :
  0 <= mem_brk st -> mem_max_addr st <= 2 ^ 32 -> (0 < fuel)%nat ->
  exists r st',
    mm_init fuel st = Some (r, st') /\
    (r = -1 \/
     (r = 0 /\ heap_listp st' = mem_brk st + DSIZE /\ consistent st' /\
      reachable int_sized st' [])).
Proof.
  intros H0 H1 Hf.
  destruct (mm_init_spec fuel st H0 H1 Hf)
    as (r & st' & E & [->|(-> & bs & L & HI & _ & _ & HP & _)] & _).
  - exists (-1), st'. split; [exact E|left; reflexivity].
  - exists 0, st'. split; [exact E|right]. split; [reflexivity|]. split; [exact HP|].
    split; [eapply heap_inv_consistent; exact HI|].
    eapply reach_init; eassumption.
Qed.

Lemma mm_init_establishes_heap_witness :
  exists r st',
    mm_init 1 (arena0 8192) = Some (r, st') /\
    (r = -1 \/
     (r = 0 /\ heap_listp st' = mem_brk (arena0 8192) + DSIZE /\ consistent st' /\
      reachable int_sized st' [])).
Proof.
  apply (mm_init_establishes_heap 1 (arena0 8192)).
  - vm_compute. congruence.
  - vm_compute. congruence.
  - lia.
Defined.

(** X15: [mm_init] on an arena that lies below 2^32 returns 0 or -1, and 0
    exactly when the arena can grow by the 16 bytes of prologue and epilogue
    and by [CHUNKSIZE].  After a successful call the heap base is 8 bytes past
    the old arena end, the arena has grown by that amount, the free list is
    the single block after the prologue, of [CHUNKSIZE] bytes, and the three
    properties of an observation point hold. *)
Theorem mm_init_succeeds_iff_room (fuel : nat) (st : state) :
  0 <= mem_brk st -> mem_max_addr st <= 2 ^ 32 -> (0 < fuel)%nat ->
  exists r st',
    mm_init fuel st = Some (r, st') /\
    (r = 0 \/ r = -1) /\
    (r = 0 <-> mem_brk st + 4 * WSIZE + CHUNKSIZE <= mem_max_addr st) /\
    (r = 0 ->
     heap_listp st' = mem_brk st + DSIZE /\
     mem_brk st' = mem_brk st + 4 * WSIZE + CHUNKSIZE /\
     free_list st' [heap_listp st' + DSIZE] /\
     blk_size (mem st') (heap_listp st' + DSIZE) = CHUNKSIZE /\
     consistent st' /\ reachable int_sized st' []).
Proof.
  intros H0 H1 Hf. change (4 * WSIZE) with 16. change CHUNKSIZE with 4096.
  destruct (mm_init_spec fuel st H0 H1 Hf)
    as (r & st' & E & [->|(-> & bs & L & HI & HA & _ & HP & HB)] & IFF).
  - exists (-1), st'. split; [exact E|]. split; [right; reflexivity|].
    split; [exact IFF|]. discriminate.
  - exists 0, st'. split; [exact E|]. split; [left; reflexivity|].
    split; [exact IFF|]. intros _.
    split; [exact HP|]. split; [exact HB|].
    pose proof (hi_brk _ _ _ HI) as TB. pose proof (hi_perm _ _ _ HI) as PM.
    pose proof (hi_layout _ _ _ HI) as LAY.
    fold (first_blkp st').
    assert (EBS : bs = [(4096, false)]).
    { destruct (all_free_single _ _ HA (hi_naf _ _ _ HI)) as [->|(s & ->)].
      - simpl in TB. unfold first_blkp in TB. consts. lia.
      - simpl in TB. unfold first_blkp in TB. consts. do 2 f_equal. lia. }
    subst bs. unfold free_addrs in PM. simpl in PM.
    apply Permutation_sym, Permutation_length_1_inv in PM. subst L.
    split; [apply (hf_list _ _ (hi_frame _ _ _ HI))|].
    split; [apply (layout_blk_size _ _ _ _ _ LAY)|].
    split; [eapply heap_inv_consistent; exact HI|].
    eapply reach_init; eassumption.
Qed.

Lemma mm_init_succeeds_iff_room_witness :
  exists r st',
    mm_init 1 (arena0 8192) = Some (r, st') /\
    (r = 0 \/ r = -1) /\
    (r = 0 <-> mem_brk (arena0 8192) + 4 * WSIZE + CHUNKSIZE <= mem_max_addr (arena0 8192)) /\
    (r = 0 ->
     heap_listp st' = mem_brk (arena0 8192) + DSIZE /\
     mem_brk st' = mem_brk (arena0 8192) + 4 * WSIZE + CHUNKSIZE /\
     free_list st' [heap_listp st' + DSIZE] /\
     blk_size (mem st') (heap_listp st' + DSIZE) = CHUNKSIZE /\
     consistent st' /\ reachable int_sized st' []).
Proof.
  apply (mm_init_succeeds_iff_room 1 (arena0 8192)).
  - vm_compute. congruence.
  - vm_compute. congruence.
  - lia.
Defined.

(** ** The live blocks *)

Lemma layout_total_mod m bs : forall p, layout m p bs -> total bs mod ALIGNMENT = 0.
Proof.
  induction bs as [|[s a] bs IH]; simpl; intros p H; [reflexivity|].
  destruct H as ((_ & Hs) & _ & _ & H). apply mod8_add; [exact Hs|eapply IH; exact H].
Qed.

(** Two blocks of a layout do not overlap. *)
Lemma layout_disjoint m bs : forall p b1 b2,
  layout m p bs -> In b1 (all_addrs p bs) -> In b2 (all_addrs p bs) -> b1 <> b2 ->
  b1 + blk_size m b1 <= b2 \/ b2 + blk_size m b2 <= b1.
Proof.
  induction bs as [|[s a] bs IH]; intros p b1 b2 H H1 H2 Hne; [contradiction|].
  pose proof (layout_blk_size _ _ _ _ _ H) as ES.
  simpl in H. destruct H as (_ & _ & _ & H).
  assert (R : forall b, In b (all_addrs (p + s) bs) -> p + s <= b)
    by (intros b Hb; apply (addrs_range _ _ _ _ _ H Hb)).
  destruct H1 as [<-|H1], H2 as [<-|H2].
  - contradiction.
  - left. rewrite ES. apply R, H2.
  - right. rewrite ES. apply R, H1.
  - eapply IH; eassumption.
Qed.

(** What the representation says about an allocated block. *)
Lemma heap_inv_live st bs L p :
  heap_inv st bs L -> In p (alloc_addrs (first_blkp st) bs) ->
  GET_ISALLOCATED (mem st) (HDRP p) = 1 /\
  GET_W (mem st) (HDRP p) = GET_W (mem st) (FTRP (mem st) p) /\
  MINIMUM_BLK_SIZE <= blk_size (mem st) p /\
  blk_size (mem st) p mod ALIGNMENT = 0 /\
  (p - heap_listp st) mod ALIGNMENT = 0 /\
  heap_listp st + DSIZE <= p /\
  p + blk_size (mem st) p <= mem_brk st /\ mem_brk st <= 2 ^ 32.
Proof.
  intros HI Hp. pose proof (hi_layout _ _ _ HI) as HL.
  pose proof (layout_tags_eq _ _ _ _ HL (addrs_all _ _ _ _ Hp)) as TE.
  destruct (addrs_split _ _ _ _ Hp) as (pre & s & a & post & -> & -> & ->).
  destruct (heap_inv_block _ _ _ _ _ _ HI) as ((Hs & Hs') & BS & _ & _ & B3 & B4 & B5 & B6).
  apply layout_app in HL. destruct HL as [HL1 HL2].
  pose proof (layout_alloc_bit _ _ _ _ _ HL2) as AB.
  pose proof (layout_total_mod _ _ _ HL1) as TM.
  rewrite BS. unfold first_blkp in *. splits; try assumption; try (consts; lia).
  replace (heap_listp st + DSIZE + total pre - heap_listp st) with (DSIZE + total pre) by lia.
  apply mod8_add; [reflexivity|exact TM].
Qed.

(** X3: at an observation point every live pointer is the payload address of
    a block that is marked allocated, has the same word in its header and in
    its footer, has a size that is a multiple of 8 and at least 16, starts a
    multiple of 8 past the heap base and lies between the prologue and the
    arena end; two live blocks never overlap. *)
Theorem live_blocks_disjoint (st : state) (live : list Z) :
  reachable int_sized st live ->
  (forall p, In p live ->
     GET_ISALLOCATED (mem st) (HDRP p) = 1 /\
     GET_W (mem st) (HDRP p) = GET_W (mem st) (FTRP (mem st) p) /\
     MINIMUM_BLK_SIZE <= blk_size (mem st) p /\
     blk_size (mem st) p mod ALIGNMENT = 0 /\
     (p - heap_listp st) mod ALIGNMENT = 0 /\
     heap_listp st + DSIZE <= p /\
     p + blk_size (mem st) p <= mem_brk st) /\
  (forall p q, In p live -> In q live -> p <> q ->
     p + blk_size (mem st) p <= q \/ q + blk_size (mem st) q <= p).
Proof.
  intros R. destruct (reachable_heap_inv st live R) as (bs & L & HI & HL). split.
  - intros p Hp. apply HL in Hp.
    destruct (heap_inv_live _ _ _ _ HI Hp) as (A1 & A2 & A3 & A4 & A5 & A6 & A7 & _).
    splits; assumption.
  - intros p q Hp Hq Hne. apply HL in Hp. apply HL in Hq.
    eapply layout_disjoint; [apply (hi_layout _ _ _ HI)| | |exact Hne];
      eapply addrs_all; eassumption.
Qed.

Lemma state_two_live_reachable : reachable int_sized state_two_live [65664; 65552].
Proof.
  assert (R1 : reachable int_sized state_init []) by apply state_init_reachable.
  assert (R2 : reachable int_sized (state_of (mm_malloc 8 100 state_init) state_init) [65552]).
  { apply (reach_malloc int_sized 8 state_init [] 100 65552 _ R1);
      [unfold int_sized; lia|vm_compute; reflexivity]. }
  apply (reach_malloc int_sized 8 _ [65552] 50 65664 state_two_live R2);
    [unfold int_sized; lia|vm_compute; reflexivity].
Qed.

Lemma live_blocks_disjoint_witness :
  (forall p, In p [65664; 65552] ->
     GET_ISALLOCATED (mem state_two_live) (HDRP p) = 1 /\
     GET_W (mem state_two_live) (HDRP p)
       = GET_W (mem state_two_live) (FTRP (mem state_two_live) p) /\
     MINIMUM_BLK_SIZE <= blk_size (mem state_two_live) p /\
     blk_size (mem state_two_live) p mod ALIGNMENT = 0 /\
     (p - heap_listp state_two_live) mod ALIGNMENT = 0 /\
     heap_listp state_two_live + DSIZE <= p /\
     p + blk_size (mem state_two_live) p <= mem_brk state_two_live) /\
  (forall p q, In p [65664; 65552] -> In q [65664; 65552] -> p <> q ->
     p + blk_size (mem state_two_live) p <= q \/
     q + blk_size (mem state_two_live) q <= p).
Proof.
  apply (live_blocks_disjoint state_two_live [65664; 65552]).
  apply state_two_live_reachable.
Defined.

(** ** Resizing within a block *)

(** X4: when the block at a live pointer already holds the requested size
    and the 8 bytes of header and footer, [mm_realloc] returns the pointer it
    was given and changes nothing, whatever the fuel. *)
Theorem mm_realloc_within_block
  (fuel : nat) (extend_size0 : Z) (st : state) (live : list Z) (p size : Z) :
  reachable int_sized st live -> In p live ->
  1 <= size -> size + DSIZE <= blk_size (mem st) p ->
  mm_realloc fuel extend_size0 p size st = Some (p, st).
Proof.
  intros R Hp H1 H2. destruct (reachable_heap_inv st live R) as (bs & L & HI & HL).
  apply HL in Hp.
  destruct (heap_inv_live _ _ _ _ HI Hp) as (_ & _ & A3 & A4 & _ & A6 & A7 & A8).
  pose proof (hf_base _ _ (hi_frame _ _ _ HI)) as B.
  unfold blk_size in *. unfold mm_realloc.
  destruct (Z.eqb_spec size 0) as [|_]; [lia|].
  assert (N : new_blk_size size <= GET_SIZE (mem st) (HDRP p)).
  { unfold new_blk_size. destruct (Z.leb_spec size DSIZE); [consts; lia|].
    rewrite uint_small by (consts; lia). rewrite ALIGN_round_up by (consts; lia).
    unfold round_up. consts. Z.div_mod_to_equations. lia. }
  destruct (Z.ltb_spec (GET_SIZE (mem st) (HDRP p)) (new_blk_size size)); [lia|reflexivity].
Qed.

Lemma mm_realloc_within_block_witness :
  mm_realloc 0 0 65552 101 state_two_live = Some (65552, state_two_live).
Proof.
  apply (mm_realloc_within_block 0 0 state_two_live [65664; 65552] 65552 101).
  - apply state_two_live_reachable.
  - right. left. reflexivity.
  - lia.
  - replace (blk_size (mem state_two_live) 65552) with 112 by (vm_compute; reflexivity).
    unfold DSIZE. lia.
Defined.

(** ** Inserting and removing the same block *)

(** X5: inserting a block into the free list and removing it again gives the
    list back: the same blocks in the same order, walked from the same
    tail. *)
Theorem insert_then_remove_restores (fuel : nat) (st : state) (L : list Z) (bp s : Z) :
  free_list st L -> apart (bp :: L) -> (forall b, In b (bp :: L) -> addr32 b) ->
  (length L < fuel)%nat ->
  exists st',
    insert_node fuel bp s st = Some st' /\
    free_list (remove_node bp st') L /\
    free_list_tail (remove_node bp st') = free_list_tail st.
Proof.
  intros HL HA H32 Hf.
  destruct (insert_node_spec fuel st L bp s HL HA H32 Hf) as (st' & E & R1 & _).
  set (L' := insert_sorted (mem st) bp s L) in *.
  assert (HP : Permutation L' (bp :: L)) by apply insert_sorted_perm.
  assert (HA' : apart L') by (apply (apart_perm (bp :: L)); [symmetry; exact HP|exact HA]).
  assert (H32' : forall b, In b L' -> addr32 b)
    by (intros b Hb; apply H32; eapply Permutation_in; eassumption).
  assert (Hin : In bp L') by (apply insert_sorted_in; left; reflexivity).
  destruct (remove_node_spec st' L' bp R1 HA' H32' Hin) as (Q1 & _).
  assert (EL : remove Z.eq_dec bp L' = L).
  { pose proof (apart_NoDup _ HA) as ND. inversion ND as [|x l Hn _]; subst.
    unfold L'. clear -Hn. induction L as [|c L IH]; simpl.
    - destruct (Z.eq_dec bp bp); [reflexivity|congruence].
    - destruct (blk_size (mem st) c <? s); simpl.
      + destruct (Z.eq_dec bp c) as [->|_]; [contradiction Hn; left; reflexivity|].
        f_equal. apply IH. intros X. apply Hn. right. exact X.
      + destruct (Z.eq_dec bp bp); [|congruence].
        destruct (Z.eq_dec bp c) as [->|_]; [contradiction Hn; left; reflexivity|].
        f_equal. apply notin_remove_id. intros X. apply Hn. right. exact X. }
  rewrite EL in Q1. exists st'. split; [exact E|]. split; [exact Q1|].
  rewrite (dll_head _ _ _ _ Q1). symmetry. eapply dll_head. exact HL.
Qed.

Lemma state_two_free_walk : free_list state_two_free [65552; 65728].
Proof.
  destruct state_two_free_list as (T & (N1 & P1) & (N2 & P2) & _).
  unfold free_list. cbn [dll]. rewrite T, N1, P1, N2, P2. unfold NULL.
  repeat split; lia.
Qed.

Lemma insert_then_remove_restores_witness :
  exists st',
    insert_node 3 65600 48 state_two_free = Some st' /\
    free_list (remove_node 65600 st') [65552; 65728] /\
    free_list_tail (remove_node 65600 st') = free_list_tail state_two_free.
Proof.
  apply (insert_then_remove_restores 3 state_two_free [65552; 65728] 65600 48).
  - apply state_two_free_walk.
  - cbn [apart]. unfold MINIMUM_BLK_SIZE. split.
    + intros b' [<-|[<-|[]]]; lia.
    + split.
      * intros b' [<-|[]]. lia.
      * split; [|exact I]. intros b' [].
  - intros b [<-|[<-|[<-|[]]]]; unfold addr32; lia.
  - simpl. lia.
Defined.

(** ** What a call leaves untouched *)

(** The words of an allocated block, by its block pointer. *)
Lemma alloc_words st bs L b q :
  heap_inv st bs L -> In b (alloc_addrs (first_blkp st) bs) ->
  b - 4 <= q -> q + 4 <= b + blk_size (mem st) b - 4 ->
  in_alloc (first_blkp st) bs q.
Proof.
  intros HI Hb Q1 Q2.
  destruct (addrs_split _ _ _ _ Hb) as (pre & s & a & post & -> & -> & ->).
  destruct (heap_inv_block _ _ _ _ _ _ HI) as (_ & BS & _).
  rewrite BS in Q2.
  apply (beside_in_alloc st pre post _ s true q eq_refl). right. auto.
Qed.

(** From the words of a block to its bytes. *)
Lemma block_bytes m m' b s :
  8 <= s ->
  (forall q, b - 4 <= q -> q + 4 <= b + s - 4 -> GET_W m' q = GET_W m q) ->
  forall a, b - 4 <= a < b + s - 4 -> load_byte m' a = load_byte m a.
Proof.
  intros Hs F a Ha. destruct (Z_le_gt_dec (a + 4) (b + s - 4)) as [Hle|Hgt].
  - apply (GET_W_bytes m m' a); [apply F; lia|lia].
  - apply (GET_W_bytes m m' (b + s - 8)); [apply F; lia|lia].
Qed.

(** X6: at an observation point [mm_malloc] changes no byte of a live block:
    the header, the payload and the footer of every block that is live
    before the call read the same after it, whether the call succeeds or
    not. *)
Theorem mm_malloc_keeps_live_blocks (st : state) (live : list Z) (size : Z) :
  reachable int_sized st live -> int_sized size ->
  exists fuel0, forall fuel, (fuel0 <= fuel)%nat ->
    exists p st',
      mm_malloc fuel size st = Some (p, st') /\
      forall q, In q live ->
        forall a, q - WSIZE <= a < q + blk_size (mem st) q - WSIZE ->
          load_byte (mem st') a = load_byte (mem st) a.
Proof.
  intros R [S0 S1]. destruct (reachable_heap_inv st live R) as (bs & L & HI & HL).
  exists (S (length L)). intros fuel Hf.
  destruct (Z.eq_dec size 0) as [->|Hne].
  - exists NULL, st. split; [reflexivity|]. reflexivity.
  - destruct (mm_malloc_spec fuel st bs L size HI ltac:(lia) S1 ltac:(lia))
      as (r & st' & E & [(-> & -> & _)|(_ & bs' & L' & _ & _ & _ & _ & _ & _ & FR & _)]).
    + exists NULL, st. split; [exact E|]. reflexivity.
    + exists r, st'. split; [exact E|]. intros q Hq a Ha. apply HL in Hq.
      destruct (heap_inv_live _ _ _ _ HI Hq) as (_ & _ & A3 & _).
      apply (block_bytes (mem st) (mem st') q (blk_size (mem st) q));
        [consts; lia| |consts; lia].
      intros w W1 W2. apply FR. eapply alloc_words; eassumption.
Qed.

Lemma mm_malloc_keeps_live_blocks_witness :
  exists fuel0, forall fuel, (fuel0 <= fuel)%nat ->
    exists p st',
      mm_malloc fuel 200 state_two_live = Some (p, st') /\
      forall q, In q [65664; 65552] ->
        forall a, q - WSIZE <= a < q + blk_size (mem state_two_live) q - WSIZE ->
          load_byte (mem st') a = load_byte (mem state_two_live) a.
Proof.
  apply (mm_malloc_keeps_live_blocks state_two_live [65664; 65552] 200).
  - apply state_two_live_reachable.
  - unfold int_sized. lia.
Defined.

(** X7: at an observation point [mm_free] of a live pointer returns.  The
    arena end and the heap base stay where they were, no byte of any other
    live block changes, and afterwards the free list holds a block at least
    as large as the block that was freed. *)
Theorem mm_free_keeps_other_blocks (st : state) (live : list Z) (p : Z) :
  reachable int_sized st live -> In p live ->
  exists fuel0, forall fuel, (fuel0 <= fuel)%nat ->
    exists st',
      mm_free fuel p st = Some st' /\
      mem_brk st' = mem_brk st /\ heap_listp st' = heap_listp st /\
      (forall q, In q live -> q <> p ->
         forall a, q - WSIZE <= a < q + blk_size (mem st) q - WSIZE ->
           load_byte (mem st') a = load_byte (mem st) a) /\
      (exists L' b, free_list st' L' /\ In b L' /\
                    blk_size (mem st) p <= blk_size (mem st') b).
Proof.
  intros R Hp. destruct (reachable_heap_inv st live R) as (bs & L & HI & HL).
  exists (S (length L)). intros fuel Hf.
  destruct (mm_free_spec fuel st bs L p HI ltac:(apply HL; exact Hp) ltac:(lia))
    as (st' & bs' & L' & E & HI' & E1 & _ & E3 & _ & FR & (b & Hb & Hsz) & _).
  exists st'. splits; try assumption.
  - intros q Hq Hne a Ha. apply HL in Hq. apply HL in Hp.
    destruct (heap_inv_live _ _ _ _ HI Hq) as (_ & _ & A3 & _).
    apply (block_bytes (mem st) (mem st') q (blk_size (mem st) q));
      [consts; lia| |consts; lia].
    intros w W1 W2. apply FR; [eapply alloc_words; eassumption|].
    destruct (layout_disjoint _ _ _ _ _ (hi_layout _ _ _ HI)
                (addrs_all _ _ _ _ Hq) (addrs_all _ _ _ _ Hp) Hne); lia.
  - exists L', b. split; [apply (hf_list _ _ (hi_frame _ _ _ HI'))|auto].
Qed.

Lemma mm_free_keeps_other_blocks_witness :
  exists fuel0, forall fuel, (fuel0 <= fuel)%nat ->
    exists st',
      mm_free fuel 65552 state_two_live = Some st' /\
      mem_brk st' = mem_brk state_two_live /\
      heap_listp st' = heap_listp state_two_live /\
      (forall q, In q [65664; 65552] -> q <> 65552 ->
         forall a, q - WSIZE <= a < q + blk_size (mem state_two_live) q - WSIZE ->
           load_byte (mem st') a = load_byte (mem state_two_live) a) /\
      (exists L' b, free_list st' L' /\ In b L' /\
                    blk_size (mem state_two_live) 65552 <= blk_size (mem st') b).
Proof.
  apply (mm_free_keeps_other_blocks state_two_live [65664; 65552] 65552).
  - apply state_two_live_reachable.
  - right. left. reflexivity.
Defined.

(** ** When the arena grows *)

(** X8: at an observation point, for a request of at least one byte,
    [mm_malloc] returns [NULL] exactly when no block of the free list is as
    large as the adjusted size and the arena cannot grow by the larger of
    the adjusted size and [CHUNKSIZE].  When a free block fits, the arena
    end does not move; when none fits and the call succeeds, the arena has
    grown by exactly that amount. *)
Theorem mm_malloc_fails_iff_exhausted
  (st : state) (live L : list Z) (size : Z) (fuel : nat) :
  reachable int_sized st live -> free_list st L ->
  1 <= size -> size + 15 < 2 ^ 31 -> (length L < fuel)%nat ->
  exists p st',
    mm_malloc fuel size st = Some (p, st') /\
    (p = NULL <->
     (forall b, In b L -> blk_size (mem st) b < adjusted_size size) /\
     mem_max_addr st < mem_brk st + MAX (adjusted_size size) CHUNKSIZE) /\
    (p <> NULL ->
     ((exists b, In b L /\ adjusted_size size <= blk_size (mem st) b) /\
      mem_brk st' = mem_brk st) \/
     ((forall b, In b L -> blk_size (mem st) b < adjusted_size size) /\
      mem_brk st' = mem_brk st + MAX (adjusted_size size) CHUNKSIZE)).
Proof.
  intros R HL H1 H2 Hf. destruct (reachable_heap_inv st live R) as (bs & L0 & HI & _).
  assert (EL : L0 = L)
    by (eapply dll_unique; [apply (hf_list _ _ (hi_frame _ _ _ HI))|exact HL]).
  subst L0.
  destruct (mm_malloc_spec fuel st bs L size HI H1 H2 Hf)
    as (r & st' & E & [(-> & -> & N1 & N2)|(Hnn & bs' & L' & HI' & M1 & _ & _ & _ & _ & _ & G & _)]).
  - exists NULL, st. split; [exact E|]. split; [tauto|]. intros X. contradiction.
  - exists r, st'. split; [exact E|].
    assert (FIT : r = first_fit (mem st) (adjusted_size size) L -> In r L ->
                  adjusted_size size <= blk_size (mem st) r).
    { intros Er Hr.
      destruct (first_fit_cases (mem st) (adjusted_size size) L) as [[E0 _]|[_ Hsz]];
        [congruence|rewrite Er; exact Hsz]. }
    split; [split|].
    + intros X. contradiction.
    + intros [N1 N2]. exfalso. destruct G as [(G1 & G2 & _)|(_ & G2)].
      * specialize (N1 r G2). specialize (FIT G1 G2). lia.
      * pose proof (hf_max _ _ (hi_frame _ _ _ HI')). lia.
    + intros _. destruct G as [(G1 & G2 & G3 & _)|(G1 & G2)]; [left|right; auto].
      split; [exists r; auto|exact G3].
Qed.

Lemma mm_malloc_fails_iff_exhausted_witness :
  exists p st',
    mm_malloc 3 5000 state_two_free = Some (p, st') /\
    (p = NULL <->
     (forall b, In b [65552; 65728] ->
        blk_size (mem state_two_free) b < adjusted_size 5000) /\
     mem_max_addr state_two_free
       < mem_brk state_two_free + MAX (adjusted_size 5000) CHUNKSIZE) /\
    (p <> NULL ->
     ((exists b, In b [65552; 65728] /\
                 adjusted_size 5000 <= blk_size (mem state_two_free) b) /\
      mem_brk st' = mem_brk state_two_free) \/
     ((forall b, In b [65552; 65728] ->
         blk_size (mem state_two_free) b < adjusted_size 5000) /\
      mem_brk st' = mem_brk state_two_free + MAX (adjusted_size 5000) CHUNKSIZE)).
Proof.
  apply (mm_malloc_fails_iff_exhausted state_two_free [65664] [65552; 65728] 5000 3).
  - apply (reach_free int_sized 8 state_two_live [65664; 65552] 65552 state_two_free
             state_two_live_reachable); [right; left; reflexivity|vm_compute; reflexivity].
  - apply state_two_free_walk.
  - lia.
  - lia.
  - simpl. lia.
Defined.

(** ** Reusing a freed block *)

(** X9: after [mm_free(p)] at an observation point, a request that the block
    of [p] could hold (and whose adjusted size fits an [int]) is served without growing the arena: [mm_malloc]
    returns a pointer and the arena end is where it was before the
    [mm_free]. *)
Theorem mm_free_then_mm_malloc_reuses (st : state) (live : list Z) (p size : Z) :
  reachable int_sized st live -> In p live ->
  1 <= size -> size + 15 < 2 ^ 31 -> size + DSIZE <= blk_size (mem st) p ->
  exists fuel0, forall fuel, (fuel0 <= fuel)%nat ->
    exists st1 r st2,
      mm_free fuel p st = Some st1 /\
      mm_malloc fuel size st1 = Some (r, st2) /\
      r <> NULL /\ mem_brk st2 = mem_brk st.
Proof.
  intros R Hp H1 S1 H2. destruct (reachable_heap_inv st live R) as (bs & L & HI & HL).
  apply HL in Hp.
  destruct (heap_inv_live _ _ _ _ HI Hp) as (_ & _ & A3 & A4 & _ & A6 & A7 & A8).
  pose proof (hf_base _ _ (hi_frame _ _ _ HI)) as B.
  destruct (mm_free_spec (S (length L)) st bs L p HI Hp ltac:(lia))
    as (st1 & bs1 & L1 & E & HI1 & E1 & _ & _ & _ & _ & (b & Hb & Hsz) & _).
  destruct (adjusted_size_round_up size H1 S1) as (J1 & _ & _).
  assert (J2 : adjusted_size size <= blk_size (mem st) p).
  { rewrite J1. unfold round_up. consts. Z.div_mod_to_equations. lia. }
  exists (Nat.max (S (length L)) (S (length L1))). intros fuel Hf.
  exists st1.
  destruct (mm_malloc_spec fuel st1 bs1 L1 size HI1 H1 S1 ltac:(lia))
    as (r & st2 & E2 & [(-> & -> & N1 & _)|(Hnn & bs2 & L2 & _ & _ & _ & _ & _ & _ & _ & G & _)]).
  - specialize (N1 b Hb). lia.
  - exists r, st2. split; [apply (mm_free_mono p st (S (length L))); [exact E|lia]|].
    split; [exact E2|]. split; [exact Hnn|].
    destruct G as [(_ & _ & G3 & _)|(G1 & _)]; [congruence|].
    specialize (G1 b Hb). lia.
Qed.

Lemma mm_free_then_mm_malloc_reuses_witness :
  exists fuel0, forall fuel, (fuel0 <= fuel)%nat ->
    exists st1 r st2,
      mm_free fuel 65552 state_two_live = Some st1 /\
      mm_malloc fuel 90 st1 = Some (r, st2) /\
      r <> NULL /\ mem_brk st2 = mem_brk state_two_live.
Proof.
  apply (mm_free_then_mm_malloc_reuses state_two_live [65664; 65552] 65552 90).
  - apply state_two_live_reachable.
  - right. left. reflexivity.
  - lia.
  - lia.
  - replace (blk_size (mem state_two_live) 65552) with 112 by (vm_compute; reflexivity).
    unfold DSIZE. lia.
Defined.

(** ** Resizing in place *)

Lemma range_bytes m m' lo hi :
  lo + 4 <= hi ->
  (forall q, lo <= q -> q + 4 <= hi -> GET_W m' q = GET_W m q) ->
  forall a, lo <= a < hi -> load_byte m' a = load_byte m a.
Proof.
  intros Hs F a Ha. destruct (Z_le_gt_dec (a + 4) hi) as [Hle|Hgt].
  - apply (GET_W_bytes m m' a); [apply F; lia|lia].
  - apply (GET_W_bytes m m' (hi - 4)); [apply F; lia|lia].
Qed.

Lemma new_blk_size_round_up size :
  1 <= size -> size + 15 < 2 ^ 32 ->
  MINIMUM_BLK_SIZE <= new_blk_size size /\ new_blk_size size mod ALIGNMENT = 0 /\
  size + DSIZE <= new_blk_size size < size + 16.
Proof.
  intros H1 H2. unfold new_blk_size. destruct (Z.leb_spec size DSIZE).
  - consts. split; [lia|]. split; [reflexivity|lia].
  - rewrite uint_small by (consts; lia). rewrite ALIGN_round_up by (consts; lia).
    unfold round_up. consts. Z.div_mod_to_equations. lia.
Qed.

(** The representation behind the next-block test of [mm_realloc]. *)
Lemma realloc_absorb_spec st pre s post L e fuel size :
  heap_inv st (pre ++ (s, true) :: post) L ->
  1 <= size -> size + 15 < 2 ^ 32 ->
  let p := first_blkp st + total pre in
  s < new_blk_size size ->
  GET_ISALLOCATED (mem st) (HDRP (p + s)) = 0 ->
  0 <= s + blk_size (mem st) (p + s) - new_blk_size size < 2 ^ 31 ->
  exists s2 post' st',
    post = (s2, false) :: post' /\ blk_size (mem st) (p + s) = s2 /\
    mm_realloc fuel e p size st = Some (p, st') /\
    heap_inv st' (pre ++ (s + s2, true) :: post') (remove Z.eq_dec (p + s) L) /\
    mem_brk st' = mem_brk st /\ heap_listp st' = heap_listp st /\
    (forall q, p <= q -> q + 4 <= p + s - DSIZE -> GET_W (mem st') q = GET_W (mem st) q) /\
    (forall q, beside st pre post p s q -> GET_W (mem st') q = GET_W (mem st) q).
Proof.
  intros HI H1 H2 p Hlt Hfree Hrem.
  destruct (naf_mid _ _ _ _ (hi_naf _ _ _ HI)) as (N1 & N2 & _).
  destruct (open_alloc _ _ _ _ _ HI) as [H HT]. fold p in H, HT.
  destruct (read_hole _ _ _ _ _ _ _ H HT) as (R1 & R2 & R3).
  pose proof (read_next _ _ _ _ _ _ H) as RN.
  destruct post as [|[s2 a2] post']; [rewrite Hfree in RN; discriminate|].
  destruct RN as [RA RS]. rewrite Hfree in RA. destruct a2; [discriminate|]. clear RA.
  unfold blk_size in Hrem |- *. rewrite RS in Hrem.
  exists s2, post'.
  destruct (absorb_next _ _ _ _ _ _ _ H) as (HA & Hin & F1 & F2).
  destruct (write_tags _ _ _ _ _ _ true HA (or_intror I))
    as (W1 & W2 & W3 & W4 & W5 & W6 & W7).
  simpl Z.b2z in *.
  pose proof (hole_rep_bounds _ _ _ _ _ _ HA) as HB.
  destruct (hr_size _ _ _ _ _ _ H) as [Hs Hs'].
  eexists. split; [reflexivity|]. split; [exact RS|].
  split.
  { unfold mm_realloc. destruct (Z.eqb_spec size 0) as [|_]; [lia|].
    rewrite R1, R2, RS.
    destruct (Z.ltb_spec s (new_blk_size size)) as [_|]; [|lia].
    rewrite Hfree. change (0 =? 0) with true. cbv iota.
    rewrite sint_small by lia.
    destruct (Z.leb_spec 0 (s + s2 - new_blk_size size)) as [_|]; [|lia].
    cbv zeta.
    replace (new_blk_size size + (s + s2 - new_blk_size size)) with (s + s2) by lia.
    rewrite (uint_small (s + s2)) by (consts; lia).
    rewrite W1. reflexivity. }
  assert (NAF : no_adjacent_free (pre ++ (s + s2, true) :: post')).
  { apply naf_hole; [exact N1|simpl in N2; apply N2|discriminate]. }
  pose proof (close_alloc _ _ _ _ _ _ W2 W3 NAF) as HI'.
  split; [exact HI'|].
  destruct (remove_node_fields (p + s) st) as (E1 & _ & E3).
  split; [congruence|]. split; [congruence|]. split.
  - intros q Q1 Q2. rewrite W7 by (consts; lia). apply F1; consts; lia.
  - intros q Hq. apply beside_next in Hq. rewrite <- (F2 q Hq).
    assert (Hq' : beside (remove_node (p + s) st) pre post' p (s + s2) q)
      by (apply (beside_base st); [exact E3|exact Hq]).
    destruct (hole_rep_beside _ _ _ _ _ _ _ HA Hq') as [C _].
    apply W7; consts; lia.
Qed.

(** X10: when the block after a live block is free and the two together
    hold the new size, [mm_realloc] takes the free block out of the free
    list and joins it, whole, to the live block.  The call returns the
    pointer it was given; the block has the size of the two; the arena end
    does not move; the payload bytes and every other live block read as
    before; and the heap is consistent. *)
Theorem mm_realloc_absorbs_next
  (fuel : nat) (extend_size0 : Z) (st : state) (live : list Z) (p size : Z) :
  reachable int_sized st live -> In p live ->
  1 <= size -> size + 15 < 2 ^ 32 ->
  blk_size (mem st) p < new_blk_size size ->
  GET_ISALLOCATED (mem st) (HDRP (p + blk_size (mem st) p)) = 0 ->
  0 <= blk_size (mem st) p + blk_size (mem st) (p + blk_size (mem st) p)
       - new_blk_size size < 2 ^ 31 ->
  exists st',
    mm_realloc fuel extend_size0 p size st = Some (p, st') /\
    blk_size (mem st') p
      = blk_size (mem st) p + blk_size (mem st) (p + blk_size (mem st) p) /\
    GET_ISALLOCATED (mem st') (HDRP p) = 1 /\
    mem_brk st' = mem_brk st /\ consistent st' /\
    (forall a, p <= a < p + blk_size (mem st) p - DSIZE ->
       load_byte (mem st') a = load_byte (mem st) a) /\
    (forall q, In q live -> q <> p ->
       forall a, q - WSIZE <= a < q + blk_size (mem st) q - WSIZE ->
         load_byte (mem st') a = load_byte (mem st) a).
Proof.
  intros R Hp H1 H2 Hlt Hfree Hrem.
  destruct (reachable_heap_inv st live R) as (bs & L & HI & HL).
  apply HL in Hp. pose proof (hi_layout _ _ _ HI) as LAY.
  assert (DIS : forall q, In q (alloc_addrs (first_blkp st) bs) -> q <> p ->
                  q + blk_size (mem st) q <= p \/ p + blk_size (mem st) p <= q).
  { intros q Hq Hne.
    apply (layout_disjoint _ _ _ _ _ LAY (addrs_all _ _ _ _ Hq) (addrs_all _ _ _ _ Hp) Hne). }
  assert (LIVE : forall q, In q (alloc_addrs (first_blkp st) bs) ->
                   MINIMUM_BLK_SIZE <= blk_size (mem st) q).
  { intros q Hq. apply (heap_inv_live _ _ _ _ HI Hq). }
  assert (AW : forall q w, In q (alloc_addrs (first_blkp st) bs) ->
                 q - 4 <= w -> w + 4 <= q + blk_size (mem st) q - 4 ->
                 in_alloc (first_blkp st) bs w).
  { intros q w Hq W1 W2. eapply alloc_words; eassumption. }
  destruct (addrs_split _ _ _ _ Hp) as (pre & s & a & post & -> & Ep & ->).
  destruct (heap_inv_block _ _ _ _ _ _ HI) as ((Hs & Hs') & BS & _).
  rewrite <- Ep in BS. rewrite BS in *.
  pose proof (realloc_absorb_spec st pre s post L extend_size0 fuel size HI H1 H2) as X.
  cbv zeta in X. rewrite <- Ep in X.
  destruct (X Hlt Hfree Hrem)
    as (s2 & post' & st' & -> & ES2 & E & HI' & E1 & E3 & F1 & F2).
  rewrite ES2 in *.
  exists st'. split; [exact E|].
  assert (EF : first_blkp st' = first_blkp st) by (unfold first_blkp; congruence).
  destruct (heap_inv_block _ _ _ _ _ _ HI') as (_ & BS' & _).
  rewrite EF, <- Ep in BS'.
  split; [exact BS'|]. split.
  { pose proof (hi_layout _ _ _ HI') as LAY'. apply layout_app in LAY'.
    destruct LAY' as [_ LAY']. rewrite EF, <- Ep in LAY'.
    apply (layout_alloc_bit _ _ _ _ _ LAY'). }
  split; [exact E1|]. split; [eapply heap_inv_consistent; exact HI'|]. split.
  - apply range_bytes; [consts; lia|]. intros q Q1 Q2. apply F1; assumption.
  - intros q Hq Hne. apply HL in Hq. pose proof (LIVE q Hq) as Hq16.
    apply range_bytes; [consts; lia|]. intros w W1 W2. apply F2.
    assert (Hw : in_alloc (first_blkp st) (pre ++ (s, true) :: (s2, false) :: post') w)
      by (apply (AW q w Hq); consts; lia).
    apply (beside_in_alloc st pre ((s2, false) :: post') p s true w Ep) in Hw.
    destruct Hw as [Hw|(_ & Hw1 & Hw2)]; [exact Hw|].
    destruct (DIS q Hq Hne); consts; lia.
Qed.

Lemma state_one_live_reachable : reachable int_sized state_one_live [65552].
Proof.
  apply (reach_malloc int_sized 8 state_init [] 8 65552 state_one_live
           (state_init_reachable int_sized));
    [unfold int_sized; lia|vm_compute; reflexivity].
Qed.

Lemma mm_realloc_absorbs_next_witness :
  exists st',
    mm_realloc 0 0 65552 100 state_one_live = Some (65552, st') /\
    blk_size (mem st') 65552
      = blk_size (mem state_one_live) 65552
        + blk_size (mem state_one_live) (65552 + blk_size (mem state_one_live) 65552) /\
    GET_ISALLOCATED (mem st') (HDRP 65552) = 1 /\
    mem_brk st' = mem_brk state_one_live /\ consistent st' /\
    (forall a, 65552 <= a < 65552 + blk_size (mem state_one_live) 65552 - DSIZE ->
       load_byte (mem st') a = load_byte (mem state_one_live) a) /\
    (forall q, In q [65552] -> q <> 65552 ->
       forall a, q - WSIZE <= a < q + blk_size (mem state_one_live) q - WSIZE ->
         load_byte (mem st') a = load_byte (mem state_one_live) a).
Proof.
  apply (mm_realloc_absorbs_next 0 0 state_one_live [65552] 65552 100).
  - apply state_one_live_reachable.
  - left. reflexivity.
  - lia.
  - lia.
  - vm_compute. reflexivity.
  - vm_compute. reflexivity.
  - split; vm_compute; congruence.
Defined.

(** ** Resizing by moving *)

Lemma load_byte_copy_bytes m dst src n x :
  load_byte (copy_bytes m dst src n) x
  = if (dst <=? x) && (x <? dst + n) then load_byte m (src + (x - dst)) else load_byte m x.
Proof.
  unfold copy_bytes, load_byte at 1. destruct ((dst <=? x) && (x <? dst + n)); [|reflexivity].
  unfold load_byte. apply Z.mod_mod. lia.
Qed.

Lemma GET_W_copy_bytes_other m dst src n q :
  q + 4 <= dst \/ dst + n <= q -> GET_W (copy_bytes m dst src n) q = GET_W m q.
Proof.
  intros H. unfold GET_W. rewrite !load_byte_copy_bytes.
  repeat match goal with |- context [(?a <=? ?b) && (?c <? ?d)] =>
    replace ((a <=? b) && (c <? d)) with false
      by (symmetry; apply andb_false_iff;
          destruct (Z.leb_spec a b); [right; apply Z.ltb_ge; lia|left; reflexivity])
  end.
  reflexivity.
Qed.

(** The representation does not read the inside of the block under
    construction. *)
Lemma hole_rep_mem st pre post L bp S m' a :
  hole_rep st pre post L bp S -> hole_tags (mem st) bp S a ->
  (forall q, q + 4 <= bp \/ bp + S - 8 <= q -> GET_W m' q = GET_W (mem st) q) ->
  hole_rep (with_mem st m') pre post L bp S /\ hole_tags m' bp S a.
Proof.
  intros H [T1 T2] F. pose proof (fun b => hole_rep_members _ _ _ _ _ _ b H) as HM.
  destruct H as [HF Hbp Hpre [Hs Hs'] Hpost Hbrk HP].
  assert (FR : layout m' (first_blkp st) pre /\
               layout m' (bp + S) post /\
               GET_W m' (HDRP (heap_listp st)) = PACK DSIZE 1 /\
               GET_W m' (heap_listp st) = PACK DSIZE 1 /\
               GET_W m' (HDRP (mem_brk st)) = PACK 0 1)
    by (eapply around_hole_frame; try eassumption; intros; apply F; consts; lia).
  destruct FR as (F1 & F2 & F3 & F4 & F5).
  split; [|split; rewrite F by (consts; lia); assumption].
  split; try assumption; [|split; assumption].
  destruct HF as [B PH PF EP MX FL AS].
  split; try assumption.
  - unfold free_list in *. simpl. apply (dll_frame (mem st)); [|exact FL].
    intros b Hb. destruct (HM b Hb); consts; unfold GET_PREV_PTR, GET_NEXT_PTR;
      rewrite !F by lia; split; reflexivity.
  - apply (ascending_frame (mem st)); [|exact AS].
    intros b Hb. unfold blk_size, GET_SIZE. simpl. f_equal. apply F.
    destruct (HM b Hb); consts; lia.
Qed.

(** Writing into the payload of an allocated block keeps the heap. *)
Lemma heap_inv_payload st bs L r m' :
  heap_inv st bs L -> In r (alloc_addrs (first_blkp st) bs) ->
  (forall q, q + 4 <= r \/ r + blk_size (mem st) r - 8 <= q ->
     GET_W m' q = GET_W (mem st) q) ->
  heap_inv (with_mem st m') bs L.
Proof.
  intros HI Hr F.
  destruct (addrs_split _ _ _ _ Hr) as (pre & s & a & post & -> & -> & ->).
  destruct (heap_inv_block _ _ _ _ _ _ HI) as (_ & BS & _). rewrite BS in F.
  destruct (open_alloc _ _ _ _ _ HI) as [H HT].
  destruct (hole_rep_mem _ _ _ _ _ _ m' true H HT F) as [H' HT'].
  apply (close_alloc _ _ _ _ _ _ H' HT'). apply (hi_naf _ _ _ HI).
Qed.

Lemma adjusted_new_blk_size size :
  1 <= size -> size + 23 < 2 ^ 31 ->
  adjusted_size (new_blk_size size - DSIZE) = new_blk_size size.
Proof.
  intros H1 H2. destruct (new_blk_size_round_up size H1 ltac:(lia)) as (NB1 & NB2 & NB3).
  destruct (adjusted_size_round_up (new_blk_size size - DSIZE)) as (A1 & _);
    [consts; lia|consts; lia|].
  rewrite A1. unfold round_up. consts. Z.div_mod_to_equations. lia.
Qed.


Lemma state_two_live_walk : free_list state_two_live [65728].
Proof.
  assert (T : free_list_tail state_two_live = 65728 /\
              GET_NEXT_PTR (mem state_two_live) 65728 = NULL /\
              GET_PREV_PTR (mem state_two_live) 65728 = NULL)
    by (repeat split; vm_compute; reflexivity).
  destruct T as (T & N & P). unfold free_list. cbn [dll]. rewrite T, N, P.
  unfold NULL. repeat split; lia.
Qed.


(** ** The free list at an observation point *)

(** X12: at an observation point the walk from the free-list tail ends, it
    visits no block twice, the sizes never decrease along it, so the tail is
    a smallest free block, and every block it visits lies in the arena and
    has at least the minimum block size. *)
Theorem free_list_sorted_at_observation_points (st : state) (live : list Z) :
  reachable int_sized st live ->
  exists L,
    free_list st L /\ NoDup L /\ ascending (mem st) L /\
    (forall b, In b L ->
       blk_size (mem st) (free_list_tail st) <= blk_size (mem st) b /\
       MINIMUM_BLK_SIZE <= blk_size (mem st) b /\
       heap_listp st + DSIZE <= b /\ b + blk_size (mem st) b <= mem_brk st /\
       ~ In b live).
Proof.
  intros R. destruct (reachable_heap_inv st live R) as (bs & L & HI & HL).
  pose proof (hi_layout _ _ _ HI) as LAY. pose proof (hi_perm _ _ _ HI) as PM.
  pose proof (hf_list _ _ (hi_frame _ _ _ HI)) as FL.
  pose proof (hf_asc _ _ (hi_frame _ _ _ HI)) as AS.
  exists L. split; [exact FL|]. split.
  { apply apart_NoDup. apply (apart_perm _ _ (Permutation_sym PM)).
    eapply addrs_apart. exact LAY. }
  split; [exact AS|]. intros b Hb.
  split; [rewrite (dll_head _ _ _ _ FL); apply ascending_head_least; assumption|].
  apply (Permutation_in _ PM) in Hb.
  destruct (addrs_split _ _ _ _ Hb) as (pre & s & a & post & -> & -> & Ha).
  destruct a; [discriminate|].
  destruct (heap_inv_block _ _ _ _ _ _ HI) as ((Hs & _) & BS & B1 & B2 & _ & B4 & _ & B6).
  rewrite BS. unfold first_blkp in *. splits; try lia.
  intros X. apply HL in X. rewrite alloc_addrs_mid in X. simpl in X.
  apply in_app_or in X. destruct X as [X|X]; [apply B1 in X|apply B2 in X]; consts; lia.
Qed.

Lemma free_list_sorted_at_observation_points_witness :
  exists L,
    free_list state_two_free L /\ NoDup L /\ ascending (mem state_two_free) L /\
    (forall b, In b L ->
       blk_size (mem state_two_free) (free_list_tail state_two_free)
         <= blk_size (mem state_two_free) b /\
       MINIMUM_BLK_SIZE <= blk_size (mem state_two_free) b /\
       heap_listp state_two_free + DSIZE <= b /\
       b + blk_size (mem state_two_free) b <= mem_brk state_two_free /\
       ~ In b [65664]).
Proof.
  apply (free_list_sorted_at_observation_points state_two_free [65664]).
  apply (reach_free int_sized 8 state_two_live [65664; 65552] 65552 state_two_free
           state_two_live_reachable); [right; left; reflexivity|vm_compute; reflexivity].
Defined.

(** X13: at an observation point, when a free block holds the adjusted
    size, [mm_malloc] hands out a smallest such block: no free block that
    fits is smaller than the one chosen.  The arena end does not move.  The
    block is split when the rest can hold a minimum block: then the block
    handed out has exactly the adjusted size and the rest, which starts
    where it ends, is in the free list; otherwise the whole block is handed
    out. *)
Theorem mm_malloc_best_fit
  (st : state) (live L : list Z) (size : Z) (fuel : nat) :
  reachable int_sized st live -> free_list st L ->
  1 <= size -> size + 15 < 2 ^ 31 ->
  (exists b, In b L /\ adjusted_size size <= blk_size (mem st) b) ->
  (length L < fuel)%nat ->
  exists r st',
    mm_malloc fuel size st = Some (r, st') /\
    In r L /\ adjusted_size size <= blk_size (mem st) r /\
    (forall b, In b L -> adjusted_size size <= blk_size (mem st) b ->
       blk_size (mem st) r <= blk_size (mem st) b) /\
    mem_brk st' = mem_brk st /\
    blk_size (mem st') r
    = (if MINIMUM_BLK_SIZE <=? blk_size (mem st) r - adjusted_size size
       then adjusted_size size else blk_size (mem st) r) /\
    (MINIMUM_BLK_SIZE <= blk_size (mem st) r - adjusted_size size ->
     exists L', free_list st' L' /\ In (r + adjusted_size size) L' /\
       blk_size (mem st') (r + adjusted_size size)
       = blk_size (mem st) r - adjusted_size size).
Proof.
  intros R HL H1 H2 HE Hf. destruct (reachable_heap_inv st live R) as (bs & L0 & HI & _).
  assert (EL : L0 = L)
    by (eapply dll_unique; [apply (hf_list _ _ (hi_frame _ _ _ HI))|exact HL]).
  subst L0. pose proof (hf_asc _ _ (hi_frame _ _ _ HI)) as AS.
  destruct (first_fit_spec (mem st) (adjusted_size size) L AS HE) as (F1 & F2 & F3 & _).
  destruct (mm_malloc_spec fuel st bs L size HI H1 H2 Hf)
    as (r & st' & E & [(_ & _ & N1 & _)
                      |(_ & bs' & L' & HI' & _ & _ & _ & _ & _ & _ & G & _)]).
  - exfalso. destruct HE as (b & Hb & Hsz). specialize (N1 b Hb). lia.
  - destruct G as [(G1 & G2 & G3 & G4 & G5)|(G1 & _)].
    + exists r, st'. subst r. splits; try assumption.
      intros X. exists L'. split; [apply (hf_list _ _ (hi_frame _ _ _ HI'))|apply G5, X].
    + exfalso. destruct HE as (b & Hb & Hsz). specialize (G1 b Hb). lia.
Qed.

Lemma mm_malloc_best_fit_witness :
  exists r st',
    mm_malloc 3 90 state_two_free = Some (r, st') /\
    In r [65552; 65728] /\ adjusted_size 90 <= blk_size (mem state_two_free) r /\
    (forall b, In b [65552; 65728] -> adjusted_size 90 <= blk_size (mem state_two_free) b ->
       blk_size (mem state_two_free) r <= blk_size (mem state_two_free) b) /\
    mem_brk st' = mem_brk state_two_free /\
    blk_size (mem st') r
    = (if MINIMUM_BLK_SIZE <=? blk_size (mem state_two_free) r - adjusted_size 90
       then adjusted_size 90 else blk_size (mem state_two_free) r) /\
    (MINIMUM_BLK_SIZE <= blk_size (mem state_two_free) r - adjusted_size 90 ->
     exists L', free_list st' L' /\ In (r + adjusted_size 90) L' /\
       blk_size (mem st') (r + adjusted_size 90)
       = blk_size (mem state_two_free) r - adjusted_size 90).
Proof.
  apply (mm_malloc_best_fit state_two_free [65664] [65552; 65728] 90 3).
  - apply (reach_free int_sized 8 state_two_live [65664; 65552] 65552 state_two_free
             state_two_live_reachable); [right; left; reflexivity|vm_compute; reflexivity].
  - apply state_two_free_walk.
  - lia.
  - lia.
  - exists 65552. split; [left; reflexivity|]. vm_compute. congruence.
  - simpl. lia.
Defined.

(** ** The blocks and the arena *)

Lemma layout_sizes m bs : forall p,
  layout m p bs ->
  fold_right Z.add 0 (map (blk_size m) (all_addrs p bs)) = total bs.
Proof.
  induction bs as [|[s a] bs IH]; intros p H; [reflexivity|].
  pose proof (layout_blk_size _ _ _ _ _ H) as ES.
  simpl in H. destruct H as (_ & _ & _ & H).
  change (all_addrs p ((s, a) :: bs)) with (p :: all_addrs (p + s) bs).
  simpl. rewrite ES, (IH _ H). reflexivity.
Qed.

(** X14: at an observation point the blocks tile the arena: the walk from
    the first block, from header to header, ends at the epilogue header,
    which is the last word of the arena, and the sizes of the blocks it
    visits add up to the bytes between the prologue and the arena end. *)
Theorem heap_tiles_arena (st : state) (live : list Z) :
  reachable int_sized st live ->
  exists blocks,
    heap_walk (mem st) (heap_listp st + DSIZE) blocks /\
    heap_listp st + DSIZE + fold_right Z.add 0 (map (blk_size (mem st)) blocks)
      = mem_brk st /\
    GET_W (mem st) (HDRP (heap_listp st)) = PACK DSIZE 1 /\
    GET_W (mem st) (heap_listp st) = PACK DSIZE 1 /\
    GET_W (mem st) (HDRP (mem_brk st)) = PACK 0 1 /\
    mem_brk st <= mem_max_addr st.
Proof.
  intros R. destruct (reachable_heap_inv st live R) as (bs & L & HI & _).
  destruct HI as [[B PH PF EP MX FL AS] LAY Hbrk PM NAF].
  exists (all_addrs (first_blkp st) bs). fold (first_blkp st).
  split; [|split; [|splits; try assumption; lia]].
  - apply layout_walk; [exact LAY|]. rewrite Hbrk. unfold GET_SIZE. rewrite EP. reflexivity.
  - rewrite (layout_sizes _ _ _ LAY). exact Hbrk.
Qed.

Lemma heap_tiles_arena_witness :
  exists blocks,
    heap_walk (mem state_two_live) (heap_listp state_two_live + DSIZE) blocks /\
    heap_listp state_two_live + DSIZE
      + fold_right Z.add 0 (map (blk_size (mem state_two_live)) blocks)
      = mem_brk state_two_live /\
    GET_W (mem state_two_live) (HDRP (heap_listp state_two_live)) = PACK DSIZE 1 /\
    GET_W (mem state_two_live) (heap_listp state_two_live) = PACK DSIZE 1 /\
    GET_W (mem state_two_live) (HDRP (mem_brk state_two_live)) = PACK 0 1 /\
    mem_brk state_two_live <= mem_max_addr state_two_live.
Proof.
  apply (heap_tiles_arena state_two_live [65664; 65552]).
  apply state_two_live_reachable.
Defined.

(** ** What a release joins *)

Lemma GET_SIZE_nonneg m p : 0 <= GET_SIZE m p.
Proof.
  unfold GET_SIZE. rewrite land_lnot7. pose proof (GET_W_range m p).
  Z.div_mod_to_equations. lia.
Qed.

(** In a heap, the block before a block ends where the block starts, unless
    it is the prologue, which is allocated. *)
Lemma heap_inv_prev st bs L p :
  heap_inv st bs L -> In p (alloc_addrs (first_blkp st) bs) ->
  prev_free (mem st) p = true ->
  PREV_BLKP (mem st) p + GET_SIZE (mem st) (HDRP (PREV_BLKP (mem st) p)) = p.
Proof.
  intros HI Hp. unfold prev_free.
  destruct (addrs_split _ _ _ _ Hp) as (pre & s & a & post & -> & -> & ->).
  destruct (open_alloc _ _ _ _ _ HI) as [H _].
  destruct (read_prev _ _ _ _ _ _ H) as [RP0 RP1].
  destruct (list_snoc_case pre) as [->|(pre' & [s1 a1] & ->)].
  - destruct (RP0 eq_refl) as [-> X]. rewrite X. discriminate.
  - destruct (RP1 _ _ _ eq_refl) as (-> & _ & X). rewrite X. lia.
Qed.

(** X16: at an observation point [mm_free] of a live pointer joins the block
    with each neighbour that is free: afterwards the free list holds the
    block that starts at the previous block when that one was free, and at
    the pointer otherwise, and its size is the size of the freed block plus
    the sizes of the neighbours that were free.  The freed block lies inside
    it. *)
Theorem mm_free_coalesces (st : state) (live : list Z) (p : Z) :
  reachable int_sized st live -> In p live ->
  exists fuel0, forall fuel, (fuel0 <= fuel)%nat ->
    exists st' L',
      mm_free fuel p st = Some st' /\ free_list st' L' /\
      In (merged_addr (mem st) p) L' /\
      blk_size (mem st') (merged_addr (mem st) p) = merged_size (mem st) p /\
      merged_addr (mem st) p <= p /\
      p + blk_size (mem st) p <= merged_addr (mem st) p + merged_size (mem st) p.
Proof.
  intros R Hp. destruct (reachable_heap_inv st live R) as (bs & L & HI & HL).
  apply HL in Hp. exists (S (length L)). intros fuel Hf.
  destruct (mm_free_spec fuel st bs L p HI Hp ltac:(lia))
    as (st' & bs' & L' & E & HI' & _ & _ & _ & _ & _ & _ & M1 & M2).
  exists st', L'. split; [exact E|]. split; [apply (hf_list _ _ (hi_frame _ _ _ HI'))|].
  split; [exact M1|]. split; [exact M2|].
  pose proof (heap_inv_prev _ _ _ _ HI Hp) as PV.
  pose proof (GET_SIZE_nonneg (mem st) (HDRP (PREV_BLKP (mem st) p))) as P0.
  pose proof (GET_SIZE_nonneg (mem st) (HDRP (NEXT_BLKP (mem st) p))) as N0.
  unfold merged_addr, merged_size, blk_size.
  destruct (prev_free (mem st) p); [specialize (PV eq_refl)|clear PV];
    destruct (next_free (mem st) p); lia.
Qed.

Lemma state_two_free_reachable : reachable int_sized state_two_free [65664].
Proof.
  apply (reach_free int_sized 8 state_two_live [65664; 65552] 65552 state_two_free
           state_two_live_reachable); [right; left; reflexivity|vm_compute; reflexivity].
Qed.

Lemma mm_free_coalesces_witness :
  exists fuel0, forall fuel, (fuel0 <= fuel)%nat ->
    exists st' L',
      mm_free fuel 65664 state_two_free = Some st' /\ free_list st' L' /\
      In (merged_addr (mem state_two_free) 65664) L' /\
      blk_size (mem st') (merged_addr (mem state_two_free) 65664)
        = merged_size (mem state_two_free) 65664 /\
      merged_addr (mem state_two_free) 65664 <= 65664 /\
      65664 + blk_size (mem state_two_free) 65664
        <= merged_addr (mem state_two_free) 65664 + merged_size (mem state_two_free) 65664.
Proof.
  apply (mm_free_coalesces state_two_free [65664] 65664).
  - apply state_two_free_reachable.
  - left. reflexivity.
Defined.

(** ** Boundary tags *)

(** X17: a boundary tag written with [PUT_W] and [PACK] reads back: for a
    size that is a multiple of 8 and fits 32 bits and an allocated bit of 0
    or 1, [GET_SIZE] gives the size and [GET_ISALLOCATED] the bit, and no
    word that does not overlap the tag changes. *)
Theorem boundary_tag_roundtrip (m : memory) (p s a : Z) :
  s mod ALIGNMENT = 0 -> 0 <= s < 2 ^ 32 -> 0 <= a <= 1 ->
  GET_SIZE (PUT_W m p (PACK s a)) p = s /\
  GET_ISALLOCATED (PUT_W m p (PACK s a)) p = a /\
  (forall q, q + WSIZE <= p \/ p + WSIZE <= q ->
     GET_W (PUT_W m p (PACK s a)) q = GET_W m q).
Proof.
  intros Hs Hr Ha. unfold GET_SIZE, GET_ISALLOCATED.
  rewrite GET_W_PUT_W_same, PACK_add by (assumption || lia).
  rewrite uint_small by (unfold ALIGNMENT in Hs; Z.div_mod_to_equations; lia).
  split; [apply size_of_word; [exact Hs|lia]|].
  split; [apply alloc_of_word; [exact Hs|lia]|].
  intros q Hq. apply GET_W_PUT_W_other. unfold WSIZE in Hq. lia.
Qed.

Lemma boundary_tag_roundtrip_witness :
  GET_SIZE (PUT_W (fun _ => 0) 100 (PACK 4096 1)) 100 = 4096 /\
  GET_ISALLOCATED (PUT_W (fun _ => 0) 100 (PACK 4096 1)) 100 = 1 /\
  (forall q, q + WSIZE <= 100 \/ 100 + WSIZE <= q ->
     GET_W (PUT_W (fun _ => 0) 100 (PACK 4096 1)) q = GET_W (fun _ => 0) q).
Proof.
  apply (boundary_tag_roundtrip (fun _ => 0) 100 4096 1).
  - reflexivity.
  - lia.
  - lia.
Defined.

(** X18: at an observation point the boundary tags link the blocks both
    ways: from a live block, the footer is the word before the next block's
    header, stepping to the next block and back gives the block, and so does
    stepping to the previous block (the prologue for the first block) and
    forth. *)
Theorem block_navigation_roundtrip (st : state) (live : list Z) (p : Z) :
  reachable int_sized st live -> In p live ->
  FTRP (mem st) p + DSIZE = NEXT_BLKP (mem st) p /\
  PREV_BLKP (mem st) (NEXT_BLKP (mem st) p) = p /\
  NEXT_BLKP (mem st) (PREV_BLKP (mem st) p) = p.
Proof.
  intros R Hp. destruct (reachable_heap_inv st live R) as (bs & L & HI & HL).
  apply HL in Hp.
  destruct (addrs_split _ _ _ _ Hp) as (pre & s & a & post & -> & -> & ->).
  destruct (open_alloc _ _ _ _ _ HI) as [H HT].
  set (bp := first_blkp st + total pre) in *.
  destruct (read_hole _ _ _ _ _ _ _ H HT) as (R1 & R2 & R3).
  destruct (hr_size _ _ _ _ _ _ H) as [Hs Hs'].
  split; [rewrite R2, R3; consts; lia|]. split.
  - rewrite R2. unfold PREV_BLKP, GET_SIZE. destruct HT as [_ T2].
    replace (bp + s - DSIZE) with (bp + s - DSIZE) by reflexivity.
    rewrite T2, tag_size by exact Hs'. lia.
  - destruct (read_prev _ _ _ _ _ _ H) as [RP0 RP1].
    destruct (list_snoc_case pre) as [E|(pre' & [s1 a1] & E)].
    + destruct (RP0 E) as [X _]. rewrite X. unfold NEXT_BLKP. fold (HDRP (heap_listp st)).
      unfold GET_SIZE. rewrite (hf_prologue_hdr _ _ (hr_frame _ _ _ _ _ _ H)).
      change (Z.land (PACK DSIZE 1) (Z.lnot 7)) with DSIZE.
      unfold bp. rewrite E. simpl. unfold first_blkp. lia.
    + destruct (RP1 _ _ _ E) as (X & _ & Y). rewrite X. unfold NEXT_BLKP.
      fold (HDRP (bp - s1)). rewrite Y. lia.
Qed.

Lemma block_navigation_roundtrip_witness :
  FTRP (mem state_two_live) 65664 + DSIZE = NEXT_BLKP (mem state_two_live) 65664 /\
  PREV_BLKP (mem state_two_live) (NEXT_BLKP (mem state_two_live) 65664) = 65664 /\
  NEXT_BLKP (mem state_two_live) (PREV_BLKP (mem state_two_live) 65664) = 65664.
Proof.
  apply (block_navigation_roundtrip state_two_live [65664; 65552] 65664).
  - apply state_two_live_reachable.
  - left. reflexivity.
Defined.

(** ** Growing by a number of words *)

(** An odd number of words is rounded up before anything else. *)
Lemma extend_heap_odd fuel words st :
  0 <= words -> words + 1 < 2 ^ 31 -> words mod 2 = 1 ->
  extend_heap fuel words st = extend_heap fuel (words + 1) st.
Proof.
  intros H0 H1 Hodd. unfold extend_heap.
  assert (E : (words + 1) mod 2 = 0) by (Z.div_mod_to_equations; lia).
  rewrite Hodd, E. change (1 =? 0) with false. change (0 =? 0) with true. cbv iota.
  rewrite (uint_small (words + 1)) by lia. reflexivity.
Qed.

(** X19: at an observation point [extend_heap(words)] rounds the number of
    words up to an even number and asks for that many words.  It returns
    [NULL], leaving the state as it is, exactly when the arena cannot grow by
    that much; otherwise the arena end moves by exactly that many bytes, the
    result is a block of the free list that holds them (the new bytes joined
    to the last block when that one was free), no byte of a live block
    changes, and the heap is consistent. *)
Theorem extend_heap_rounds_to_even (st : state) (live : list Z) (words : Z) :
  reachable int_sized st live -> 3 <= words -> words + 1 < 2 ^ 29 ->
  exists fuel0, forall fuel, (fuel0 <= fuel)%nat ->
    exists r st',
      extend_heap fuel words st = Some (r, st') /\
      (r = NULL <-> mem_max_addr st < mem_brk st + WSIZE * (words + words mod 2)) /\
      (r = NULL -> st' = st) /\
      (r <> NULL ->
       mem_brk st' = mem_brk st + WSIZE * (words + words mod 2) /\
       consistent st' /\
       (exists L', free_list st' L' /\ In r L' /\
                   WSIZE * (words + words mod 2) <= blk_size (mem st') r) /\
       (forall q, In q live ->
          forall a, q - WSIZE <= a < q + blk_size (mem st) q - WSIZE ->
            load_byte (mem st') a = load_byte (mem st) a)).
Proof.
  intros R W0 W1. destruct (reachable_heap_inv st live R) as (bs & L & HI & HL).
  exists (S (length L)). intros fuel Hf.
  set (ext := WSIZE * (words + words mod 2)).
  assert (HE : MINIMUM_BLK_SIZE <= ext < 2 ^ 31 /\ ext mod ALIGNMENT = 0 /\
               ext / WSIZE = words + words mod 2)
    by (unfold ext; consts; Z.div_mod_to_equations; lia).
  destruct HE as (E1 & E2 & E3).
  assert (EQ : extend_heap fuel words st = extend_heap fuel (ext / WSIZE) st).
  { rewrite E3. assert (C : words mod 2 = 0 \/ words mod 2 = 1)
      by (Z.div_mod_to_equations; lia).
    destruct C as [C|C]; rewrite C; [rewrite Z.add_0_r; reflexivity|].
    apply extend_heap_odd; lia. }
  rewrite EQ.
  assert (Hf' : (length L < fuel)%nat) by (clear - Hf; lia).
  destruct (extend_heap_spec fuel st bs L ext HI E1 E2 Hf')
    as (r & st' & E & [(-> & -> & X0)
                      |(Hne & bs' & L' & HI' & X2 & X3 & X4 & X5 & _ & _ & _ & FR & _)]).
  - exists NULL, st. split; [exact E|]. split; [tauto|]. split; [reflexivity|].
    intros X. contradiction.
  - exists r, st'. split; [exact E|]. pose proof (hf_max _ _ (hi_frame _ _ _ HI')) as MX.
    split; [split; [intros X; contradiction|intros X; exfalso; lia]|].
    split; [intros X; contradiction|]. intros _.
    split; [exact X4|]. split; [eapply heap_inv_consistent; exact HI'|]. split.
    + exists L'. split; [apply (hf_list _ _ (hi_frame _ _ _ HI'))|auto].
    + intros q Hq a Ha. apply HL in Hq.
      destruct (heap_inv_live _ _ _ _ HI Hq) as (_ & _ & A3 & _).
      apply (range_bytes (mem st) (mem st') (q - 4) (q + blk_size (mem st) q - 4));
        [consts; lia| |consts; lia].
      intros w Q1 Q2. apply FR. eapply alloc_words; eassumption.
Qed.

Lemma extend_heap_rounds_to_even_witness :
  exists fuel0, forall fuel, (fuel0 <= fuel)%nat ->
    exists r st',
      extend_heap fuel 5 state_two_live = Some (r, st') /\
      (r = NULL <->
       mem_max_addr state_two_live < mem_brk state_two_live + WSIZE * (5 + 5 mod 2)) /\
      (r = NULL -> st' = state_two_live) /\
      (r <> NULL ->
       mem_brk st' = mem_brk state_two_live + WSIZE * (5 + 5 mod 2) /\
       consistent st' /\
       (exists L', free_list st' L' /\ In r L' /\
                   WSIZE * (5 + 5 mod 2) <= blk_size (mem st') r) /\
       (forall q, In q [65664; 65552] ->
          forall a, q - WSIZE <= a < q + blk_size (mem state_two_live) q - WSIZE ->
            load_byte (mem st') a = load_byte (mem state_two_live) a)).
Proof.
  apply (extend_heap_rounds_to_even state_two_live [65664; 65552] 5).
  - apply state_two_live_reachable.
  - lia.
  - lia.
Defined.
